(** * Verification of the fusil cereggii plugin samples

    A shallow embedding of the parts of [fusil_cereggii_plugin.samples] that
    the specification makes claims about:

    - [tricky_colliding_keys.generate_colliding_keys] (module [CollidingKeys]),
    - the [UnstableHash] adversarial object of [tricky_atomicdict],
    - the injected behaviours and the variant-generation loop of
      [tricky_weird_cereggii],
    - the post-join logic of [tricky_concurrency_hell.dogpile_on_atomicint],
    - the join plans of the stop-flag scenarios,
    - [tricky_stateful_scenarios.scenario_random_ops].

    Python integers are unbounded and are modelled by [Z]; dictionaries by
    stdpp's [gmap], sets by [gset]; exceptions by an explicit result type. *)

From stdpp Require Import gmap strings list fin_maps sorting.
From Stdlib Require Import ZArith Lia.

Open Scope Z_scope.

(** ** Python exceptions

    Only the distinction the handlers of the samples make is kept: the class
    of the raised object, and whether that class derives from [Exception]
    (what [except Exception] catches) or only from [BaseException]. *)

Inductive exc_class :=
  | ValueError | TypeError | KeyError | AttributeError | SystemError
  | RuntimeError | OverflowError | ReferenceError | RecursionError
  | KeyboardInterrupt | SystemExit | GeneratorExit.

#[global] Instance exc_class_eq_dec : EqDecision exc_class.
Proof. solve_decision. Defined.

(** [issubclass(c, Exception)]. *)
Definition is_Exception (c : exc_class) : bool :=
  match c with
  | KeyboardInterrupt | SystemExit | GeneratorExit => false
  | _ => true
  end.

(** ** [x >> n] on Python integers

    A negative shift count raises [ValueError]; otherwise the shift is the
    floor division by [2^n], which is [Z.shiftr]. *)
Definition py_rshift (x n : Z) : option Z :=
  if n <? 0 then None else Some (Z.shiftr x n).

(** * [tricky_colliding_keys] *)

Module CollidingKeys.

(** The subject dictionary, reduced to the one method the generator calls. *)
Record AtomicDict := { _rehash : Z -> Z }.

(** [for i in range(2**24)]. *)
Definition SEARCH_CEILING : Z := 2 ^ 24.

(** The two locals the loop updates: [results], a [defaultdict(list)], and
    [filled_buckets], a [set]. *)
Record search_state := {
  results : gmap Z (list Z);
  filled_buckets : gset Z
}.

Definition initial_state : search_state :=
  {| results := ∅; filled_buckets := ∅ |}.

(** What is written to the two streams. *)
Inductive message :=
  | Generating (log_size : Z)
  | WarningExhausted (log_size : Z).

(** Control flow of one iteration of the [for] body. *)
Inductive step_result :=
  | Continue (s : search_state)
  | Break (s : search_state)
  | StepRaise (e : exc_class).

(** Control flow of the whole [for ... else]. [Broke i s]: the [break] was
    taken while the loop variable was [i]; [Exhausted s]: the range ran out
    and the [else] suite runs. *)
Inductive loop_result :=
  | Broke (i : Z) (s : search_state)
  | Exhausted (s : search_state)
  | LoopRaise (e : exc_class).

Inductive call_result :=
  | Returned (value : gmap Z (list Z)) (stdout stderr : list message)
  | Raised (e : exc_class) (stdout : list message).

(** [all(len(v) >= keys_per_bucket for k, v in results.items()
         if k < num_buckets_to_fill)] *)
Definition all_full (num_buckets_to_fill keys_per_bucket : Z)
    (res : gmap Z (list Z)) : bool :=
  bool_decide (map_Forall (λ k v,
    k < num_buckets_to_fill → keys_per_bucket <= Z.of_nat (length v)) res).

Section generator.
Variable rehash : Z -> Z.
Variables log_size num_buckets_to_fill keys_per_bucket : Z.

(** [_DUMMY_DICT._rehash(i) >> (64 - log_size)] *)
Definition bucket_of (i : Z) : option Z :=
  py_rshift (rehash i) (64 - log_size).

(** The [if bucket < num_buckets_to_fill and len(results[bucket]) <
    keys_per_bucket] statement. [and] short-circuits, so [results[bucket]]
    is evaluated, and the default entry created, only for a targeted
    bucket. *)
Definition record_candidate (i bucket : Z) (s : search_state)
    : search_state :=
  if bucket <? num_buckets_to_fill then
    let cur := default [] (results s !! bucket) in
    if Z.of_nat (length cur) <? keys_per_bucket then
      {| results := <[bucket := cur ++ [i]]> (results s);
         filled_buckets := {[bucket]} ∪ filled_buckets s |}
    else
      {| results := <[bucket := cur]> (results s);
         filled_buckets := filled_buckets s |}
  else s.

(** [if len(filled_buckets) >= num_buckets_to_fill: ... if all_full: break] *)
Definition stop_condition (s : search_state) : bool :=
  (num_buckets_to_fill <=? Z.of_nat (size (filled_buckets s)))
  && all_full num_buckets_to_fill keys_per_bucket (results s).

Definition loop_body (i : Z) (s : search_state) : step_result :=
  match bucket_of i with
  | None => StepRaise ValueError
  | Some bucket =>
      let s' := record_candidate i bucket s in
      if stop_condition s' then Break s' else Continue s'
  end.

(** [n] candidates are left, the next one is [i]. *)
Fixpoint search (n : nat) (i : Z) (s : search_state) : loop_result :=
  match n with
  | O => Exhausted s
  | S n' =>
      match loop_body i s with
      | StepRaise e => LoopRaise e
      | Break s' => Broke i s'
      | Continue s' => search n' (i + 1) s'
      end
  end.

Definition search_upto (ceiling : Z) : loop_result :=
  search (Z.to_nat ceiling) 0 initial_state.

(** What holds of one entry of [results] once the candidates below [next]
    have been examined: the entry was created by a candidate [c] of that
    bucket, and its keys are candidates of that bucket, in increasing order,
    within the quota. *)
Definition entry_ok (next b : Z) (keys : list Z) : Prop :=
  b < num_buckets_to_fill ∧
  (∃ c, 0 <= c < next ∧ bucket_of c = Some b) ∧
  Z.of_nat (length keys) <= Z.max 0 keys_per_bucket ∧
  StronglySorted Z.lt keys ∧
  ∀ k, k ∈ keys → 0 <= k < next ∧ bucket_of k = Some b.

(** The loop invariant: every entry is [entry_ok], and [filled_buckets]
    holds exactly the buckets that received a key. *)
Definition search_inv (next : Z) (s : search_state) : Prop :=
  map_Forall (entry_ok next) (results s) ∧
  ∀ b, b ∈ filled_buckets s ↔
       ∃ keys, results s !! b = Some keys ∧ keys ≠ [].

(** Every targeted bucket, [0 <= b < num_buckets_to_fill], has reached the
    quota. *)
Definition targets_full (res : gmap Z (list Z)) : Prop :=
  ∀ b, 0 <= b < num_buckets_to_fill →
       ∃ keys, res !! b = Some keys ∧
               keys_per_bucket <= Z.of_nat (length keys).
End generator.

(** The body of [generate_colliding_keys], with the module-level
    [_DUMMY_DICT] passed explicitly ([None] when the subject could not be
    instantiated) and the bound of the [range] named. *)
Definition generate_with_ceiling (ceiling : Z)
    (_DUMMY_DICT : option AtomicDict)
    (log_size num_buckets_to_fill keys_per_bucket : Z) : call_result :=
  match _DUMMY_DICT with
  | None => Returned ∅ [] []
  | Some d =>
      match search_upto (_rehash d) log_size num_buckets_to_fill
              keys_per_bucket ceiling with
      | LoopRaise e => Raised e [Generating log_size]
      | Broke _ s => Returned (results s) [Generating log_size] []
      | Exhausted s =>
          Returned (results s) [Generating log_size]
                   [WarningExhausted log_size]
      end
  end.

Definition generate_colliding_keys : option AtomicDict → Z → Z → Z →
    call_result :=
  generate_with_ceiling SEARCH_CEILING.

(** Two module states hold the same hash below [ceiling]. *)
Definition same_subject_below (ceiling : Z)
    (dummy1 dummy2 : option AtomicDict) : Prop :=
  match dummy1, dummy2 with
  | None, None => True
  | Some d1, Some d2 => ∀ c, 0 <= c < ceiling → _rehash d1 c = _rehash d2 c
  | _, _ => False
  end.

(** The demonstration subject used by the examples: the top six bits of its
    hash are the low six bits of the key. *)
Definition demo_dict : AtomicDict :=
  {| _rehash := λ i, (i mod 64) * 2 ^ 58 |}.

(** A subject that agrees with [demo_dict] on the candidates only. *)
Definition demo_dict_clipped : AtomicDict :=
  {| _rehash := λ i, if i <? 2 ^ 24 then (i mod 64) * 2 ^ 58 else 0 |}.

(** A subject whose hash sends every key to the last of the 64 buckets. *)
Definition top_bucket_dict : AtomicDict :=
  {| _rehash := λ _, 2 ^ 64 - 1 |}.

End CollidingKeys.

(** * [tricky_atomicdict]: the [UnstableHash] adversarial object *)

Module AtomicDictInputs.

(** The state of [_unstable_hash_counter = itertools.count()]: the value the
    next call of [next] returns. *)
Definition counter := Z.

(** [next(_unstable_hash_counter)] *)
Definition next_count (c : counter) : Z * counter := (c, c + 1).

(** An instance: the one attribute [__init__] sets. *)
Record UnstableHash := { _initial_hash : Z }.

(** The objects an [UnstableHash] can be compared with. *)
Inductive py_value :=
  | VUnstable (o : UnstableHash)
  | VInt (n : Z)
  | VStr (s : string)
  | VNone.

(** [UnstableHash.__init__] *)
Definition UnstableHash_init (c : counter) : UnstableHash * counter :=
  let (v, c') := next_count c in ({| _initial_hash := v |}, c').

(** [UnstableHash.__hash__] *)
Definition UnstableHash_hash (self : UnstableHash) (c : counter)
    : Z * counter :=
  next_count c.

(** [UnstableHash.__eq__]: [isinstance(other, UnstableHash) and
    self._initial_hash == other._initial_hash]. It reads the two instances
    only; the counter is passed through untouched. *)
Definition UnstableHash_eq (self : UnstableHash) (other : py_value)
    (c : counter) : bool * counter :=
  match other with
  | VUnstable o => (_initial_hash self =? _initial_hash o, c)
  | _ => (false, c)
  end.

(** A run of [__hash__] calls, on the listed instances in order; the values
    returned and the counter left. *)
Fixpoint hash_calls (objs : list UnstableHash) (c : counter)
    : list Z * counter :=
  match objs with
  | [] => ([], c)
  | o :: rest =>
      let (h, c1) := UnstableHash_hash o c in
      let (hs, c2) := hash_calls rest c1 in
      (h :: hs, c2)
  end.

End AtomicDictInputs.

(** * [tricky_concurrency_hell]: the dogpile on an atomic counter *)

Module ConcurrencyHell.

(** The subject counter, as the scenario uses it: a constructor, the
    increment a worker calls (the result is dropped; the calling thread is
    passed so that an implementation may misbehave per thread), and the
    final read. Nothing is assumed of an implementation. *)
Class AtomicInt64 (cell : Type) := {
  new_cell : Z → cell;
  increment_and_get : nat → cell → cell;
  get : cell → Z
}.

(** The subject as documented: increments are atomic; at the top of the
    64-bit range the increment raises and leaves the value alone. *)
Definition INT64_MAX : Z := 2 ^ 63 - 1.

#[global] Instance atomic_cell : AtomicInt64 Z := {|
  new_cell := λ v, v;
  increment_and_get := λ _ v, if v <? INT64_MAX then v + 1 else v;
  get := λ v, v
|}.

(** A broken subject: read and write back are not atomic, so the increments
    of every thread but thread 0 are lost. *)
#[global] Instance lossy_cell : AtomicInt64 (Z * unit) := {|
  new_cell := λ v, (v, ());
  increment_and_get := λ tid s, match tid with O => (s.1 + 1, ()) | _ => s end;
  get := λ s, s.1
|}.

Inductive message :=
  | WarningWrongCount (expected actual : Z).

(** [ThreadSet.range(num_threads)(worker).start_and_join()]: the workers run
    in parallel; an execution is an interleaving of their calls, given by
    the thread that makes each successive call. *)
Definition run_schedule `{AtomicInt64 cell} (schedule : list nat) (c : cell)
    : cell :=
  foldl (λ st tid, increment_and_get tid st) c schedule.

(** Thread after thread, each making all its calls: thread [tid] of
    [range(num_threads)] makes [ops_per_thread] calls ([range] of a negative
    number is empty). *)
Definition sequential_schedule (num_threads ops_per_thread : Z) : list nat :=
  mjoin ((λ tid, replicate (Z.to_nat ops_per_thread) tid)
           <$> seq 0 (Z.to_nat num_threads)).

(** The calls of the workers, interleaved in any way. *)
Definition complete_schedule (num_threads ops_per_thread : Z)
    (schedule : list nat) : Prop :=
  schedule ≡ₚ sequential_schedule num_threads ops_per_thread.

(** [dogpile_on_atomicint]: the returned flag and what went to [stderr]. *)
Definition dogpile_on_atomicint `{AtomicInt64 cell} (schedule : list nat)
    (num_threads ops_per_thread : Z) : bool * list message :=
  let counter := new_cell 0 in
  let counter := run_schedule schedule counter in
  let expected := num_threads * ops_per_thread in
  let actual := get counter in
  let stderr :=
    if bool_decide (actual ≠ expected)
    then [WarningWrongCount expected actual] else [] in
  (true, stderr).

End ConcurrencyHell.

(** * The join plans of the stop-flag scenarios

    What the main thread of a scenario does with its workers: the sequence
    of [start], [sleep], [Event.set] and [join] calls, as written in
    [fast_iter_vs_mutation_race] ([tricky_concurrency_hell]),
    [race_condition_ref_vs_gc] ([tricky_recursive_cereggii]) and the three
    stop-flag races of [tricky_atomicref] and [tricky_threadhandle]. *)

Module JoinPlans.

(** Durations and clock readings, in milliseconds ([timeout=1.0] is 1000). *)
Definition millis := Z.

Inductive event := can_start | stop_hammering | stop_event.

Inductive action :=
  | Start (t : nat)
  | Sleep (d : millis)
  | SetEvent (e : event)
  | Join (t : nat) (timeout : option millis).

(** What the workers do is not the harness's to decide: [finish t] is the
    time at which thread [t] terminates, [None] when it never does (a worker
    stuck inside the subject). *)
Definition behaviour := nat → option millis.

(** Nor is it the harness's to decide when the main thread runs again
    after a step: [delay k] is the time it loses at the step after which [k]
    actions of the plan remain (the interpreter's own work, the wait for
    the processor and for the interpreter lock), [None] when it never runs
    again (a worker stuck in native code that keeps the interpreter lock). *)
Definition scheduling := nat → option millis.

(** The main thread gets through its plan, at some time and with the joins
    that ran into their timeout; or it blocks for ever; or a call of the
    plan raises. *)
Inductive run_result :=
  | Finished (clock : millis) (expired : list nat)
  | Blocked
  | Failed (e : exc_class).

(** The main thread goes on, late, when a step is over. *)
Definition resume (late : option millis) (goes_on : millis → run_result)
    (over : millis) : run_result :=
  match late with
  | Some l => goes_on (over + l)
  | None => Blocked
  end.

(** [time.sleep(d)] raises [ValueError] for a negative [d].
    [Thread.join(timeout)] is over when the thread has terminated or, with
    a timeout, when the timeout has elapsed, whichever comes first; a
    negative timeout counts as zero. *)
Fixpoint run_delayed (finish : behaviour) (delay : scheduling)
    (plan : list action) (clock : millis) (expired : list nat)
    : run_result :=
  match plan with
  | [] => Finished clock expired
  | a :: rest =>
      let late := delay (length rest) in
      match a with
      | Start _ | SetEvent _ =>
          resume late (λ c, run_delayed finish delay rest c expired) clock
      | Sleep d =>
          if d <? 0 then Failed ValueError
          else resume late (λ c, run_delayed finish delay rest c expired)
                 (clock + d)
      | Join t None =>
          match finish t with
          | Some f =>
              resume late (λ c, run_delayed finish delay rest c expired)
                (Z.max clock f)
          | None => Blocked
          end
      | Join t (Some timeout) =>
          let deadline := clock + Z.max 0 timeout in
          match finish t with
          | Some f =>
              if f <=? deadline
              then resume late
                     (λ c, run_delayed finish delay rest c expired)
                     (Z.max clock f)
              else resume late
                     (λ c, run_delayed finish delay rest c (expired ++ [t]))
                     deadline
          | None =>
              resume late
                (λ c, run_delayed finish delay rest c (expired ++ [t]))
                deadline
          end
      end
  end.

(** A main thread that loses no time. *)
Definition on_time : scheduling := λ _, Some 0.

(** The main thread is given the processor back after every step. *)
Definition scheduled (delay : scheduling) : Prop :=
  ∀ k, ∃ late, delay k = Some late ∧ 0 <= late.

(** The plan as run by a main thread that loses no time. *)
Definition run_plan (finish : behaviour) (plan : list action)
    (clock : millis) (expired : list nat) : run_result :=
  run_delayed finish on_time plan clock expired.

(** What the caller of a scenario sees. *)
Inductive scenario_result :=
  | Survived
  | Reraised (e : exc_class)
  | Hangs.

(** [fast_iter_vs_mutation_race]: the iterating threads are [0 ..
    num_iter_threads - 1], the chaos threads follow. Its joins carry no
    timeout, so that no deadline depends on the time the main thread loses:
    the scenario is given for a main thread that loses none. *)
Definition fast_iter_plan (num_iter_threads num_chaos_threads : Z)
    (duration : millis) : list action :=
  let all_threads :=
    seq 0 (Z.to_nat num_iter_threads)
    ++ seq (Z.to_nat num_iter_threads) (Z.to_nat num_chaos_threads) in
  (Start <$> all_threads)
  ++ [Sleep duration; SetEvent stop_event]
  ++ ((λ t, Join t None) <$> all_threads).

Definition fast_iter_vs_mutation_race (finish : behaviour)
    (num_iter_threads num_chaos_threads : Z) (duration : millis)
    : scenario_result :=
  match run_plan finish
          (fast_iter_plan num_iter_threads num_chaos_threads duration)
          0 [] with
  | Finished _ _ => Survived
  | Blocked => Hangs
  | Failed e => Reraised e
  end.

(** [race_condition_ref_vs_gc]: thread 0 is [h_thread], thread 1 is
    [g_thread]. *)
Definition h_thread : nat := 0.
Definition g_thread : nat := 1.

Definition race_plan : list action :=
  [Start h_thread; Start g_thread; SetEvent can_start;
   Join g_thread (Some 1000); Sleep 10; SetEvent stop_hammering;
   Join h_thread (Some 1000)].

(** [errors] is what the hammer thread appended before the main thread
    reads the list. *)
Definition race_condition_ref_vs_gc (finish : behaviour)
    (delay : scheduling) (errors : list exc_class) : scenario_result :=
  match run_delayed finish delay race_plan 0 [] with
  | Finished _ _ =>
      match errors with
      | e :: _ => Reraised e
      | [] => Survived
      end
  | Blocked => Hangs
  | Failed e => Reraised e
  end.

(** [high_frequency_cas_race], [mutable_vs_container_race] and
    [handle_vs_direct_ref_swap_race] share one plan. *)
Definition stop_flag_plan (num_threads : Z) (duration : millis)
    : list action :=
  let threads := seq 0 (Z.to_nat num_threads) in
  (Start <$> threads)
  ++ [Sleep duration; SetEvent stop_event]
  ++ ((λ t, Join t (Some 1000)) <$> threads).

Definition stop_flag_race (finish : behaviour) (delay : scheduling)
    (errors : list exc_class) (num_threads : Z) (duration : millis)
    : scenario_result :=
  match run_delayed finish delay (stop_flag_plan num_threads duration)
          0 [] with
  | Finished _ _ =>
      match errors with
      | _ :: _ => Reraised RuntimeError
      | [] => Survived
      end
  | Blocked => Hangs
  | Failed e => Reraised e
  end.

(** Every [join] of the plan carries a timeout of at most [bound]. *)
Definition joins_bounded (bound : millis) (plan : list action) : Prop :=
  Forall (λ a, match a with
               | Join _ timeout =>
                   ∃ d, timeout = Some d ∧ 0 <= d <= bound
               | _ => True
               end) plan.

(** The time the plan asks to wait: its sleeps and timeouts. *)
Fixpoint plan_budget (plan : list action) : option millis :=
  match plan with
  | [] => Some 0
  | Sleep d :: rest => (λ b, d + b) <$> plan_budget rest
  | Join _ (Some d) :: rest => (λ b, d + b) <$> plan_budget rest
  | Join _ None :: _ => None
  | _ :: rest => plan_budget rest
  end.

(** The time the main thread loses over the last [n] steps of a plan. *)
Fixpoint lost (delay : scheduling) (n : nat) : millis :=
  match n with
  | O => 0
  | S k => default 0 (delay k) + lost delay k
  end.

(** A main thread that loses a millisecond at every step. *)
Definition a_little_late : scheduling := λ _, Some 1.

(** A main thread that never runs again after the step that leaves [k]
    actions. *)
Definition lock_kept_at (k : nat) : scheduling :=
  λ i, if decide (i = k) then None else Some 0.

(** Workers that never terminate. *)
Definition stuck : behaviour := λ _, None.

(** Workers that terminate at once. *)
Definition prompt : behaviour := λ _, Some 0.

End JoinPlans.

(** * [tricky_weird_cereggii]: injected behaviours and the variant catalog *)

Module WeirdCereggii.

(** An exception instance: its class and its message. *)
Record exc := { exc_cls : exc_class; exc_msg : string }.

(** Objects live in a store and are referred to by address, so that a copy
    is a different object and two references to one object are aliases. *)
Definition loc := positive.

Inductive value :=
  | VNone
  | VBool (b : bool)
  | VInt (n : Z)
  | VStr (s : string)
  | VExc (e : exc)
  | VRef (l : loc).

Inductive object :=
  | OList (items : list value)
  | ODict (items : list (value * value))
  | OSet (items : list value)
  | OInstance (class_name : string).

Abbreviation heap := (gmap loc object).

(** [isinstance(o, (list, dict, set))] *)
Definition is_container (o : object) : bool :=
  match o with
  | OList _ | ODict _ | OSet _ => true
  | OInstance _ => false
  end.

(** A call either returns or raises, and leaves a store. *)
Inductive outcome (A : Type) :=
  | Ok (a : A)
  | Raise (e : exc).
Arguments Ok {A} a.
Arguments Raise {A} e.

Definition M (A : Type) : Type := heap → outcome A * heap.

#[global] Instance M_ret : MRet M := λ A a h, (Ok a, h).

#[global] Instance M_bind : MBind M := λ A B f m h,
  match m h with
  | (Ok a, h') => f a h'
  | (Raise e, h') => (Raise e, h')
  end.

Definition raise {A} (e : exc) : M A := λ h, (Raise e, h).

(** [try: body / except Exception as e: handler]: only an instance of
    [Exception] is handed to the handler, anything else goes on up. *)
Definition try_except_Exception {A} (body : M A) (handler : exc → M A)
    : M A := λ h,
  match body h with
  | (Ok a, h') => (Ok a, h')
  | (Raise e, h') =>
      if is_Exception (exc_cls e) then handler e h' else (Raise e, h')
  end.

(** [*args, **kwargs] *)
Record call_args := {
  positional : list value;
  keywords : list (string * value)
}.

(** A bound method of the base class: the subject's own code. *)
Definition method := call_args → M value.

(** What [getattr(super(self.__class__, self), method_name, None)] can
    find: nothing (the default [None]), an attribute that is not callable,
    or a bound method. *)
Inductive attribute :=
  | Missing
  | NotCallable (v : value)
  | Callable (m : method).

(** The injected behaviours share one signature:
    [behavior(method_name, self, *args, **kwargs)]. *)
Definition behavior := string → value → call_args → M value.

(** [c.__name__] for the exception classes. *)
Definition exc_class_name (c : exc_class) : string :=
  match c with
  | ValueError => "ValueError"
  | TypeError => "TypeError"
  | KeyError => "KeyError"
  | AttributeError => "AttributeError"
  | SystemError => "SystemError"
  | RuntimeError => "RuntimeError"
  | OverflowError => "OverflowError"
  | ReferenceError => "ReferenceError"
  | RecursionError => "RecursionError"
  | KeyboardInterrupt => "KeyboardInterrupt"
  | SystemExit => "SystemExit"
  | GeneratorExit => "GeneratorExit"
  end.

(** [self.__class__.__name__]; a reference always refers to an object, the
    last case is there for the type of the store only. *)
Definition class_name_of (h : heap) (self : value) : string :=
  match self with
  | VNone => "NoneType"
  | VBool _ => "bool"
  | VInt _ => "int"
  | VStr _ => "str"
  | VExc e => exc_class_name (exc_cls e)
  | VRef l =>
      match h !! l with
      | Some (OList _) => "list"
      | Some (ODict _) => "dict"
      | Some (OSet _) => "set"
      | Some (OInstance class_name) => class_name
      | None => "object"
      end
  end.

(** [make_raiser(exc, msg)] *)
Definition make_raiser (cls : exc_class) (msg : string) : behavior :=
  λ method_name self args h,
    (Raise {| exc_cls := cls;
              exc_msg := "Exception from weird subclass in '"
                         +:+ class_name_of h self +:+ "." +:+ method_name
                         +:+ "': " +:+ msg |}, h).

(** [isinstance(return_value, str) and return_value == "self"] *)
Definition is_self_marker (return_value : value) : bool :=
  match return_value with
  | VStr s => String.eqb s "self"
  | _ => false
  end.

(** [isinstance(return_value, (list, dict, set))]: the object referred to,
    when it is one of the three. *)
Definition container_at (h : heap) (return_value : value)
    : option object :=
  match return_value with
  | VRef l =>
      match h !! l with
      | Some o => if is_container o then Some o else None
      | None => None
      end
  | _ => None
  end.

(** [return_value.copy()]: a new object with the same elements. *)
Definition copy (o : object) : M value := λ h,
  let l' := fresh (dom h) in (Ok (VRef l'), <[l' := o]> h).

(** [make_wrong_typer(return_value)] *)
Definition make_wrong_typer (return_value : value) : behavior :=
  λ method_name self args h,
    if is_self_marker return_value then (Ok self, h)
    else match container_at h return_value with
         | Some o => copy o h
         | None => (Ok return_value, h)
         end.

(** [super_method(9999, "extra_arg", bogus_kwarg=True)] *)
Definition bogus_args : call_args :=
  {| positional := [VInt 9999; VStr "extra_arg"];
     keywords := [("bogus_kwarg", VBool true)] |}.

Section super_caller.
(** The lookup on the base class is the subject's and the interpreter's
    business; it is a parameter. *)
Variable getattr_super : string → value → M attribute.

(** [super_caller_abuse] *)
Definition super_caller_abuse : behavior :=
  λ method_name self args,
    try_except_Exception
      (super_method ← getattr_super method_name self;
       match super_method with
       | Callable m =>
           m args;;
           m args;;
           m bogus_args;;
           mret VNone
       | _ => mret VNone
       end)
      (λ e, mret (VExc e)).

(** What the handler of [super_caller_abuse] makes of an exception raised
    in its [try] suite. *)
Definition handled (e : exc) (h : heap) : outcome value * heap :=
  try_except_Exception (raise e) (λ e, mret (VExc e)) h.

(** [make_side_effect_mutator]: the module-level [FrameModifier] is the
    do-nothing class, so the behaviour only returns [None]. *)
Definition make_side_effect_mutator (var_name new_value : string)
    : behavior :=
  λ method_name self args, mret VNone.

(** [malicious_behaviors], in insertion order. *)
Definition malicious_behaviors (_HAS_DEPS : bool)
    : list (string * behavior) :=
  [("raise_ValueError", make_raiser ValueError "Fuzzer-induced exception");
   ("raise_TypeError", make_raiser TypeError "Fuzzer-induced exception");
   ("raise_AttributeError",
    make_raiser AttributeError "Fuzzer-induced exception");
   ("raise_SystemError",
    make_raiser SystemError "C-API level error simulation");
   ("return_None", make_wrong_typer VNone);
   ("return_string",
    make_wrong_typer (VStr "this is not the expected return type"));
   ("return_int", make_wrong_typer (VInt 12345));
   ("return_self", make_wrong_typer (VStr "self"));
   ("abuse_super", super_caller_abuse)]
  ++ (if _HAS_DEPS
      then [("side_effect_mutate_local",
             make_side_effect_mutator "local_var" "MODIFIED_BY_SIDE_EFFECT")]
      else []).
End super_caller.

(** The subject classes that are subclassed. *)
Inductive base_class := AtomicInt64 | CountDownLatch | ThreadHandle.

(** [base_class.__name__] *)
Definition base_name (b : base_class) : string :=
  match b with
  | AtomicInt64 => "AtomicInt64"
  | CountDownLatch => "CountDownLatch"
  | ThreadHandle => "ThreadHandle"
  end.

Definition TARGET_METHODS : list (base_class * list string) :=
  [(AtomicInt64,
    ["get"; "set"; "compare_and_set"; "__int__"; "__add__"; "__iadd__";
     "update_and_get"; "get_and_update"]);
   (CountDownLatch, ["wait"; "decrement"; "get"]);
   (ThreadHandle, ["__getattr__"; "__call__"; "__getitem__"; "__setitem__"])].

(** The class [create_weird_subclass] makes. *)
Record weird_class := {
  wc_name : string;
  wc_base : base_class;
  wc_method : string;
  wc_behavior : behavior
}.

(** [type(class_name, (base_class,), {...})]: whether a class can be made
    from the base is the subject's and the interpreter's business; the
    exception raised, if any. *)
Definition class_factory := string → base_class → string → option exc.

(** [create_weird_subclass]: the call of [type] either raises or gives the
    class. *)
Definition create_weird_subclass (new_type : class_factory)
    (base : base_class) (method_name : string) (behavior_func : behavior)
    (behavior_name : string) : outcome weird_class :=
  let class_name := "Weird_" +:+ base_name base +:+ "_Override_"
                    +:+ method_name +:+ "_" +:+ behavior_name in
  match new_type class_name base method_name with
  | Some e => Raise e
  | None =>
      Ok {| wc_name := class_name;
            wc_base := base;
            wc_method := method_name;
            wc_behavior := behavior_func |}
  end.

(** The arguments the loop passes to the constructor. *)
Definition constructor_args (base : base_class) : list value :=
  match base with
  | CountDownLatch => [VInt 1]
  | ThreadHandle => [VNone]
  | AtomicInt64 => []
  end.

Definition instance_name (wc : weird_class) : string :=
  "instance_of_" +:+ wc_name wc.

Inductive message :=
  | CouldNotInstantiate (class_name : string) (e : exc).

(** The three nested [for] loops, as the list of the combinations they go
    through, in order. *)
Definition combinations (behaviors : list (string * behavior))
    : list (base_class * string * (string * behavior)) :=
  '(base, methods) ← TARGET_METHODS;
  method_name ← methods;
  named_behavior ← behaviors;
  [(base, method_name, named_behavior)].

(** What the call of [create_weird_subclass] gives for each combination.
    The call is the first statement of the loop body and [type] keeps no
    state of the loop, so that the list tells what each pass meets. *)
Definition weird_classes (new_type : class_factory)
    (behaviors : list (string * behavior)) : list (outcome weird_class) :=
  (λ '(base, method_name, (behavior_name, behavior_func)),
     create_weird_subclass new_type base method_name behavior_func
       behavior_name) <$> combinations behaviors.

(** The classes that were made. *)
Definition created (classes : list (outcome weird_class))
    : list weird_class :=
  omap (λ r, match r with Ok wc => Some wc | Raise _ => None end) classes.

Definition is_created (r : outcome weird_class) : bool :=
  match r with Ok _ => true | Raise _ => false end.

(** How the loop ends: with the catalog built, or cut short by an exception
    that no handler of the loop catches. *)
Inductive build_result :=
  | Built (catalog : gmap string value) (stderr : list message)
  | Aborted (e : exc) (catalog : gmap string value) (stderr : list message).

Section generation.
(** Calling the class: the subject's constructor, a parameter. *)
Variable construct : weird_class → list value → outcome value.

(** One pass of the loop body per combination: the class is made, outside
    the [try]; then it is instantiated, and the instance recorded under its
    name, or the failure printed and the pass left by [continue]. *)
Fixpoint generate (classes : list (outcome weird_class))
    (catalog : gmap string value) (stderr : list message) : build_result :=
  match classes with
  | [] => Built catalog stderr
  | Raise e :: _ => Aborted e catalog stderr
  | Ok wc :: rest =>
      match construct wc (constructor_args (wc_base wc)) with
      | Ok instance =>
          generate rest (<[instance_name wc := instance]> catalog) stderr
      | Raise e =>
          if is_Exception (exc_cls e)
          then generate rest catalog
                 (stderr ++ [CouldNotInstantiate (wc_name wc) e])
          else Aborted e catalog stderr
      end
  end.

(** The named instances of the classes whose instantiation succeeded, and
    the warnings of the others, in loop order. *)
Definition successes (classes : list weird_class) : list (string * value) :=
  omap (λ wc, match construct wc (constructor_args (wc_base wc)) with
              | Ok instance => Some (instance_name wc, instance)
              | Raise _ => None
              end) classes.

Definition failures (classes : list weird_class) : list message :=
  omap (λ wc, match construct wc (constructor_args (wc_base wc)) with
              | Ok _ => None
              | Raise e => Some (CouldNotInstantiate (wc_name wc) e)
              end) classes.

(** Every failure to instantiate raises an instance of [Exception]. *)
Definition failures_are_Exceptions (classes : list weird_class) : Prop :=
  ∀ wc e, wc ∈ classes →
          construct wc (constructor_args (wc_base wc)) = Raise e →
          is_Exception (exc_cls e) = true.
End generation.

(** [tricky_weird_cereggii_objects] after the main generation loop. *)
Definition tricky_weird_cereggii_objects (new_type : class_factory)
    (getattr_super : string → value → M attribute) (_HAS_DEPS : bool)
    (construct : weird_class → list value → outcome value) : build_result :=
  generate construct
    (weird_classes new_type (malicious_behaviors getattr_super _HAS_DEPS))
    ∅ [].

(** ** Helpers for the examples *)

Definition no_args : call_args := {| positional := []; keywords := [] |}.

Definition keyboard_interrupt : exc :=
  {| exc_cls := KeyboardInterrupt; exc_msg := "" |}.

Definition type_error : exc :=
  {| exc_cls := TypeError; exc_msg := "takes no keyword arguments" |}.

(** A subject whose three classes can all be subclassed. *)
Definition any_base : class_factory := λ _ _ _, None.

Definition not_acceptable_base : exc :=
  {| exc_cls := TypeError;
     exc_msg := "type 'CountDownLatch' is not an acceptable base type" |}.

(** A subject whose latch class cannot be subclassed. *)
Definition final_latch : class_factory :=
  λ _ base _, match base with
              | CountDownLatch => Some not_acceptable_base
              | _ => None
              end.

(** A base-class lookup that finds a method which is interrupted. *)
Definition interrupted_super : string → value → M attribute :=
  λ _ _, mret (Callable (λ _, raise keyboard_interrupt)).

(** A base-class lookup that finds a method which accepts the caller's
    arguments, counts its calls in a list at address 1, and rejects the
    bogus arguments. *)
Definition strict_super : string → value → M attribute :=
  λ _ _, mret (Callable (λ args h,
    match keywords args with
    | [] => (Ok VNone,
             match h !! 1%positive with
             | Some (OList items) =>
                 <[1%positive := OList (items ++ [VInt 1])]> h
             | _ => h
             end)
    | _ :: _ => (Raise type_error, h)
    end)).

(** A constructor that succeeds, giving every class one and the same
    instance object. *)
Definition construct_all : weird_class → list value → outcome value :=
  λ _ _, Ok (VRef 1%positive).

(** A constructor that rejects the latch subclasses with a [TypeError]. *)
Definition construct_no_latch : weird_class → list value → outcome value :=
  λ wc _, match wc_base wc with
          | CountDownLatch => Raise type_error
          | _ => Ok (VRef 1%positive)
          end.

(** A constructor that is interrupted on the latch subclasses. *)
Definition construct_interrupted
    : weird_class → list value → outcome value :=
  λ wc _, match wc_base wc with
          | CountDownLatch => Raise keyboard_interrupt
          | _ => Ok (VRef 1%positive)
          end.

(** A list holding a list: the configured value of the nested example. *)
Definition nested_heap : heap :=
  <[2%positive := OList [VRef 1%positive]]>
    (<[1%positive := OList [VInt 1]]> ∅).

(** [list.append] through a reference. *)
Definition list_append (l : loc) (v : value) (h : heap) : heap :=
  match h !! l with
  | Some (OList items) => <[l := OList (items ++ [v])]> h
  | _ => h
  end.

(** [lst[i]] through a reference. *)
Definition list_getitem (l : loc) (i : nat) (h : heap) : option value :=
  match h !! l with
  | Some (OList items) => items !! i
  | _ => None
  end.

(** What a value looks like from outside, references followed ([==] on
    lists compares these). *)
Inductive tree :=
  | TAtom (v : value)
  | TList (items : list tree)
  | TOther (o : object)
  | TDangling.

Fixpoint reify (fuel : nat) (h : heap) (v : value) : tree :=
  match v with
  | VRef l =>
      match fuel, h !! l with
      | S fuel', Some (OList items) => TList (reify fuel' h <$> items)
      | _, Some o => TOther o
      | _, None => TDangling
      end
  | _ => TAtom v
  end.

End WeirdCereggii.

(** * [tricky_stateful_scenarios]: [scenario_random_ops] *)

Module StatefulScenarios.

(** The keys and values [random.choice] draws from the tricky pools: a key
    is hashable or not; what else is tricky about them is left to the
    mapping implementations. *)
Inductive key :=
  | KInt (n : Z)
  | KUnhashable (n : Z).

Definition val := Z.

#[global] Instance key_eq_dec : EqDecision key.
Proof. solve_decision. Defined.

(** A mapping as the scenario uses it: item assignment, item access (the
    value read is dropped), item deletion, each of which either completes or
    raises and leaves a state, and the length. *)
Class Mapping (D : Type) := {
  m_setitem : key → val → D → option exc_class * D;
  m_getitem : key → D → option exc_class * D;
  m_delitem : key → D → option exc_class * D;
  m_len : D → Z
}.

(** One draw of the random sequence: [op], [key] and, for ["setitem"],
    [value]. *)
Inductive op :=
  | setitem (k : key) (v : val)
  | getitem (k : key)
  | delitem (k : key)
  | len.

(** The statement the [try] suite runs on one of the two structures. *)
Definition apply_op `{Mapping D} (o : op) (d : D) : option exc_class * D :=
  match o with
  | setitem k v => m_setitem k v d
  | getitem k => m_getitem k d
  | delitem k => m_delitem k d
  | len => (None, d)
  end.

Inductive message :=
  | ErrorModelDidNotRaise (e : exc_class)
  | ErrorMismatchedTypes (e model_e : exc_class)
  | FatalLengthMismatch (step : nat) (o : op) (len_d len_model : Z).

(** How the [try ... except (KeyError, TypeError)] statement of one step
    ends: the loop goes on to the length check, or an exception leaves the
    scenario. *)
Inductive step_result (D M : Type) :=
  | StepDone (d : D) (model : M) (stderr : list message)
  | StepEscapes (e : exc_class).
Arguments StepDone {D M} d model stderr.
Arguments StepEscapes {D M} e.

Section scenario.
Context `{Mapping D} `{Mapping M}.

(** [except (KeyError, TypeError) as e] *)
Definition caught (e : exc_class) : bool :=
  bool_decide (e = KeyError ∨ e = TypeError).

(** The handler: the model is asked again, for ["getitem"] and ["delitem"];
    if nothing raises the ERROR line is printed; an [Exception] raised by
    the model is compared by type with the one caught. *)
Definition handler (e : exc_class) (o : op) (d : D) (model : M)
    : step_result D M :=
  let retry :=
    match o with
    | getitem _ | delitem _ => apply_op o model
    | _ => (None, model)
    end in
  match retry with
  | (None, model') => StepDone d model' [ErrorModelDidNotRaise e]
  | (Some model_e, model') =>
      if is_Exception model_e then
        StepDone d model'
          (if bool_decide (e ≠ model_e)
           then [ErrorMismatchedTypes e model_e] else [])
      else StepEscapes model_e
  end.

(** The [try] statement: the operation on the subject, then on the model. *)
Definition try_step (o : op) (d : D) (model : M) : step_result D M :=
  match apply_op o d with
  | (Some e, d') =>
      if caught e then handler e o d' model else StepEscapes e
  | (None, d') =>
      match apply_op o model with
      | (Some e, model') =>
          if caught e then handler e o d' model' else StepEscapes e
      | (None, model') => StepDone d' model' []
      end
  end.

(** What the caller sees: the returned flag or the exception, with the two
    structures and the lines printed. *)
Inductive scenario_result :=
  | Returns (b : bool) (d : D) (model : M) (stderr : list message)
  | Propagates (e : exc_class).

(** The [for step in range(num_steps)] loop over the draws. *)
Fixpoint run_steps (ops : list op) (step : nat) (d : D) (model : M)
    (stderr : list message) : scenario_result :=
  match ops with
  | [] => Returns true d model stderr
  | o :: rest =>
      match try_step o d model with
      | StepEscapes e => Propagates e
      | StepDone d' model' printed =>
          if bool_decide (m_len d' ≠ m_len model') then
            Returns false d' model'
              (stderr ++ printed
               ++ [FatalLengthMismatch step o (m_len d') (m_len model')])
          else run_steps rest (S step) d' model' (stderr ++ printed)
      end
  end.

Definition scenario_random_ops (new_d : D) (new_model : M) (ops : list op)
    : scenario_result :=
  run_steps ops 0 new_d new_model [].

(** The steps of [ops] all end in a length check that passes; the two
    structures they leave. *)
Fixpoint consistent_run (ops : list op) (d : D) (model : M)
    : option (D * M) :=
  match ops with
  | [] => Some (d, model)
  | o :: rest =>
      match try_step o d model with
      | StepDone d' model' _ =>
          if bool_decide (m_len d' = m_len model')
          then consistent_run rest d' model' else None
      | StepEscapes _ => None
      end
  end.
End scenario.

(** ** Implementations for the examples *)

(** The standard [dict], on the keys above. *)
#[global] Instance py_dict : Mapping (gmap Z val) := {|
  m_setitem := λ k v m,
    match k with
    | KInt n => (None, <[n := v]> m)
    | KUnhashable _ => (Some TypeError, m)
    end;
  m_getitem := λ k m,
    match k with
    | KInt n => (if bool_decide (is_Some (m !! n)) then None else Some KeyError, m)
    | KUnhashable _ => (Some TypeError, m)
    end;
  m_delitem := λ k m,
    match k with
    | KInt n =>
        if bool_decide (is_Some (m !! n)) then (None, delete n m)
        else (Some KeyError, m)
    | KUnhashable _ => (Some TypeError, m)
    end;
  m_len := λ m, Z.of_nat (size m)
|}.

(** A subject that behaves like the [dict], except that a deletion reports
    success and removes nothing. *)
Record leaky_dict := { leaky_items : gmap Z val }.

#[global] Instance leaky_mapping : Mapping leaky_dict := {|
  m_setitem := λ k v m,
    match k with
    | KInt n => (None, {| leaky_items := <[n := v]> (leaky_items m) |})
    | KUnhashable _ => (Some TypeError, m)
    end;
  m_getitem := λ k m,
    match k with
    | KInt n =>
        (if bool_decide (is_Some (leaky_items m !! n)) then None
         else Some KeyError, m)
    | KUnhashable _ => (Some TypeError, m)
    end;
  m_delitem := λ k m,
    match k with
    | KInt n =>
        (if bool_decide (is_Some (leaky_items m !! n)) then None
         else Some KeyError, m)
    | KUnhashable _ => (Some TypeError, m)
    end;
  m_len := λ m, Z.of_nat (size (leaky_items m))
|}.

End StatefulScenarios.

(** * [tricky_colliding_keys]: the module-level collection and its report *)

Module CollidingKeysReport.
Import CollidingKeys.

(** [buckets_found = len(sets)] *)
Definition buckets_found (sets : gmap Z (list Z)) : nat := size sets.

(** [total_keys = sum(len(keys) for keys in sets.values())] *)
Definition total_keys (sets : gmap Z (list Z)) : nat :=
  map_fold (λ _ keys acc, (length keys + acc)%nat) 0%nat sets.

(** The candidates of bucket [b] examined so far are all accounted for: each
    is in the list of its bucket, or that list was already full when the
    candidate came (full of smaller keys). *)
Definition first_keys (rehash : Z → Z) (log_size num_buckets_to_fill
    keys_per_bucket next : Z) (res : gmap Z (list Z)) : Prop :=
  ∀ c b, 0 <= c < next → bucket_of rehash log_size c = Some b →
         b < num_buckets_to_fill →
    ∃ keys, res !! b = Some keys ∧
            (c ∈ keys ∨
             (keys_per_bucket <= Z.of_nat (length keys) ∧
              ∀ k, k ∈ keys → k < c)).

End CollidingKeysReport.

(** * [tricky_atomicdict]: the shared counter and the key catalog *)

Module AtomicDictCatalog.
Import AtomicDictInputs.

(** [ExceptionRaiser]: the attributes [__init__] sets; [_id] is drawn from
    the counter [UnstableHash] uses. *)
Record ExceptionRaiser := {
  exc_type : exc_class;
  msg : string;
  _id : Z
}.

(** [ExceptionRaiser.__init__] *)
Definition ExceptionRaiser_init (exc_type : exc_class) (msg : string)
    (c : counter) : ExceptionRaiser * counter :=
  let (v, c') := next_count c in
  ({| exc_type := exc_type; msg := msg; _id := v |}, c').

(** The operations of the module that draw from the counter. *)
Inductive counter_op :=
  | NewUnstableHash
  | NewExceptionRaiser (exc_type : exc_class) (msg : string)
  | CallHash (o : UnstableHash).

(** What an operation gives back. *)
Inductive drawn :=
  | Created (o : UnstableHash)
  | CreatedRaiser (r : ExceptionRaiser)
  | Hashed (h : Z).

(** The counter value an operation drew. *)
Definition draw_of (d : drawn) : Z :=
  match d with
  | Created o => _initial_hash o
  | CreatedRaiser r => _id r
  | Hashed h => h
  end.

Definition run_op (o : counter_op) (c : counter) : drawn * counter :=
  match o with
  | NewUnstableHash =>
      let (u, c') := UnstableHash_init c in (Created u, c')
  | NewExceptionRaiser exc_type msg =>
      let (r, c') := ExceptionRaiser_init exc_type msg c in
      (CreatedRaiser r, c')
  | CallHash u =>
      let (h, c') := UnstableHash_hash u c in (Hashed h, c')
  end.

Fixpoint run_ops (ops : list counter_op) (c : counter)
    : list drawn * counter :=
  match ops with
  | [] => ([], c)
  | o :: rest =>
      let (d, c1) := run_op o c in
      let (ds, c2) := run_ops rest c1 in
      (d :: ds, c2)
  end.

(** The values [EqReturnsWrongType] is built with. *)
Inductive ret_val :=
  | RNone
  | RInt (n : Z)
  | RStr (s : string)
  | RTuple (items : list Z)
  | RInstance (class_name : string).

(** [type(ret_val).__name__] *)
Definition type_name (v : ret_val) : string :=
  match v with
  | RNone => "NoneType"
  | RInt _ => "int"
  | RStr _ => "str"
  | RTuple _ => "tuple"
  | RInstance class_name => class_name
  end.

Record EqReturnsWrongType := { return_value : ret_val }.

(** [EqReturnsWrongType.__eq__] *)
Definition EqReturnsWrongType_eq (self : EqReturnsWrongType)
    (other : py_value) : ret_val :=
  return_value self.

(** [for ret_val in [...]:
       tricky_hashable_keys[f"eq_returns_{type(ret_val).__name__}"] =
         EqReturnsWrongType(ret_val)] *)
Definition eq_returns_name (v : ret_val) : string :=
  "eq_returns_" +:+ type_name v.

Definition add_eq_returns (ret_vals : list ret_val)
    (keys : gmap string EqReturnsWrongType) : gmap string EqReturnsWrongType :=
  foldl (λ keys v, <[eq_returns_name v := {| return_value := v |}]> keys)
    keys ret_vals.

(** The list the module loops over. *)
Definition module_ret_vals : list ret_val :=
  [RNone; RInt 0; RInt 1; RStr "not a boolean"; RTuple [1; 2];
   RInstance "AlwaysUnequalConstantHash"].

End AtomicDictCatalog.

(** * [tricky_concurrency_hell]: the scenarios on a shared dictionary *)

Module ConcurrencyHellDict.
Import ConcurrencyHell StatefulScenarios.

Inductive message :=
  | WarningWrongKeyCount (expected : Z) (actual : option Z)
  | WarningWrongLength (expected_len actual_len : Z).

(** ** [dogpile_on_atomicdict_key] *)

(** The subject dictionary as this scenario uses it: [reduce_sum] with one
    [(key, value)] pair, called by a thread, and [get], which gives [None]
    for a key that is not there. *)
Class ReducibleDict (D : Type) := {
  new_dict : D;
  reduce_sum : nat → string → Z → D → D;
  dict_get : string → D → option Z
}.

(** The subject as documented: the value is added to the one stored under
    the key, or stored when the key is new. *)
#[global] Instance sum_dict : ReducibleDict (gmap string Z) := {|
  new_dict := ∅;
  reduce_sum := λ _ k v d,
    match d !! k with
    | Some old => <[k := old + v]> d
    | None => <[k := v]> d
    end;
  dict_get := λ k d, d !! k
|}.

Definition THE_KEY : string := "the_one_key".

(** [dogpile_on_atomicdict_key]; [actual != expected] compares what [get]
    gave, possibly [None], with the integer expected. *)
Definition dogpile_on_atomicdict_key `{ReducibleDict D}
    (schedule : list nat) (num_threads ops_per_thread : Z)
    : bool * list message :=
  let d := foldl (λ st tid, reduce_sum tid THE_KEY 1 st) new_dict schedule in
  let expected := num_threads * ops_per_thread in
  let actual := dict_get THE_KEY d in
  let stderr :=
    if bool_decide (actual ≠ Some expected)
    then [WarningWrongKeyCount expected actual] else [] in
  (true, stderr).

(** ** [migration_storm] *)

(** [range(start_key, end_key)] of the worker of [thread_id]. *)
Definition worker_keys (keys_per_thread : Z) (thread_id : nat) : list Z :=
  seqZ (Z.of_nat thread_id * keys_per_thread) keys_per_thread.

(** The shared dictionary, and for each worker the keys it has still to
    insert. *)
Record storm_state (D : Type) := {
  storm_dict : D;
  pending : list (list Z)
}.
Arguments storm_dict {D} s.
Arguments pending {D} s.

Section storm.
Context `{Mapping D}.

(** The workers [ThreadSet.range(num_threads)] makes. *)
Definition storm_start (new_d : D) (num_threads keys_per_thread : Z)
    : storm_state D :=
  {| storm_dict := new_d;
     pending := worker_keys keys_per_thread <$> seq 0 (Z.to_nat num_threads) |}.

(** Thread [tid] runs its next [d[i] = thread_id]; an exception ends the
    worker. A worker that has finished has nothing to run. *)
Definition storm_step (st : storm_state D) (tid : nat) : storm_state D :=
  match pending st !! tid with
  | Some (i :: rest) =>
      match m_setitem (KInt i) (Z.of_nat tid) (storm_dict st) with
      | (None, d') =>
          {| storm_dict := d'; pending := <[tid := rest]> (pending st) |}
      | (Some _, d') =>
          {| storm_dict := d'; pending := <[tid := []]> (pending st) |}
      end
  | _ => st
  end.

(** [start_and_join] returns when every worker has finished. *)
Definition all_joined (st : storm_state D) : Prop :=
  Forall (λ w, w = []) (pending st).

(** [migration_storm], for the interleaving [schedule] of the workers'
    steps: what is returned and printed once the workers are joined. *)
Definition migration_storm (new_d : D) (schedule : list nat)
    (num_threads keys_per_thread : Z) : bool * list message :=
  let st := foldl storm_step
              (storm_start new_d num_threads keys_per_thread) schedule in
  let expected_len := num_threads * keys_per_thread in
  let actual_len := m_len (storm_dict st) in
  let stderr :=
    if bool_decide (actual_len ≠ expected_len)
    then [WarningWrongLength expected_len actual_len] else [] in
  (true, stderr).

Definition storm_final (new_d : D) (schedule : list nat)
    (num_threads keys_per_thread : Z) : storm_state D :=
  foldl storm_step (storm_start new_d num_threads keys_per_thread) schedule.
End storm.

(** Every key of the storm is in the dictionary or still pending. *)
Definition storm_inv (all_keys : gset Z) (st : storm_state (gmap Z val))
    : Prop :=
  ∀ x, x ∈ all_keys ↔
       (is_Some (storm_dict st !! x) ∨
        ∃ tid w, pending st !! tid = Some w ∧ x ∈ w).

End ConcurrencyHellDict.

(** * [tricky_stateful_scenarios]: the scripted scenarios *)

Module StatefulScripted.
Import StatefulScenarios.

(** Item access that keeps the value read, as
    [scenario_hammer_colliding_bucket] needs it. *)
Class Lookup (D : Type) := {
  m_lookup : key → D → (exc_class + val) * D
}.

#[global] Instance py_dict_lookup : Lookup (gmap Z val) := {|
  m_lookup := λ k m,
    match k with
    | KInt n =>
        match m !! n with
        | Some v => (inr v, m)
        | None => (inl KeyError, m)
        end
    | KUnhashable _ => (inl TypeError, m)
    end
|}.

#[global] Instance leaky_lookup : Lookup leaky_dict := {|
  m_lookup := λ k m,
    match k with
    | KInt n =>
        match leaky_items m !! n with
        | Some v => (inr v, m)
        | None => (inl KeyError, m)
        end
    | KUnhashable _ => (inl TypeError, m)
    end
|}.

Inductive message :=
  | WarningFinalLength (expected actual : Z)
  | SkippingModuleNotFound
  | SkippingNoKeys
  | ErrorFoundDeleted (key : Z)
  | ErrorValueMismatch (key : Z)
  | ErrorNotFound (key : Z).

(** What the caller sees: the flag returned, the dictionary the scenario
    made (none when the scenario was skipped) and the lines printed; or the
    exception of a statement that no handler guards. *)
Inductive scripted_result (D : Type) :=
  | Returns (b : bool) (d : option D) (stderr : list message)
  | Propagates (e : exc_class).
Arguments Returns {D} b d stderr.
Arguments Propagates {D} e.

(** A [for] loop over [l] whose body is one statement on the dictionary;
    an exception leaves the loop. *)
Fixpoint for_each {D} (body : Z → D → option exc_class * D) (l : list Z)
    (d : D) : option exc_class * D :=
  match l with
  | [] => (None, d)
  | i :: rest =>
      match body i d with
      | (None, d') => for_each body rest d'
      | (Some e, d') => (Some e, d')
      end
  end.

(** ** [scenario_grow_shrink_and_reuse] *)

Definition scenario_grow_shrink_and_reuse `{Mapping D} (new_d : D)
    (num_items : Z) : scripted_result D :=
  let range := seqZ 0 num_items in
  match for_each (λ i, m_setitem (KInt i) i) range new_d with
  | (Some e, _) => Propagates e
  | (None, grown) =>
      match for_each (λ i, m_delitem (KInt i)) range grown with
      | (Some e, _) => Propagates e
      | (None, shrunk) =>
          match for_each (λ i, m_setitem (KInt (i + num_items)) i)
                  range shrunk with
          | (Some e, _) => Propagates e
          | (None, d) =>
              let final_len := m_len d in
              Returns true (Some d)
                (if bool_decide (final_len ≠ num_items)
                 then [WarningFinalLength num_items final_len] else [])
          end
      end
  end.

(** ** [scenario_hammer_colliding_bucket] *)

(** The objects a module binds, as far as the scenario tells them apart:
    the dictionary of key sets of [tricky_colliding_keys], or an object
    that has no [get] (a module, a function). *)
Inductive py_object :=
  | KeySets (sets : gmap string (gmap Z (list Z)))
  | NoGet.

(** A module object: the names it binds. *)
Definition module_object := gmap string py_object.

(** The package [fusil_cereggii_plugin]: its [__init__.py] binds
    [pathlib], [sys], [choice] and [register]; importing a sample module
    binds [samples]. The attributes every module has are left out, none of
    them is named [colliding_key_sets]. *)
Definition fusil_cereggii_plugin : module_object :=
  list_to_map ((λ name, (name, NoGet))
                 <$> ["pathlib"; "sys"; "choice"; "register"; "samples"]).

(** What [populate_modules] leaves in [_MODULES] for a name of
    [_CEREGGII_MODULE_NAMES]: [__import__(prefix + name)], which for a
    dotted name is the top-level package; nothing when the import raises
    [ImportError]. *)
Definition populate_modules_entry (imported : bool) : option module_object :=
  if imported then Some fusil_cereggii_plugin else None.

Section hammer.
Context `{Mapping D} `{Lookup D}.

(** The verification loop: [try: val = d[key] ... except KeyError: ...]. *)
Fixpoint verify (keys : list Z) (deleted_set : gset Z) (d : D)
    (stderr : list message) : scripted_result D :=
  match keys with
  | [] => Returns true (Some d) stderr
  | key :: rest =>
      match m_lookup (KInt key) d with
      | (inr val, d') =>
          verify rest deleted_set d'
            (stderr ++
             if bool_decide (key ∈ deleted_set) then [ErrorFoundDeleted key]
             else if bool_decide (val ≠ key) then [ErrorValueMismatch key]
             else [])
      | (inl e, d') =>
          if bool_decide (e = KeyError) then
            verify rest deleted_set d'
              (stderr ++
               if bool_decide (key ∉ deleted_set) then [ErrorNotFound key]
               else [])
          else Propagates e
      end
  end.

(** The hammering, from [d = cereggii.AtomicDict()] on: insert the keys,
    delete those drawn, verify. [random_sample l k] is what
    [random.sample(l, k=k)] returns in this run. *)
Definition hammer (new_d : D) (keys_to_hammer : list Z)
    (random_sample : list Z → nat → list Z) : scripted_result D :=
  match for_each (λ key, m_setitem (KInt key) key) keys_to_hammer new_d with
  | (Some e, _) => Propagates e
  | (None, d) =>
      let keys_to_delete :=
        random_sample keys_to_hammer (length keys_to_hammer `div` 2)%nat in
      let deleted_set : gset Z := list_to_set keys_to_delete in
      match for_each (λ key, m_delitem (KInt key)) keys_to_delete d with
      | (Some e, _) => Propagates e
      | (None, d') => verify keys_to_hammer deleted_set d' []
      end
  end.

(** [colliding_keys_mod] is [_MODULES.get("tricky_colliding_keys")]. *)
Definition scenario_hammer_colliding_bucket (new_d : D)
    (colliding_keys_mod : option module_object)
    (random_sample : list Z → nat → list Z) : scripted_result D :=
  match colliding_keys_mod with
  | None => Returns false None [SkippingModuleNotFound]
  | Some module =>
      match module !! "colliding_key_sets" with
      | None | Some NoGet => Propagates AttributeError
      | Some (KeySets sets) =>
          match sets !! "log_size_6" with
          | None => Returns false None [SkippingNoKeys]
          | Some key_set =>
              match key_set !! 0 with
              | None | Some [] => Returns false None [SkippingNoKeys]
              | Some keys_to_hammer =>
                  hammer new_d keys_to_hammer random_sample
              end
          end
      end
  end.
End hammer.

End StatefulScripted.

(** * [scenario_random_ops] on a subject that is a [dict] *)

Module StatefulReplay.
Import StatefulScenarios.

(** The dictionary after the operations of [ops], those that raise left
    out. *)
Definition replay (ops : list op) (m : gmap Z val) : gmap Z val :=
  foldl (λ m o, (apply_op o m).2) m ops.

(** One line for each assignment under a key that cannot be hashed. *)
Definition unhashable_assignments (ops : list op) : list message :=
  omap (λ o, match o with
             | setitem (KUnhashable _) _ =>
                 Some (ErrorModelDidNotRaise TypeError)
             | _ => None
             end) ops.

End StatefulReplay.

From stdpp Require Import pretty.

Open Scope Z_scope.

(** * [tricky_colliding_keys]: the module-level collection *)

Module CollidingKeysModule.
Import CollidingKeys.

Definition LOG_SIZES_TO_GENERATE : list Z := [6; 7; 8; 10].

(** [f"log_size_{log_size}"] *)
Definition size_label (log_size : Z) : string :=
  "log_size_" +:+ pretty log_size.

(** The loop over the sizes: each call is made with the default
    [num_buckets_to_fill=16] and [keys_per_bucket=32] by the caller below;
    a call that raises ends the loop, and the import of the module. *)
Fixpoint collect (generate : Z → call_result) (sizes : list Z)
    (acc : gmap string (gmap Z (list Z)))
    : exc_class + gmap string (gmap Z (list Z)) :=
  match sizes with
  | [] => inr acc
  | log_size :: rest =>
      match generate log_size with
      | Returned m _ _ =>
          collect generate rest (<[size_label log_size := m]> acc)
      | Raised e _ => inl e
      end
  end.

Definition colliding_key_sets_with_ceiling (ceiling : Z)
    (_DUMMY_DICT : option AtomicDict)
    : exc_class + gmap string (gmap Z (list Z)) :=
  collect
    (λ log_size, generate_with_ceiling ceiling _DUMMY_DICT log_size 16 32)
    LOG_SIZES_TO_GENERATE ∅.

(** [colliding_key_sets] as the module leaves it. *)
Definition colliding_key_sets (_DUMMY_DICT : option AtomicDict)
    : exc_class + gmap string (gmap Z (list Z)) :=
  colliding_key_sets_with_ceiling SEARCH_CEILING _DUMMY_DICT.

End CollidingKeysModule.

(** * [tricky_weird_cereggii]: the attack on [cereggii.Constant] *)

Module WeirdConstant.
Import WeirdCereggii.

(** What the subject answers to the statements of the [try] suite:
    [type(cereggii.NOT_FOUND)], the creation of a subclass of that type
    overriding a method with a behaviour, and a call of the type itself
    ([None]) or of such a subclass with one argument. *)
Record constant_world := {
  constant_type : outcome unit;
  subclass : string → string → outcome unit;
  instantiate : option (string * string) → value → outcome value
}.

(** A statement of the suite evaluates something, or stores what it
    evaluates in the catalog. *)
Inductive statement :=
  | Evaluate (r : outcome unit)
  | Assign (name : string) (r : outcome value).

Definition constant_attack_suite (w : constant_world) : list statement :=
  [Evaluate (constant_type w);
   Evaluate (subclass w "__repr__" "raise_ValueError");
   Assign "weird_constant_subclass_instance"
     (instantiate w (Some ("__repr__", "raise_ValueError"))
        (VStr "weird_sub"));
   Evaluate (subclass w "__eq__" "return_True");
   Assign "weird_constant_eq_subclass_instance"
     (instantiate w (Some ("__eq__", "return_True")) (VStr "weird_eq_sub"));
   Assign "rogue_constant_1" (instantiate w None (VStr "rogue_one"));
   Assign "rogue_constant_2" (instantiate w None (VStr "rogue_two"))].

(** The names the statements of a suite store under, in order. *)
Definition assigned (stmts : list statement) : list string :=
  omap (λ s, match s with
             | Assign name _ => Some name
             | Evaluate _ => None
             end) stmts.

(** The suite runs until a statement raises. *)
Fixpoint try_suite (stmts : list statement) (catalog : gmap string value)
    : option exc * gmap string value :=
  match stmts with
  | [] => (None, catalog)
  | Evaluate (Ok _) :: rest => try_suite rest catalog
  | Assign name (Ok instance) :: rest =>
      try_suite rest (<[name := instance]> catalog)
  | Evaluate (Raise e) :: _ | Assign _ (Raise e) :: _ => (Some e, catalog)
  end.

(** The attack ends with the catalog and, when an [Exception] was caught,
    the line printed for it; or the exception goes on up. *)
Inductive attack_result :=
  | AttackDone (catalog : gmap string value) (printed : option exc)
  | AttackAborted (e : exc) (catalog : gmap string value).

Definition constant_attack (w : constant_world)
    (catalog : gmap string value) : attack_result :=
  match try_suite (constant_attack_suite w) catalog with
  | (None, catalog') => AttackDone catalog' None
  | (Some e, catalog') =>
      if is_Exception (exc_cls e) then AttackDone catalog' (Some e)
      else AttackAborted e catalog'
  end.

Definition attack_catalog (r : attack_result) : gmap string value :=
  match r with
  | AttackDone catalog _ | AttackAborted _ catalog => catalog
  end.

(** A subject whose constant type can be subclassed but not instantiated
    a second time. *)
Definition singleton_world : constant_world :=
  {| constant_type := Ok ();
     subclass := λ _ _, Ok ();
     instantiate := λ cls _,
       match cls with
       | Some _ => Ok (VRef 5%positive)
       | None => Raise type_error
       end |}.

End WeirdConstant.
(** * Facts *)

Lemma py_rshift_nonneg x n b :
  0 <= x -> py_rshift x n = Some b -> 0 <= b.
Proof.
  unfold py_rshift. intros Hx. destruct (n <? 0); [discriminate|].
  intros [= <-]. by apply Z.shiftr_nonneg.
Qed.

Lemma py_rshift_is_Some x n : 0 <= n -> py_rshift x n = Some (Z.shiftr x n).
Proof. unfold py_rshift. intros Hn. by destruct (Z.ltb_spec n 0); [lia|]. Qed.

Lemma py_rshift_None x n : n < 0 -> py_rshift x n = None.
Proof. unfold py_rshift. intros Hn. by destruct (Z.ltb_spec n 0); [|lia]. Qed.

(** ** [generate_colliding_keys] *)

Module CollidingKeysFacts.
Import CollidingKeys.

Section invariant.
Variable rehash : Z -> Z.
Variables log_size num kpb : Z.

Abbreviation bucket_of := (bucket_of rehash log_size).
Abbreviation record_candidate := (record_candidate num kpb).
Abbreviation stop_condition := (stop_condition num kpb).
Abbreviation loop_body := (loop_body rehash log_size num kpb).
Abbreviation search := (search rehash log_size num kpb).
Abbreviation entry_ok := (entry_ok rehash log_size num kpb).
Abbreviation search_inv := (search_inv rehash log_size num kpb).
Abbreviation targets_full := (targets_full num kpb).

Lemma entry_ok_mono next next' b keys :
  next <= next' → entry_ok next b keys → entry_ok next' b keys.
Proof.
  intros Hle (Hb & (c & Hc & Hcb) & Hlen & Hsort & Hin).
  split; [done|]. split; [exists c; split; [lia|done]|].
  split; [done|]. split; [done|].
  intros k Hk. destruct (Hin k Hk). split; [lia|done].
Qed.

Lemma search_inv_initial : search_inv 0 initial_state.
Proof.
  split; [apply map_Forall_empty|].
  intros b; simpl. split; [set_solver|].
  intros (keys & Hk & _). by rewrite lookup_empty in Hk.
Qed.

Lemma record_candidate_inv i bucket s :
  0 <= i → bucket_of i = Some bucket →
  search_inv i s → search_inv (i + 1) (record_candidate i bucket s).
Proof.
  intros Hi Hb [Hall Hfilled]. unfold CollidingKeys.record_candidate.
  assert (Hmono : map_Forall (entry_ok (i + 1)) (results s)).
  { eapply map_Forall_impl; [exact Hall|].
    intros ??; apply entry_ok_mono; lia. }
  destruct (Z.ltb_spec bucket num) as [Hlt|Hge]; [|by split].
  set (cur := default [] (results s !! bucket)).
  assert (Hcur : entry_ok (i + 1) bucket cur).
  { subst cur. destruct (results s !! bucket) as [keys|] eqn:E; simpl.
    - by apply (Hmono bucket keys).
    - split; [done|]. split; [exists i; split; [lia|done]|].
      split; [simpl; lia|]. split; [constructor|].
      intros k Hk. by apply elem_of_nil in Hk. }
  assert (Hcur_lt : ∀ k, k ∈ cur → k < i).
  { subst cur. destruct (results s !! bucket) as [keys|] eqn:E; simpl.
    - intros k Hk. destruct (Hall bucket keys E) as (_ & _ & _ & _ & Hin).
      destruct (Hin k Hk); lia.
    - intros k Hk. by apply elem_of_nil in Hk. }
  destruct (Z.ltb_spec (Z.of_nat (length cur)) kpb) as [Hroom|Hfull]; simpl.
  - split; simpl.
    + apply map_Forall_insert_2; [|done].
      destruct Hcur as (_ & Hwit & Hlen & Hsort & Hin).
      split; [done|]. split; [done|].
      split; [rewrite length_app; simpl; lia|]. split.
      * apply StronglySorted_app_2; [|done|repeat constructor].
        intros x1 x2 Hx1 Hx2. apply list_elem_of_singleton in Hx2 as ->.
        by apply Hcur_lt.
      * intros k [Hk|Hk]%elem_of_app; [by apply Hin|].
        apply list_elem_of_singleton in Hk as ->. split; [lia|done].
    + intros b. rewrite elem_of_union, elem_of_singleton, Hfilled.
      destruct (decide (b = bucket)) as [->|Hne].
      * rewrite lookup_insert_eq. split; [|by left].
        intros _. eexists; split; [done|]. by destruct cur.
      * rewrite lookup_insert_ne by done. split; [|by right].
        by intros [?|?].
  - split; simpl.
    + by apply map_Forall_insert_2.
    + intros b. rewrite Hfilled.
      destruct (decide (b = bucket)) as [->|Hne].
      * rewrite lookup_insert_eq. subst cur.
        destruct (results s !! bucket) as [keys|] eqn:E; simpl; [done|].
        split; [by intros (? & ? & ?)|]. by intros (? & [= <-] & ?).
      * by rewrite lookup_insert_ne.
Qed.

(** The lists of [results] change only by the append the source makes:
    outside the guard nothing is appended. *)
Lemma record_candidate_guard i bucket s :
  ¬ (bucket < num ∧
     Z.of_nat (length (default [] (results s !! bucket))) < kpb) →
  ∀ b, default [] (results (record_candidate i bucket s) !! b)
       = default [] (results s !! b).
Proof.
  intros Hguard b. unfold CollidingKeys.record_candidate.
  destruct (Z.ltb_spec bucket num) as [Hlt|Hge]; [|done].
  destruct (Z.ltb_spec (Z.of_nat (length (default [] (results s !! bucket))))
              kpb) as [Hroom|Hfull]; [by destruct Hguard|]; simpl.
  destruct (decide (b = bucket)) as [->|Hne].
  - by rewrite lookup_insert_eq.
  - by rewrite lookup_insert_ne.
Qed.

Lemma record_candidate_filled_mono i bucket s :
  filled_buckets s ⊆ filled_buckets (record_candidate i bucket s).
Proof.
  unfold CollidingKeys.record_candidate.
  destruct (bucket <? num); [|done].
  destruct (_ <? kpb); simpl; set_solver.
Qed.

Lemma record_candidate_filled_new i bucket s next :
  0 < kpb → bucket < num → search_inv next s →
  bucket ∈ filled_buckets (record_candidate i bucket s).
Proof.
  intros Hk Hlt [Hall Hfilled]. unfold CollidingKeys.record_candidate.
  destruct (Z.ltb_spec bucket num) as [_|?]; [|lia].
  destruct (Z.ltb_spec (Z.of_nat (length (default [] (results s !! bucket))))
              kpb) as [Hroom|Hfull]; simpl; [set_solver|].
  apply Hfilled. destruct (results s !! bucket) as [keys|]; simpl in *.
  - exists keys. split; [done|]. intros ->. simpl in Hfull. lia.
  - lia.
Qed.

Lemma search_spec n : ∀ i s,
  0 <= i → search_inv i s →
  match search n i s with
  | Broke j s' =>
      i <= j < i + Z.of_nat n ∧ search_inv (j + 1) s' ∧
      stop_condition s' = true ∧ filled_buckets s ⊆ filled_buckets s'
  | Exhausted s' =>
      search_inv (i + Z.of_nat n) s' ∧
      (n ≠ O → stop_condition s' = false) ∧
      filled_buckets s ⊆ filled_buckets s'
  | LoopRaise e => e = ValueError ∧ 64 < log_size
  end.
Proof.
  induction n as [|n IH]; intros i s Hi Hinv; simpl.
  - rewrite Z.add_0_r. by split; [|split].
  - unfold CollidingKeys.loop_body.
    destruct (bucket_of i) as [bucket|] eqn:Hb.
    + pose proof (record_candidate_inv i bucket s Hi Hb Hinv) as Hinv'.
      pose proof (record_candidate_filled_mono i bucket s) as Hsub.
      destruct (stop_condition (record_candidate i bucket s)) eqn:Hstop.
      * split; [lia|]. by split; [|split].
      * specialize (IH (i + 1) (record_candidate i bucket s)
                       ltac:(lia) Hinv').
        destruct (search n (i + 1) (record_candidate i bucket s))
          as [j s'|s'|e] eqn:Hrun.
        -- destruct IH as (Hj & ? & ? & ?).
           split; [lia|]. split; [done|]. split; [done|]. set_solver.
        -- destruct IH as (Hinv'' & Hstop' & ?).
           replace (i + Z.of_nat (S n)) with (i + 1 + Z.of_nat n) by lia.
           split; [done|]. split; [|set_solver].
           intros _. destruct n as [|n']; [|by apply Hstop'].
           simpl in Hrun. by injection Hrun as <-.
        -- done.
    + split; [done|]. unfold CollidingKeys.bucket_of, py_rshift in Hb.
      destruct (Z.ltb_spec (64 - log_size) 0); [lia|done].
Qed.

(** With a positive quota and a non-negative hash, the test the loop makes
    before [break] says exactly that every targeted bucket is full. *)
Lemma stop_condition_targets_full next s :
  0 < kpb → (∀ i, 0 <= rehash i) → search_inv next s →
  stop_condition s = true ↔ targets_full (results s).
Proof.
  intros Hk Hpos [Hall Hfilled].
  assert (Hkey : ∀ b keys, results s !! b = Some keys → 0 <= b < num).
  { intros b keys E. destruct (Hall b keys E) as (? & (c & _ & Hc) & _).
    split; [|done]. eapply py_rshift_nonneg; [apply (Hpos c)|exact Hc]. }
  set (targets := list_to_set (seqZ 0 num) : gset Z).
  assert (Hsize : size targets = Z.to_nat num).
  { unfold targets. rewrite size_list_to_set by apply NoDup_seqZ.
    apply length_seqZ. }
  assert (Hsub : filled_buckets s ⊆ targets).
  { intros b (keys & E & _)%Hfilled. unfold targets.
    rewrite elem_of_list_to_set, elem_of_seqZ.
    specialize (Hkey b keys E). lia. }
  unfold CollidingKeys.stop_condition, all_full.
  rewrite andb_true_iff, Z.leb_le, bool_decide_eq_true. split.
  - intros [Hcount Hfull] b Hb.
    assert (Heq : filled_buckets s = targets).
    { apply set_subseteq_size_eq; [done|]. rewrite Hsize. lia. }
    assert (Hin : b ∈ filled_buckets s).
    { rewrite Heq. unfold targets.
      rewrite elem_of_list_to_set, elem_of_seqZ. lia. }
    apply Hfilled in Hin as (keys & E & _). exists keys. split; [done|].
    apply (Hfull b keys E). lia.
  - intros Hfull. split.
    + assert (Hsup : targets ⊆ filled_buckets s).
      { intros b Hb. unfold targets in Hb.
        rewrite elem_of_list_to_set, elem_of_seqZ in Hb.
        destruct (Hfull b ltac:(lia)) as (keys & E & Hlen).
        apply Hfilled. exists keys. split; [done|].
        intros ->. simpl in Hlen. lia. }
      apply subseteq_size in Hsup. rewrite Hsize in Hsup. lia.
    + intros b keys E _. destruct (Hfull b (Hkey b keys E)) as (keys' & E' & ?).
      by simplify_eq.
Qed.

(** When the range runs out, every candidate of a targeted bucket has been
    seen, so its bucket holds a key. *)
Lemma search_exhausted_covers n : ∀ i s s',
  0 < kpb → 0 <= i → search_inv i s →
  search n i s = Exhausted s' →
  ∀ c b, i <= c < i + Z.of_nat n → bucket_of c = Some b → b < num →
         b ∈ filled_buckets s'.
Proof.
  induction n as [|n IH]; intros i s s' Hk Hi Hinv Hrun c b Hc Hb Hlt;
    [lia|].
  simpl in Hrun. unfold CollidingKeys.loop_body in Hrun.
  destruct (bucket_of i) as [bucket|] eqn:Hbi; [|done].
  destruct (stop_condition (record_candidate i bucket s)); [done|].
  pose proof (record_candidate_inv i bucket s Hi Hbi Hinv) as Hinv'.
  destruct (decide (c = i)) as [->|Hne].
  - assert (bucket = b) as -> by congruence.
    pose proof (record_candidate_filled_new i b s i Hk Hlt Hinv) as Hin.
    pose proof (search_spec n (i + 1) _ ltac:(lia) Hinv') as Hspec.
    rewrite Hrun in Hspec. destruct Hspec as (_ & _ & Hsub). by apply Hsub.
  - eapply (IH (i + 1)); eauto; lia.
Qed.

(** A run that breaks at candidate [j] does not break under any smaller
    ceiling. *)
Lemma search_prefix n : ∀ i s j s' m,
  search n i s = Broke j s' → (Z.of_nat m <= j - i) →
  ∃ s0, search m i s = Exhausted s0.
Proof.
  induction n as [|n IH]; intros i s j s' m Hrun Hm; [done|].
  destruct m as [|m]; [by eexists|].
  simpl in *. unfold CollidingKeys.loop_body in *.
  destruct (bucket_of i) as [bucket|]; [|done].
  destruct (stop_condition (record_candidate i bucket s)).
  - injection Hrun as <- <-. lia.
  - eapply IH; [exact Hrun|lia].
Qed.

Lemma search_total n i s :
  log_size <= 64 → ∀ e, search n i s ≠ LoopRaise e.
Proof.
  intros Hlog. revert i s. induction n as [|n IH]; intros i s e; [done|].
  simpl. unfold CollidingKeys.loop_body, CollidingKeys.bucket_of.
  rewrite py_rshift_is_Some by lia.
  destruct (stop_condition _); [done|]. apply IH.
Qed.

End invariant.

(** The search reads the hash only at the candidates it examines. *)
Lemma search_ext rehash1 rehash2 log_size num kpb n : ∀ i s,
  (∀ c, i <= c < i + Z.of_nat n → rehash1 c = rehash2 c) →
  search rehash1 log_size num kpb n i s
  = search rehash2 log_size num kpb n i s.
Proof.
  induction n as [|n IH]; intros i s Hagree; [done|].
  simpl. unfold loop_body, bucket_of. rewrite (Hagree i) by lia.
  destruct (py_rshift _ _) as [bucket|]; [|done].
  destruct (stop_condition _ _ _); [done|].
  apply IH. intros c Hc. apply Hagree. lia.
Qed.

(** Candidates whose bucket is not targeted leave the state alone, and an
    empty [filled_buckets] never satisfies a positive target count. *)
Lemma search_untargeted rehash log_size num kpb n : ∀ i s,
  0 < num → filled_buckets s = ∅ →
  (∀ c, i <= c < i + Z.of_nat n →
        ∃ b, bucket_of rehash log_size c = Some b ∧ num <= b) →
  search rehash log_size num kpb n i s = Exhausted s.
Proof.
  induction n as [|n IH]; intros i s Hnum Hempty Hout; [done|].
  simpl. unfold loop_body.
  destruct (Hout i ltac:(lia)) as (b & -> & Hb).
  unfold record_candidate. destruct (Z.ltb_spec b num) as [?|_]; [lia|].
  unfold stop_condition. rewrite Hempty, size_empty.
  destruct (Z.leb_spec num (Z.of_nat 0)) as [?|_]; [lia|]. simpl.
  apply IH; [done|done|]. intros c Hc. apply Hout. lia.
Qed.

Lemma search_upto_spec rehash log_size num kpb ceiling :
  0 <= ceiling →
  match search_upto rehash log_size num kpb ceiling with
  | Broke j s' =>
      0 <= j < ceiling ∧
      search_inv rehash log_size num kpb (j + 1) s' ∧
      stop_condition num kpb s' = true
  | Exhausted s' =>
      search_inv rehash log_size num kpb ceiling s' ∧
      (0 < ceiling → stop_condition num kpb s' = false)
  | LoopRaise e => e = ValueError ∧ 64 < log_size
  end.
Proof.
  intros Hc. unfold search_upto.
  pose proof (search_spec rehash log_size num kpb (Z.to_nat ceiling) 0
                initial_state ltac:(lia)
                (search_inv_initial rehash log_size num kpb)) as Hspec.
  destruct (search _ _ _ _ _ _ _) as [j s'|s'|e]; [| |done].
  - destruct Hspec as (? & ? & ? & _). split; [lia|done].
  - destruct Hspec as (? & Hstop & _). rewrite Z2Nat.id in * by done.
    split; [done|]. intros ?. apply Hstop. lia.
Qed.

Lemma demo_dict_nonneg i : 0 <= _rehash demo_dict i.
Proof. simpl. pose proof (Z.mod_pos_bound i 64). lia. Qed.

Example demo_search_breaks :
  match search_upto (_rehash demo_dict) 6 4 3 200 with
  | Broke i s => Some (i, map_to_list (results s))
  | _ => None
  end = Some (131, [(3, [3; 67; 131]); (2, [2; 66; 130]);
                    (1, [1; 65; 129]); (0, [0; 64; 128])]).
Proof. vm_compute. reflexivity. Qed.

Example demo_search_exhausts :
  match search_upto (_rehash demo_dict) 6 4 3 100 with
  | Exhausted s => Some (map_to_list (results s))
  | _ => None
  end = Some [(3, [3; 67]); (2, [2; 66]); (1, [1; 65]); (0, [0; 64])].
Proof. vm_compute. reflexivity. Qed.

Example demo_search_negative_shift :
  search_upto (_rehash demo_dict) 65 4 3 100 = LoopRaise ValueError.
Proof. vm_compute. reflexivity. Qed.

(** The per-entry facts of a returned mapping. *)
Lemma generate_entries ceiling d log_size num kpb m out err :
  0 <= ceiling →
  generate_with_ceiling ceiling (Some d) log_size num kpb
  = Returned m out err →
  ∃ next, 0 <= next <= ceiling ∧
          map_Forall (entry_ok (_rehash d) log_size num kpb next) m.
Proof.
  unfold generate_with_ceiling. intros Hc Hgen.
  pose proof (search_upto_spec (_rehash d) log_size num kpb ceiling Hc)
    as Hspec.
  destruct (search_upto _ _ _ _ _) as [j s|s|e]; [| |done];
    injection Hgen as <- <- <-.
  - destruct Hspec as (Hj & [Hall _] & _). exists (j + 1). split; [lia|done].
  - destruct Hspec as ([Hall _] & _). exists ceiling. split; [lia|done].
Qed.

Section any_ceiling.
Variable ceiling : Z.
Hypothesis ceiling_pos : 0 < ceiling.

Lemma generate_bucket_invariant dummy log_size num kpb m out err :
  generate_with_ceiling ceiling dummy log_size num kpb = Returned m out err →
  ∀ bucket keys, m !! bucket = Some keys → ∀ k, k ∈ keys →
    ∃ d, dummy = Some d ∧
         py_rshift (_rehash d k) (64 - log_size) = Some bucket.
Proof.
  intros Hgen bucket keys Hlook k Hk. destruct dummy as [d|].
  - exists d. split; [done|].
    destruct (generate_entries ceiling _ _ _ _ _ _ _ ltac:(lia) Hgen)
      as (next & _ & Hall).
    destruct (Hall bucket keys Hlook) as (_ & _ & _ & _ & Hin).
    by destruct (Hin k Hk).
  - simpl in Hgen. injection Hgen as <- _ _.
    by rewrite lookup_empty in Hlook.
Qed.

Lemma generate_returns dummy log_size num kpb :
  log_size <= 64 →
  ∃ m out err,
    generate_with_ceiling ceiling dummy log_size num kpb = Returned m out err.
Proof.
  intros Hlog. destruct dummy as [d|]; simpl; [|by eauto].
  unfold search_upto.
  pose proof (search_total (_rehash d) log_size num kpb
                (Z.to_nat ceiling) 0 initial_state Hlog) as Htot.
  destruct (search _ _ _ _ _ _ _) as [j s|s|e]; [by eauto|by eauto|].
  by destruct (Htot e).
Qed.

Lemma generate_populated d log_size num kpb :
  log_size <= 64 → 0 < num → 0 < kpb →
  (∃ c, 0 <= c < ceiling ∧ Z.shiftr (_rehash d c) (64 - log_size) < num) →
  ∃ m out err,
    generate_with_ceiling ceiling (Some d) log_size num kpb
    = Returned m out err ∧
    ∃ bucket keys, m !! bucket = Some keys ∧ keys ≠ [].
Proof.
  intros Hlog Hnum Hk (c & Hc & Hbucket).
  assert (Hb : bucket_of (_rehash d) log_size c
               = Some (Z.shiftr (_rehash d c) (64 - log_size))).
  { unfold bucket_of. rewrite py_rshift_is_Some; [done|lia]. }
  unfold generate_with_ceiling, search_upto.
  pose proof (search_spec (_rehash d) log_size num kpb (Z.to_nat ceiling) 0
                initial_state ltac:(lia)
                (search_inv_initial (_rehash d) log_size num kpb)) as Hspec.
  pose proof (search_exhausted_covers (_rehash d) log_size num kpb
                (Z.to_nat ceiling) 0 initial_state) as Hcover.
  destruct (search _ _ _ _ _ _ _) as [j s|s|e].
  - destruct Hspec as (_ & [_ Hfilled] & Hstop & _).
    do 3 eexists. split; [done|].
    unfold stop_condition in Hstop.
    apply andb_true_iff in Hstop as [Hsize%Z.leb_le _].
    destruct (set_choose_L (filled_buckets s)) as [b Hin].
    { intros Hempty. rewrite Hempty, size_empty in Hsize. lia. }
    apply Hfilled in Hin as (keys & ? & ?). by exists b, keys.
  - destruct Hspec as ([_ Hfilled] & _).
    do 3 eexists. split; [done|].
    specialize (Hcover s Hk ltac:(lia)
                  (search_inv_initial (_rehash d) log_size num kpb) eq_refl
                  c _ ltac:(lia) Hb Hbucket).
    apply Hfilled in Hcover as (keys & ? & ?). by eexists _, keys.
  - destruct Hspec as [_ ?]. lia.
Qed.

Lemma generate_untargeted d log_size num kpb :
  0 < num →
  (∀ c, 0 <= c < ceiling →
        ∃ b, bucket_of (_rehash d) log_size c = Some b ∧ num <= b) →
  generate_with_ceiling ceiling (Some d) log_size num kpb
  = Returned ∅ [Generating log_size] [WarningExhausted log_size].
Proof.
  intros Hnum Hout. unfold generate_with_ceiling, search_upto.
  rewrite (search_untargeted (_rehash d) log_size num kpb); [done..|].
  intros c Hc. apply Hout. lia.
Qed.

Lemma generate_control_flow d log_size num kpb :
  0 < kpb → (∀ i, 0 <= _rehash d i) →
  match search_upto (_rehash d) log_size num kpb ceiling with
  | Broke i s =>
      0 <= i < ceiling ∧
      targets_full num kpb (results s) ∧
      (∀ c, 0 < c <= i →
         ∃ s0, search_upto (_rehash d) log_size num kpb c = Exhausted s0 ∧
               ¬ targets_full num kpb (results s0)) ∧
      generate_with_ceiling ceiling (Some d) log_size num kpb
      = Returned (results s) [Generating log_size] []
  | Exhausted s =>
      ¬ targets_full num kpb (results s) ∧
      generate_with_ceiling ceiling (Some d) log_size num kpb
      = Returned (results s) [Generating log_size]
                 [WarningExhausted log_size]
  | LoopRaise e => e = ValueError ∧ 64 < log_size
  end.
Proof.
  intros Hquota Hhash.
  pose proof (search_upto_spec (_rehash d) log_size num kpb ceiling
                ltac:(lia)) as Hspec.
  unfold generate_with_ceiling.
  destruct (search_upto _ _ _ _ ceiling) as [j s|s|e] eqn:Hrun; [| |done].
  - destruct Hspec as (Hj & Hinv & Hstop).
    split; [done|]. split; [|split; [|done]].
    + by apply (stop_condition_targets_full (_rehash d) log_size num kpb
                  (j + 1) s Hquota Hhash Hinv).
    + intros c Hc. unfold search_upto in Hrun.
      destruct (search_prefix _ _ _ _ _ _ _ _ _ (Z.to_nat c) Hrun
                  ltac:(lia)) as [s0 Hpre].
      exists s0. split; [done|].
      pose proof (search_upto_spec (_rehash d) log_size num kpb c
                    ltac:(lia)) as Hspec0.
      unfold search_upto in Hspec0. rewrite Hpre in Hspec0.
      destruct Hspec0 as (Hinv0 & Hstop0).
      rewrite <- (stop_condition_targets_full (_rehash d) log_size num kpb
                    c s0 Hquota Hhash Hinv0).
      rewrite (Hstop0 ltac:(lia)). done.
  - destruct Hspec as (Hinv & Hstop). split; [|done].
    rewrite <- (stop_condition_targets_full (_rehash d) log_size num kpb
                  ceiling s Hquota Hhash Hinv).
    by rewrite (Hstop ceiling_pos).
Qed.

Lemma generate_entry_bounds d log_size num kpb m out err :
  0 < kpb →
  generate_with_ceiling ceiling (Some d) log_size num kpb
  = Returned m out err →
  ∀ bucket keys, m !! bucket = Some keys →
    bucket < num ∧
    Z.of_nat (length keys) <= kpb ∧
    StronglySorted Z.lt keys ∧
    ∀ k, k ∈ keys → 0 <= k < ceiling.
Proof.
  intros Hquota Hgen bucket keys Hlook.
  destruct (generate_entries ceiling _ _ _ _ _ _ _ ltac:(lia) Hgen)
    as (next & Hnext & Hall).
  destruct (Hall bucket keys Hlook) as (? & _ & ? & ? & Hin).
  split; [done|]. split; [lia|]. split; [done|].
  intros k Hk. destruct (Hin k Hk). lia.
Qed.

Lemma generate_ext dummy1 dummy2 log_size num kpb :
  same_subject_below ceiling dummy1 dummy2 →
  generate_with_ceiling ceiling dummy1 log_size num kpb
  = generate_with_ceiling ceiling dummy2 log_size num kpb.
Proof.
  destruct dummy1 as [d1|], dummy2 as [d2|]; simpl; try done.
  intros Hsame. unfold search_upto.
  rewrite (search_ext (_rehash d1) (_rehash d2)); [done|].
  intros c Hc. apply Hsame. lia.
Qed.

End any_ceiling.

Lemma SEARCH_CEILING_pos : 0 < SEARCH_CEILING.
Proof. reflexivity. Qed.

(** C1 (amended). Every key of every entry [(bucket, keys)] of a returned
    mapping satisfies [rehash(k) >> (64 - log_size) == bucket], for every
    [log_size] (the call returns whenever [log_size <= 64]). For the
    parameters (6, 16, 32) the result has a non-empty bucket list when the
    subject dictionary is available and some candidate below the ceiling
    [2**24] has [rehash(c) >> 58 < 16]; without a subject dictionary the
    result is the empty mapping. *)
Theorem C1_bucket_invariant (dummy : option AtomicDict)
    (log_size num kpb : Z) :
  (∀ m out err,
     generate_colliding_keys dummy log_size num kpb = Returned m out err →
     ∀ bucket keys, m !! bucket = Some keys → ∀ k, k ∈ keys →
       ∃ d, dummy = Some d ∧
            py_rshift (_rehash d k) (64 - log_size) = Some bucket) ∧
  (log_size <= 64 →
     ∃ m out err,
       generate_colliding_keys dummy log_size num kpb = Returned m out err) ∧
  (dummy = None → generate_colliding_keys dummy 6 16 32 = Returned ∅ [] []) ∧
  (∀ d, dummy = Some d →
     (∃ c, 0 <= c < SEARCH_CEILING ∧ Z.shiftr (_rehash d c) 58 < 16) →
     ∃ m out err,
       generate_colliding_keys dummy 6 16 32 = Returned m out err ∧
       ∃ bucket keys, m !! bucket = Some keys ∧ keys ≠ []).
Proof.
  split; [|split; [|split]].
  - intros m out err. apply (generate_bucket_invariant SEARCH_CEILING).
    exact SEARCH_CEILING_pos.
  - apply (generate_returns SEARCH_CEILING).
  - by intros ->.
  - intros d -> Hhit.
    apply (generate_populated SEARCH_CEILING SEARCH_CEILING_pos d 6 16 32);
      [lia..|exact Hhit].
Qed.

Lemma C1_bucket_invariant_witness :
  (∃ c, 0 <= c < SEARCH_CEILING ∧ Z.shiftr (_rehash demo_dict c) 58 < 16) ∧
  ∃ m out err,
    generate_colliding_keys (Some demo_dict) 6 16 32 = Returned m out err ∧
    ∃ bucket keys, m !! bucket = Some keys ∧ keys ≠ [].
Proof.
  assert (H : ∃ c, 0 <= c < SEARCH_CEILING
                   ∧ Z.shiftr (_rehash demo_dict c) 58 < 16).
  { exists 0. split; [split; [lia|reflexivity]|reflexivity]. }
  split; [exact H|].
  pose proof (C1_bucket_invariant (Some demo_dict) 6 16 32)
    as (_ & _ & _ & Hpopulated).
  exact (Hpopulated demo_dict eq_refl H).
Defined.

(** C1 as stated fails: with no subject dictionary the generator returns the
    empty mapping, and so it does for a subject whose hash sends every key
    below the ceiling to an untargeted bucket; neither result has a
    non-empty bucket list. *)
Lemma C1_counterexample :
  generate_colliding_keys None 6 16 32 = Returned ∅ [] [] ∧
  generate_colliding_keys (Some top_bucket_dict) 6 16 32
  = Returned ∅ [Generating 6] [WarningExhausted 6] ∧
  ¬ ∃ bucket keys,
      (∅ : gmap Z (list Z)) !! bucket = Some keys ∧ keys ≠ [].
Proof.
  split; [done|]. split.
  - unfold generate_colliding_keys.
    apply (generate_untargeted SEARCH_CEILING SEARCH_CEILING_pos
             top_bucket_dict 6 16 32);
      [lia|].
    intros c _. exists 63. split; [reflexivity|lia].
  - intros (bucket & keys & Hlook & _). by rewrite lookup_empty in Hlook.
Qed.

(** C2 (amended). For a positive quota and a non-negative hash: the
    candidates are examined from 0 upwards, below the ceiling [2**24]; a
    candidate is appended only under the guard (bucket targeted and under
    quota); every returned bucket index is below [num_buckets_to_fill],
    every list holds at most [keys_per_bucket] keys, in strictly increasing
    order; the loop breaks exactly when every targeted bucket has reached
    the quota, at the first candidate where that holds; when the ceiling is
    exhausted the warning is written and the partial result returned, and
    the only error is the negative shift count of [log_size > 64]. *)
Theorem C2_bounded_quota_search (d : AtomicDict) (log_size num kpb : Z)
    (Hquota : 0 < kpb) (Hhash : ∀ i, 0 <= _rehash d i) :
  (∀ i bucket s,
     ¬ (bucket < num ∧
        Z.of_nat (length (default [] (results s !! bucket))) < kpb) →
     ∀ b, default [] (results (record_candidate num kpb i bucket s) !! b)
          = default [] (results s !! b)) ∧
  match search_upto (_rehash d) log_size num kpb SEARCH_CEILING with
  | Broke i s =>
      0 <= i < SEARCH_CEILING ∧
      targets_full num kpb (results s) ∧
      (∀ c, 0 < c <= i →
         ∃ s0, search_upto (_rehash d) log_size num kpb c = Exhausted s0 ∧
               ¬ targets_full num kpb (results s0)) ∧
      generate_colliding_keys (Some d) log_size num kpb
      = Returned (results s) [Generating log_size] []
  | Exhausted s =>
      ¬ targets_full num kpb (results s) ∧
      generate_colliding_keys (Some d) log_size num kpb
      = Returned (results s) [Generating log_size]
                 [WarningExhausted log_size]
  | LoopRaise e => e = ValueError ∧ 64 < log_size
  end ∧
  (∀ m out err,
     generate_colliding_keys (Some d) log_size num kpb = Returned m out err →
     ∀ bucket keys, m !! bucket = Some keys →
       bucket < num ∧
       Z.of_nat (length keys) <= kpb ∧
       StronglySorted Z.lt keys ∧
       ∀ k, k ∈ keys → 0 <= k < SEARCH_CEILING).
Proof.
  split; [|split].
  - intros i bucket s. apply record_candidate_guard.
  - exact (generate_control_flow SEARCH_CEILING SEARCH_CEILING_pos
             d log_size num kpb Hquota Hhash).
  - intros m out err.
    exact (generate_entry_bounds SEARCH_CEILING SEARCH_CEILING_pos
             d log_size num kpb m out err Hquota).
Qed.

Lemma C2_bounded_quota_search_witness :
  0 < 32 ∧ (∀ i, 0 <= _rehash demo_dict i) ∧
  ∀ m out err,
    generate_colliding_keys (Some demo_dict) 6 16 32 = Returned m out err →
    ∀ bucket keys, m !! bucket = Some keys →
      bucket < 16 ∧
      Z.of_nat (length keys) <= 32 ∧
      StronglySorted Z.lt keys ∧
      ∀ k, k ∈ keys → 0 <= k < SEARCH_CEILING.
Proof.
  assert (Hquota : 0 < 32) by lia.
  split; [exact Hquota|]. split; [exact demo_dict_nonneg|].
  pose proof (C2_bounded_quota_search demo_dict 6 16 32 Hquota
                demo_dict_nonneg) as [_ [_ Hentries]].
  exact Hentries.
Defined.

(** C8. Two runs with the same hash-to-bucket function (the same values at
    every candidate below the ceiling), the same ceiling and the same
    parameters return equal mappings, with equal output. *)
Theorem C8_deterministic (dummy1 dummy2 : option AtomicDict)
    (log_size num kpb : Z) :
  same_subject_below SEARCH_CEILING dummy1 dummy2 →
  generate_colliding_keys dummy1 log_size num kpb
  = generate_colliding_keys dummy2 log_size num kpb.
Proof.
  exact (generate_ext SEARCH_CEILING SEARCH_CEILING_pos
           dummy1 dummy2 log_size num kpb).
Qed.

Lemma C8_deterministic_witness :
  same_subject_below SEARCH_CEILING (Some demo_dict)
    (Some demo_dict_clipped) ∧
  generate_colliding_keys (Some demo_dict) 6 16 32
  = generate_colliding_keys (Some demo_dict_clipped) 6 16 32.
Proof.
  assert (H : same_subject_below SEARCH_CEILING (Some demo_dict)
                (Some demo_dict_clipped)).
  { intros c Hc. simpl. unfold SEARCH_CEILING in Hc.
    destruct (Z.ltb_spec c (2 ^ 24)); [reflexivity|lia]. }
  split; [exact H|].
  exact (C8_deterministic (Some demo_dict) (Some demo_dict_clipped)
           6 16 32 H).
Defined.

End CollidingKeysFacts.

(** ** [UnstableHash] *)

Module AtomicDictInputsFacts.
Import AtomicDictInputs.

Lemma hash_calls_counter objs : ∀ c,
  (hash_calls objs c).2 = c + Z.of_nat (length objs).
Proof.
  induction objs as [|o rest IH]; intros c; simpl; [lia|].
  specialize (IH (c + 1)). destruct (hash_calls rest (c + 1)) as [hs c2].
  simpl in *. lia.
Qed.

(** Every value returned by a run of hash calls started at [c] is at least
    [c], and the values are strictly increasing. *)
Lemma hash_calls_values objs : ∀ c,
  Forall (λ h, c <= h) (hash_calls objs c).1 ∧
  StronglySorted Z.lt (hash_calls objs c).1.
Proof.
  induction objs as [|o rest IH]; intros c; simpl.
  - split; constructor.
  - destruct (IH (c + 1)) as [Hge Hsort].
    destruct (hash_calls rest (c + 1)) as [hs c2]. simpl in *. split.
    + constructor; [lia|]. eapply Forall_impl; [exact Hge|]. simpl. lia.
    + constructor; [done|]. eapply Forall_impl; [exact Hge|]. simpl. lia.
Qed.

Lemma eq_counter_independent a v c c' :
  (UnstableHash_eq a v c).1 = (UnstableHash_eq a v c').1 ∧
  (UnstableHash_eq a v c).2 = c.
Proof. by destruct v. Qed.



Example unstable_hash_run :
  let (o, c1) := UnstableHash_init 0 in
  let (hs, c2) := hash_calls [o; o; o] c1 in
  (_initial_hash o, hs, c2) = (0, [1; 2; 3], 4).
Proof. reflexivity. Qed.

Example unstable_eq_other_type :
  (UnstableHash_eq {| _initial_hash := 3 |} (VInt 3) 7) = (false, 7).
Proof. reflexivity. Qed.

End AtomicDictInputsFacts.

(** ** [dogpile_on_atomicint] *)

Module ConcurrencyHellFacts.
Import ConcurrencyHell.

Lemma run_schedule_atomic schedule : ∀ v : Z,
  v + Z.of_nat (length schedule) <= INT64_MAX →
  run_schedule schedule v = v + Z.of_nat (length schedule).
Proof.
  unfold run_schedule.
  induction schedule as [|tid rest IH]; intros v Hv; simpl in *; [lia|].
  destruct (Z.ltb_spec v INT64_MAX); [|lia].
  rewrite IH; lia.
Qed.

Lemma sequential_schedule_length num_threads ops_per_thread :
  0 <= num_threads → 0 <= ops_per_thread →
  Z.of_nat (length (sequential_schedule num_threads ops_per_thread))
  = num_threads * ops_per_thread.
Proof.
  intros Hn Hm. unfold sequential_schedule.
  assert (Hlen : ∀ l : list nat,
    length (mjoin ((λ tid, replicate (Z.to_nat ops_per_thread) tid) <$> l))
    = (length l * Z.to_nat ops_per_thread)%nat).
  { induction l as [|t l IH]; [done|]. csimpl.
    rewrite length_app, length_replicate, IH. lia. }
  rewrite Hlen, length_seq. lia.
Qed.

(** The calls of a complete schedule are [num_threads * ops_per_thread] in
    number. *)
Lemma complete_schedule_length num_threads ops_per_thread schedule :
  0 <= num_threads → 0 <= ops_per_thread →
  complete_schedule num_threads ops_per_thread schedule →
  Z.of_nat (length schedule) = num_threads * ops_per_thread.
Proof.
  intros Hn Hm Hcomplete. rewrite Hcomplete.
  by apply sequential_schedule_length.
Qed.

(** C4. The scenario computes the expected value as [num_threads *
    ops_per_thread] and returns [True] to its caller in every case; a final
    value equal to the product leaves [stderr] empty, and every other final
    value is flagged by the warning that names the expected and the observed
    value; this for any subject implementation and any interleaving. With
    the subject as documented, every complete interleaving of
    [num_threads] x [ops_per_thread] increments ends at the product, without
    warning. *)
Theorem C4_dogpile_flags_deviation `{AtomicInt64 cell} (schedule : list nat)
    (num_threads ops_per_thread : Z) :
  let actual := get (run_schedule schedule (new_cell 0)) in
  let expected := num_threads * ops_per_thread in
  (dogpile_on_atomicint schedule num_threads ops_per_thread).1 = true ∧
  (actual = expected →
   dogpile_on_atomicint schedule num_threads ops_per_thread = (true, [])) ∧
  (actual ≠ expected →
   dogpile_on_atomicint schedule num_threads ops_per_thread
   = (true, [WarningWrongCount expected actual])) ∧
  (0 <= num_threads → 0 <= ops_per_thread →
   num_threads * ops_per_thread <= INT64_MAX →
   ∀ interleaving,
     complete_schedule num_threads ops_per_thread interleaving →
     get (cell := Z) (run_schedule interleaving (new_cell 0)) = expected ∧
     dogpile_on_atomicint (cell := Z) interleaving num_threads ops_per_thread
     = (true, [])).
Proof.
  intros actual expected. unfold dogpile_on_atomicint.
  fold actual. fold expected. repeat split.
  - intros Heq. by rewrite bool_decide_eq_false_2 by (by intros ?).
  - intros Hne. by rewrite bool_decide_eq_true_2.
  - simpl. rewrite run_schedule_atomic.
    + by rewrite (complete_schedule_length num_threads ops_per_thread).
    + rewrite (complete_schedule_length num_threads ops_per_thread); try done.
  - simpl. rewrite run_schedule_atomic.
    + rewrite (complete_schedule_length num_threads ops_per_thread); try done.
      by rewrite bool_decide_eq_false_2 by (by intros ?).
    + rewrite (complete_schedule_length num_threads ops_per_thread); try done.
Qed.

(** Two threads, two increments each, interleaved. *)
Lemma C4_dogpile_flags_deviation_witness :
  complete_schedule 2 2 [0; 1; 1; 0]%nat ∧
  dogpile_on_atomicint (cell := Z) [0; 1; 1; 0]%nat 2 2 = (true, []) ∧
  dogpile_on_atomicint (cell := Z * unit) [0; 1; 1; 0]%nat 2 2
  = (true, [WarningWrongCount 4 2]).
Proof.
  assert (Hs : complete_schedule 2 2 [0; 1; 1; 0]%nat).
  { unfold complete_schedule. simpl.
    change (Pos.to_nat 2) with 2%nat. simpl.
    apply perm_skip. symmetry. apply Permutation_cons_append with (l := [1;1]%nat) (x := 0%nat) . }
  split; [exact Hs|].
  pose proof (C4_dogpile_flags_deviation (cell := Z) [0; 1; 1; 0]%nat 2 2)
    as (_ & _ & _ & Hideal).
  pose proof (C4_dogpile_flags_deviation (cell := Z * unit)
                [0; 1; 1; 0]%nat 2 2) as (_ & _ & Hflag & _).
  split.
  - apply (Hideal ltac:(lia) ltac:(lia) ltac:(by vm_compute) _ Hs).
  - apply Hflag. by vm_compute.
Defined.

Example dogpile_sequential :
  dogpile_on_atomicint (cell := Z) (sequential_schedule 3 4) 3 4 = (true, []).
Proof. reflexivity. Qed.

Example dogpile_lossy_flagged :
  dogpile_on_atomicint (cell := Z * unit) (sequential_schedule 3 4) 3 4
  = (true, [WarningWrongCount 12 4]).
Proof. reflexivity. Qed.

Example dogpile_negative_counts :
  dogpile_on_atomicint (cell := Z) (sequential_schedule (-1) (-1)) (-1) (-1)
  = (true, [WarningWrongCount 1 0]).
Proof. reflexivity. Qed.

End ConcurrencyHellFacts.

(** ** Join plans *)

Module JoinPlansFacts.
Import JoinPlans.

(** No [time.sleep] of the plan is given a negative duration. *)
Abbreviation sleeps_valid :=
  (Forall (λ a, match a with Sleep d => 0 <= d | _ => True end)).

(** Every join of the plan carries a timeout. *)
Abbreviation joins_timed :=
  (Forall (λ a, match a with Join _ None => False | _ => True end)).

Lemma on_time_scheduled : scheduled on_time.
Proof. intros k. exists 0. split; [done|lia]. Qed.

Lemma a_little_late_scheduled : scheduled a_little_late.
Proof. intros k. exists 1. split; [done|lia]. Qed.

Lemma lost_nonneg delay n : scheduled delay → 0 <= lost delay n.
Proof.
  intros Hsched. induction n as [|k IH]; simpl; [lia|].
  destruct (Hsched k) as (late & -> & ?). simpl. lia.
Qed.

(** A plan whose joins all carry a timeout is got through, whatever the
    workers do, by a main thread that is given the processor back after
    every step; the time it takes is at most the time the plan asks to wait
    and the time the main thread loses. *)
Lemma run_delayed_finishes finish delay plan : ∀ clock expired budget,
  scheduled delay →
  plan_budget plan = Some budget →
  Forall (λ a, match a with
               | Sleep d | Join _ (Some d) => 0 <= d
               | _ => True
               end) plan →
  ∃ clock' expired',
    run_delayed finish delay plan clock expired = Finished clock' expired' ∧
    clock <= clock' <= clock + budget + lost delay (length plan).
Proof.
  intros clock expired budget Hsched. revert clock expired budget.
  induction plan as [|a rest IH]; intros clock expired budget Hb Hpos.
  - injection Hb as <-. eexists _, _. split; [done|]. simpl. lia.
  - apply Forall_cons in Hpos as [Ha Hpos].
    cbn [run_delayed length lost].
    destruct (Hsched (length rest)) as (late & -> & Hlate).
    cbn [resume]. change (default 0 (Some late)) with late.
    destruct a as [t|d|e|t [d|]]; simpl in Hb.
    + destruct (IH (clock + late) expired budget Hb Hpos)
        as (c' & x' & -> & ?).
      eexists _, _. split; [done|lia].
    + destruct (plan_budget rest) as [b|] eqn:E; [|done].
      injection Hb as <-.
      destruct (Z.ltb_spec d 0) as [?|_]; [lia|].
      destruct (IH (clock + d + late) expired b eq_refl Hpos)
        as (c' & x' & -> & ?).
      eexists _, _. split; [done|lia].
    + destruct (IH (clock + late) expired budget Hb Hpos)
        as (c' & x' & -> & ?).
      eexists _, _. split; [done|lia].
    + destruct (plan_budget rest) as [b|] eqn:E; [|done].
      injection Hb as <-. rewrite (Z.max_r 0 d) by lia.
      destruct (finish t) as [f|].
      * destruct (Z.leb_spec f (clock + d)).
        -- destruct (IH (Z.max clock f + late) expired b eq_refl Hpos)
             as (c' & x' & -> & ?).
           eexists _, _. split; [done|lia].
        -- destruct (IH (clock + d + late) (expired ++ [t]) b eq_refl Hpos)
             as (c' & x' & -> & ?).
           eexists _, _. split; [done|lia].
      * destruct (IH (clock + d + late) (expired ++ [t]) b eq_refl Hpos)
          as (c' & x' & -> & ?).
        eexists _, _. split; [done|lia].
    + done.
Qed.

(** A [join] without timeout on a worker that never terminates blocks,
    whatever the scheduling. *)
Lemma run_delayed_blocks finish delay plan : ∀ clock expired,
  Exists (λ a, ∃ t, a = Join t None ∧ finish t = None) plan →
  sleeps_valid plan →
  run_delayed finish delay plan clock expired = Blocked.
Proof.
  induction plan as [|a rest IH]; intros clock expired Hex Hvalid.
  - by apply Exists_nil in Hex.
  - apply Forall_cons in Hvalid as [Ha Hvalid]. cbn [run_delayed].
    apply Exists_cons in Hex as [(t & -> & Ht)|Hex]; [by rewrite Ht|].
    destruct (delay (length rest)) as [late|];
      [|destruct a as [t|d|e|t [d|]]; try done].
    + cbn [resume].
      destruct a as [t|d|e|t [d|]]; try by apply IH.
      * destruct (Z.ltb_spec d 0) as [?|_]; [lia|]. by apply IH.
      * destruct (finish t) as [f|]; [|by apply IH].
        destruct (f <=? _); by apply IH.
      * destruct (finish t); [by apply IH|done].
    + simpl in Ha. destruct (Z.ltb_spec d 0) as [?|_]; [lia|done].
    + destruct (finish t) as [f|]; [|done]. by destruct (f <=? _).
    + by destruct (finish t).
Qed.

(** A main thread that never runs again after one of its steps does not
    get through its plan, timeouts or not. *)
Lemma run_delayed_lock_kept finish delay plan : ∀ clock expired,
  (∃ k, (k < length plan)%nat ∧ delay k = None) →
  sleeps_valid plan →
  run_delayed finish delay plan clock expired = Blocked.
Proof.
  induction plan as [|a rest IH]; intros clock expired (k & Hk & Hnone)
    Hvalid.
  - simpl in Hk. lia.
  - apply Forall_cons in Hvalid as [Ha Hvalid]. cbn [run_delayed].
    assert (Hrest : ∀ c x, delay (length rest) ≠ None →
              run_delayed finish delay rest c x = Blocked).
    { intros c x Hsome. apply IH; [|done]. exists k. split; [|done].
      simpl in Hk. destruct (decide (k = length rest)) as [->|?];
        [done|lia]. }
    destruct (delay (length rest)) as [late|] eqn:Hlate; cbn [resume].
    + destruct a as [t|d|e|t [d|]]; try by apply Hrest.
      * destruct (Z.ltb_spec d 0) as [?|_]; [lia|]. by apply Hrest.
      * destruct (finish t) as [f|]; [|by apply Hrest].
        destruct (f <=? _); by apply Hrest.
      * destruct (finish t); [by apply Hrest|done].
    + destruct a as [t|d|e|t [d|]]; try done.
      * destruct (Z.ltb_spec d 0) as [?|_]; [lia|done].
      * destruct (finish t) as [f|]; [|done]. by destruct (f <=? _).
      * by destruct (finish t).
Qed.

(** The [start] calls take no time but the time lost. *)
Lemma run_delayed_starts finish delay ts rest : ∀ clock expired,
  scheduled delay →
  ∃ clock',
    clock <= clock' ∧
    run_delayed finish delay ((Start <$> ts) ++ rest) clock expired
    = run_delayed finish delay rest clock' expired.
Proof.
  intros clock expired Hsched. revert clock.
  induction ts as [|t ts IH]; intros clock.
  - exists clock. split; [lia|done].
  - cbn [fmap list_fmap app run_delayed].
    destruct (Hsched (length ((Start <$> ts) ++ rest)))
      as (late & -> & Hlate). cbn [resume].
    destruct (IH (clock + late)) as (c' & Hc' & ->).
    exists c'. split; [lia|done].
Qed.

Lemma plan_budget_is_Some plan :
  joins_timed plan → ∃ b, plan_budget plan = Some b.
Proof.
  induction plan as [|a rest IH]; intros Hall; simpl; [by eexists|].
  apply Forall_cons in Hall as [Ha Hall]. destruct (IH Hall) as [b Hb].
  destruct a as [t|d|e|t [d|]]; try done; rewrite Hb; by eexists.
Qed.

Lemma race_plan_budget : plan_budget race_plan = Some 2010.
Proof. reflexivity. Qed.

Lemma stop_flag_plan_timed num_threads duration :
  joins_timed (stop_flag_plan num_threads duration).
Proof.
  unfold stop_flag_plan. rewrite !Forall_app. split; [|split].
  - by apply Forall_fmap, Forall_true.
  - by repeat constructor.
  - by apply Forall_fmap, Forall_true.
Qed.

(** The stop-flag races: a negative duration makes [time.sleep] raise,
    after the workers were started; otherwise the main thread gets through
    its plan. *)
Lemma stop_flag_plan_runs finish delay num_threads duration :
  scheduled delay →
  if duration <? 0 then
    run_delayed finish delay (stop_flag_plan num_threads duration) 0 []
    = Failed ValueError
  else
    ∃ clock expired,
      run_delayed finish delay (stop_flag_plan num_threads duration) 0 []
      = Finished clock expired.
Proof.
  intros Hsched. destruct (Z.ltb_spec duration 0) as [Hneg|Hpos].
  - unfold stop_flag_plan.
    destruct (run_delayed_starts finish delay
                (seq 0 (Z.to_nat num_threads))
                ([Sleep duration; SetEvent stop_event]
                 ++ ((λ t, Join t (Some 1000))
                       <$> seq 0 (Z.to_nat num_threads)))
                0 [] Hsched) as (c & _ & ->).
    cbn [app run_delayed].
    destruct (Z.ltb_spec duration 0) as [_|?]; [done|lia].
  - destruct (plan_budget_is_Some _
                (stop_flag_plan_timed num_threads duration)) as [b Hb].
    destruct (run_delayed_finishes finish delay _ 0 [] b Hsched Hb)
      as (c & x & Hrun & _).
    + unfold stop_flag_plan. rewrite !Forall_app. split; [|split].
      * by apply Forall_fmap, Forall_true.
      * by repeat constructor.
      * apply Forall_fmap, Forall_true. intros t. simpl. lia.
    + by exists c, x.
Qed.

(** C3 (amended). The lifecycle-race scenario asks for each of its two
    joins with a timeout of one second, so that the waits it asks for add
    up to 2.01 s with the sleep. As long as the main thread is given the
    processor back after every step, it gets through its joins whatever
    the workers do, in the time asked for and the time it loses, which
    nothing bounds; the scenario then returns [True] or re-raises the first
    collected worker error, and an expired timeout is not reported: the
    result does not depend on it. A main thread that never runs again (a
    worker that keeps the interpreter lock) does not return from the
    scenario, timeouts or not. The three stop-flag races of
    [tricky_atomicref] and [tricky_threadhandle] join with the same
    timeout. *)
Theorem C3_lifecycle_joins_bounded (finish : behaviour)
    (delay : scheduling) (errors : list exc_class) :
  scheduled delay →
  joins_bounded 1000 race_plan ∧
  plan_budget race_plan = Some 2010 ∧
  (∃ clock expired,
     run_delayed finish delay race_plan 0 [] = Finished clock expired ∧
     clock <= 2010 + lost delay (length race_plan)) ∧
  race_condition_ref_vs_gc finish delay errors
  = match errors with e :: _ => Reraised e | [] => Survived end ∧
  (∀ finish' delay',
     scheduled delay' →
     race_condition_ref_vs_gc finish' delay' errors
     = race_condition_ref_vs_gc finish delay errors) ∧
  (∀ finish' delay' k,
     (k < length race_plan)%nat → delay' k = None →
     race_condition_ref_vs_gc finish' delay' errors = Hangs) ∧
  (∀ num_threads duration,
     joins_bounded 1000 (stop_flag_plan num_threads duration) ∧
     stop_flag_race finish delay errors num_threads duration ≠ Hangs).
Proof.
  intros Hsched.
  assert (Hrun : ∀ f dl, scheduled dl → ∃ clock expired,
            run_delayed f dl race_plan 0 [] = Finished clock expired ∧
            clock <= 2010 + lost dl (length race_plan)).
  { intros f dl Hdl.
    destruct (run_delayed_finishes f dl race_plan 0 [] 2010 Hdl
                race_plan_budget) as (c & x & Hc & ?).
    - repeat constructor; lia.
    - exists c, x. split; [done|lia]. }
  assert (Hres : ∀ f dl, scheduled dl →
            race_condition_ref_vs_gc f dl errors
            = match errors with e :: _ => Reraised e | [] => Survived end).
  { intros f dl Hdl. unfold race_condition_ref_vs_gc.
    destruct (Hrun f dl Hdl) as (c & x & -> & _). done. }
  split; [|split; [|split; [|split; [|split; [|split]]]]].
  - repeat constructor; eexists; (split; [done|lia]).
  - exact race_plan_budget.
  - by apply Hrun.
  - by apply Hres.
  - intros f' dl' Hdl'. by rewrite !Hres.
  - intros f' dl' k Hk Hnone. unfold race_condition_ref_vs_gc.
    rewrite run_delayed_lock_kept; [done|by exists k|].
    repeat constructor; lia.
  - intros num_threads duration. split.
    + unfold joins_bounded, stop_flag_plan.
      rewrite !Forall_app. split; [|split].
      * by apply Forall_fmap, Forall_true.
      * by repeat constructor.
      * apply Forall_fmap, Forall_true. intros t. simpl.
        eexists. split; [done|lia].
    + unfold stop_flag_race.
      pose proof (stop_flag_plan_runs finish delay num_threads duration
                    Hsched) as Hruns.
      destruct (duration <? 0).
      * by rewrite Hruns.
      * destruct Hruns as (c & x & ->). by destruct errors.
Qed.

Lemma C3_lifecycle_joins_bounded_witness :
  scheduled a_little_late ∧
  stop_flag_race stuck a_little_late [] 4 100 ≠ Hangs ∧
  race_condition_ref_vs_gc stuck a_little_late [ReferenceError]
  = Reraised ReferenceError.
Proof.
  pose proof a_little_late_scheduled as Hsched.
  pose proof (C3_lifecycle_joins_bounded stuck a_little_late
                [ReferenceError] Hsched)
    as (_ & _ & _ & Hres & _).
  pose proof (C3_lifecycle_joins_bounded stuck a_little_late [] Hsched)
    as (_ & _ & _ & _ & _ & _ & Hflag).
  split; [exact Hsched|]. split; [|exact Hres].
  exact (proj2 (Hflag 4 100)).
Defined.

(** C3 as stated fails on both scenarios. The iterator-vs-mutation race
    joins without timeout: with its default parameters and a worker that
    never terminates the scenario blocks for ever. In the lifecycle race
    both timeouts expire on workers that never terminate, and the scenario
    returns [True] as it does when they terminate at once: the expiry is not
    reported. Both runs are those of a main thread that loses no time. *)
Lemma C3_counterexample :
  fast_iter_vs_mutation_race stuck 4 2 200 = Hangs ∧
  ¬ joins_bounded 1000 (fast_iter_plan 4 2 200) ∧
  run_plan stuck race_plan 0 [] = Finished 2010 [g_thread; h_thread] ∧
  run_plan prompt race_plan 0 [] = Finished 10 [] ∧
  race_condition_ref_vs_gc stuck on_time [] = Survived ∧
  race_condition_ref_vs_gc prompt on_time [] = Survived.
Proof.
  split; [reflexivity|]. split; [|by repeat split].
  intros Hb. unfold joins_bounded in Hb.
  apply Forall_app in Hb as [_ Hb]. apply Forall_app in Hb as [_ Hb].
  apply Forall_cons in Hb as [(d & Hd & _) _]. discriminate.
Qed.

Lemma fast_iter_plan_valid num_iter_threads num_chaos_threads duration :
  0 <= duration →
  sleeps_valid (fast_iter_plan num_iter_threads num_chaos_threads duration).
Proof.
  intros Hd. unfold fast_iter_plan. rewrite !Forall_app. split; [|split].
  - by apply Forall_fmap, Forall_true.
  - by repeat constructor.
  - by apply Forall_fmap, Forall_true.
Qed.

(** The missing timeout is what blocks: any worker that never terminates
    blocks the iterator-vs-mutation race. *)
Lemma fast_iter_blocks finish num_iter_threads num_chaos_threads duration t :
  0 <= duration →
  (t < Z.to_nat num_iter_threads + Z.to_nat num_chaos_threads)%nat →
  finish t = None →
  fast_iter_vs_mutation_race finish num_iter_threads num_chaos_threads
    duration = Hangs.
Proof.
  intros Hd Ht Hstuck. unfold fast_iter_vs_mutation_race, run_plan.
  rewrite run_delayed_blocks; [done| |by apply fast_iter_plan_valid].
  unfold fast_iter_plan.
  rewrite !Exists_app. right. right. apply Exists_fmap, Exists_exists.
  exists t. split; [|by exists t].
  rewrite elem_of_app, !elem_of_seq. lia.
Qed.

End JoinPlansFacts.

(** ** Injected behaviours *)

Module WeirdCereggiiFacts.
Import WeirdCereggii.

Lemma copy_fresh o h :
  ∃ l', copy o h = (Ok (VRef l'), <[l' := o]> h) ∧ h !! l' = None.
Proof.
  exists (fresh (dom h)). split; [done|].
  apply not_elem_of_dom, is_fresh.
Qed.

Lemma container_at_Some h v o :
  container_at h v = Some o ↔
  ∃ l, v = VRef l ∧ h !! l = Some o ∧ is_container o = true.
Proof.
  unfold container_at. split.
  - destruct v as [| | | | |l]; try done.
    destruct (h !! l) as [o'|] eqn:E; [|done].
    destruct (is_container o') eqn:Ec; [|done].
    intros [= <-]. by exists l.
  - intros (l & -> & -> & ->). done.
Qed.

(** C10 (amended). The marker string ["self"] makes the behaviour return the
    receiving instance; a configured list, dict or set is never returned
    itself: each invocation returns a new object, at an address no object
    had, with the same elements (a shallow copy), so that whatever a caller
    stores into the returned container leaves the configured object, and
    what later invocations return, as they were; any other configured value
    is returned unchanged. Objects nested in the container are shared, not
    copied. *)
Theorem C10_wrong_typer_copies (return_value self : value)
    (method_name : string) (args : call_args) (h : heap) :
  (return_value = VStr "self" →
   make_wrong_typer return_value method_name self args h = (Ok self, h)) ∧
  (∀ l o, return_value = VRef l → h !! l = Some o →
          is_container o = true →
     ∃ l', make_wrong_typer return_value method_name self args h
           = (Ok (VRef l'), <[l' := o]> h) ∧
           h !! l' = None ∧ l' ≠ l ∧
           ∀ o', let h' := <[l' := o']> (<[l' := o]> h) in
                 h' !! l = Some o ∧
                 ∃ l'', make_wrong_typer return_value method_name self args h'
                        = (Ok (VRef l''), <[l'' := o]> h') ∧
                        l'' ≠ l' ∧ l'' ≠ l) ∧
  (is_self_marker return_value = false →
   container_at h return_value = None →
   make_wrong_typer return_value method_name self args h
   = (Ok return_value, h)).
Proof.
  split; [|split].
  - by intros ->.
  - intros l o -> Hl Ho.
    assert (Hcall : ∀ h0, h0 !! l = Some o →
      ∃ l', make_wrong_typer (VRef l) method_name self args h0
            = (Ok (VRef l'), <[l' := o]> h0) ∧ h0 !! l' = None ∧ l' ≠ l).
    { intros h0 Hh0. unfold make_wrong_typer. simpl. rewrite Hh0, Ho.
      destruct (copy_fresh o h0) as (l' & -> & Hfresh).
      exists l'. split; [done|]. split; [done|]. congruence. }
    destruct (Hcall h Hl) as (l' & Hret & Hfresh & Hne).
    exists l'. split; [done|]. split; [done|]. split; [done|].
    intros o' h'.
    assert (Hconf : h' !! l = Some o).
    { subst h'. by rewrite !lookup_insert_ne. }
    split; [done|].
    destruct (Hcall h' Hconf) as (l'' & Hret' & Hfresh' & Hne').
    exists l''. split; [done|]. split; [|done].
    intros ->. subst h'. by rewrite lookup_insert_eq in Hfresh'.
  - intros Hself Hnone. unfold make_wrong_typer. by rewrite Hself, Hnone.
Qed.

Lemma C10_wrong_typer_copies_witness :
  let h := <[1%positive := OSet [VInt 7]]> (∅ : heap) in
  h !! 1%positive = Some (OSet [VInt 7]) ∧
  is_container (OSet [VInt 7]) = true ∧
  ∃ l', make_wrong_typer (VRef 1%positive) "get" VNone no_args h
        = (Ok (VRef l'), <[l' := OSet [VInt 7]]> h) ∧
        l' ≠ 1%positive.
Proof.
  intros h.
  assert (Hl : h !! 1%positive = Some (OSet [VInt 7])) by reflexivity.
  assert (Ho : is_container (OSet [VInt 7]) = true) by reflexivity.
  split; [exact Hl|]. split; [exact Ho|].
  pose proof (C10_wrong_typer_copies (VRef 1%positive) VNone "get" no_args h)
    as (_ & Hcopy & _).
  destruct (Hcopy 1%positive (OSet [VInt 7]) eq_refl Hl Ho)
    as (l' & Hret & _ & Hne & _).
  exists l'. split; [exact Hret|exact Hne].
Defined.

(** C10 as stated fails: the configured value is a list holding a list; the
    first caller appends to the inner list through the copy it was given;
    the next invocation then returns a value different from the one
    configured. *)
Lemma C10_counterexample :
  let configured := VRef 2%positive in
  let call := make_wrong_typer configured "get" VNone no_args in
  reify 3 nested_heap configured = TList [TList [TAtom (VInt 1)]] ∧
  ∃ first h1 inner second h3,
    call nested_heap = (Ok (VRef first), h1) ∧
    first ≠ 2%positive ∧
    list_getitem first 0 h1 = Some (VRef inner) ∧
    call (list_append inner (VInt 2) h1) = (Ok (VRef second), h3) ∧
    reify 3 h3 (VRef second)
    = TList [TList [TAtom (VInt 1); TAtom (VInt 2)]].
Proof.
  split; [reflexivity|].
  eexists _, _, _, _, _.
  split; [by vm_compute|]. split; [done|]. split; [by vm_compute|].
  split; by vm_compute.
Qed.

Example wrong_typer_self :
  make_wrong_typer (VStr "self") "get" (VRef 9%positive) no_args ∅
  = (Ok (VRef 9%positive), ∅).
Proof. reflexivity. Qed.

Example wrong_typer_int :
  make_wrong_typer (VInt 12345) "get" (VRef 9%positive) no_args ∅
  = (Ok (VInt 12345), ∅).
Proof. reflexivity. Qed.

(** *** [super_caller_abuse] *)

Section super_caller_facts.
Variable getattr_super : string → value → M attribute.
Variables (method_name : string) (self : value) (args : call_args).

Abbreviation abuse := (super_caller_abuse getattr_super method_name self args).

Lemma handled_unfold e h :
  handled e h
  = if is_Exception (exc_cls e) then (Ok (VExc e), h) else (Raise e, h).
Proof. reflexivity. Qed.

Lemma abuse_lookup_raises h e h1 :
  getattr_super method_name self h = (Raise e, h1) →
  abuse h = handled e h1.
Proof.
  intros Hget. rewrite handled_unfold. unfold super_caller_abuse, try_except_Exception.
  unfold mbind, M_bind. by rewrite Hget.
Qed.

Lemma abuse_not_callable h a h1 :
  getattr_super method_name self h = (Ok a, h1) →
  (∀ m, a ≠ Callable m) →
  abuse h = (Ok VNone, h1).
Proof.
  intros Hget Hnc. unfold super_caller_abuse, try_except_Exception.
  unfold mbind, M_bind. rewrite Hget.
  destruct a as [|v|m]; [done|done|]. by destruct (Hnc m).
Qed.

Lemma abuse_first_call_raises h m h1 e h2 :
  getattr_super method_name self h = (Ok (Callable m), h1) →
  m args h1 = (Raise e, h2) →
  abuse h = handled e h2.
Proof.
  intros Hget H1. rewrite handled_unfold. unfold super_caller_abuse, try_except_Exception.
  unfold mbind, M_bind. by rewrite Hget, H1.
Qed.

Lemma abuse_second_call_raises h m h1 v1 h2 e h3 :
  getattr_super method_name self h = (Ok (Callable m), h1) →
  m args h1 = (Ok v1, h2) →
  m args h2 = (Raise e, h3) →
  abuse h = handled e h3.
Proof.
  intros Hget H1 H2. rewrite handled_unfold. unfold super_caller_abuse, try_except_Exception.
  unfold mbind, M_bind. by rewrite Hget, H1, H2.
Qed.

Lemma abuse_bogus_call_raises h m h1 v1 h2 v2 h3 e h4 :
  getattr_super method_name self h = (Ok (Callable m), h1) →
  m args h1 = (Ok v1, h2) →
  m args h2 = (Ok v2, h3) →
  m bogus_args h3 = (Raise e, h4) →
  abuse h = handled e h4.
Proof.
  intros Hget H1 H2 H3. rewrite handled_unfold.
  unfold super_caller_abuse, try_except_Exception.
  unfold mbind, M_bind. by rewrite Hget, H1, H2, H3.
Qed.

Lemma abuse_no_call_raises h m h1 v1 h2 v2 h3 v3 h4 :
  getattr_super method_name self h = (Ok (Callable m), h1) →
  m args h1 = (Ok v1, h2) →
  m args h2 = (Ok v2, h3) →
  m bogus_args h3 = (Ok v3, h4) →
  abuse h = (Ok VNone, h4).
Proof.
  intros Hget H1 H2 H3. unfold super_caller_abuse, try_except_Exception.
  unfold mbind, M_bind. by rewrite Hget, H1, H2, H3.
Qed.

(** Whatever the base class does, the behaviour returns [None], returns an
    instance of [Exception], or lets through an exception that is not one. *)
Lemma abuse_results h :
  (∃ h', abuse h = (Ok VNone, h')) ∨
  (∃ e h', abuse h = (Ok (VExc e), h') ∧ is_Exception (exc_cls e) = true) ∨
  (∃ e h', abuse h = (Raise e, h') ∧ is_Exception (exc_cls e) = false).
Proof.
  assert (Hh : ∀ e h', abuse h = handled e h' →
    (∃ e h', abuse h = (Ok (VExc e), h') ∧ is_Exception (exc_cls e) = true) ∨
    (∃ e h', abuse h = (Raise e, h') ∧ is_Exception (exc_cls e) = false)).
  { intros e h' ->. rewrite handled_unfold.
    destruct (is_Exception (exc_cls e)) eqn:E; [left|right]; by eexists _, _. }
  destruct (getattr_super method_name self h) as [[a|e] h1] eqn:Hget.
  - destruct a as [|v|m].
    + left. eexists. by eapply abuse_not_callable.
    + left. eexists. by eapply abuse_not_callable.
    + destruct (m args h1) as [[v1|e] h2] eqn:H1.
      * destruct (m args h2) as [[v2|e] h3] eqn:H2.
        -- destruct (m bogus_args h3) as [[v3|e] h4] eqn:H3.
           ++ left. eexists. by eapply abuse_no_call_raises.
           ++ right. eapply Hh. by eapply abuse_bogus_call_raises.
        -- right. eapply Hh. by eapply abuse_second_call_raises.
      * right. eapply Hh. by eapply abuse_first_call_raises.
  - right. eapply Hh. by eapply abuse_lookup_raises.
Qed.

End super_caller_facts.




(** *** The variant-generation loop *)

Lemma foldl_insert_list_to_map (l : list (string * value)) :
  ∀ catalog : gmap string value,
  NoDup l.*1 →
  foldl (λ c p, <[p.1 := p.2]> c) catalog l = list_to_map l ∪ catalog.
Proof.
  induction l as [|[k v] l IH]; intros catalog Hnd; simpl.
  - by rewrite (left_id_L ∅ (∪)).
  - apply NoDup_cons in Hnd as [Hk Hnd]. rewrite IH by done.
    rewrite <- insert_union_l. symmetry. apply insert_union_r.
    by apply not_elem_of_list_to_map_1.
Qed.

Lemma NoDup_fmap_elem_inj {A B} (f : A → B) (l : list A) x y :
  NoDup (f <$> l) → x ∈ l → y ∈ l → f x = f y →
  ∃ i, l !! i = Some x ∧ l !! i = Some y.
Proof.
  intros Hnd [i Hi]%list_elem_of_lookup [j Hj]%list_elem_of_lookup Hf.
  assert (i = j) as ->.
  { eapply NoDup_lookup; [exact Hnd| |].
    - by rewrite list_lookup_fmap, Hi.
    - by rewrite list_lookup_fmap, Hj, Hf. }
  by exists j.
Qed.

Lemma created_all (classes : list (outcome weird_class)) :
  forallb is_created classes = true ↔ ∀ e, Raise e ∉ classes.
Proof.
  induction classes as [|[wc|e] rest IH]; simpl.
  - split; [|done]. intros _ e He. by apply elem_of_nil in He.
  - rewrite IH. split.
    + intros Hrest e [?|He]%elem_of_cons; [done|]. by apply (Hrest e).
    + intros Hall e He. apply (Hall e). by right.
  - split; [done|]. intros Hall. exfalso. apply (Hall e). by left.
Qed.

Section generation_facts.
Variable construct : weird_class → list value → outcome value.

Abbreviation made wc := (construct wc (constructor_args (wc_base wc))).

(** The catalog and the lines printed when the passes over [classes] are
    all completed. *)
Abbreviation catalog_after classes catalog :=
  (foldl (λ c p, <[p.1 := p.2]> c) catalog
     (successes construct (created classes))).

Lemma generate_built classes : ∀ catalog stderr,
  (∀ e, Raise e ∉ classes) →
  failures_are_Exceptions construct (created classes) →
  generate construct classes catalog stderr
  = Built (catalog_after classes catalog)
          (stderr ++ failures construct (created classes)).
Proof.
  induction classes as [|[wc|e0] rest IH]; intros catalog stderr Hall Hexc.
  - simpl. by rewrite app_nil_r.
  - assert (Hrest : failures_are_Exceptions construct (created rest)).
    { intros wc' e Hin. apply Hexc. by right. }
    assert (Hall' : ∀ e, Raise e ∉ rest).
    { intros e He. apply (Hall e). by right. }
    simpl. destruct (made wc) as [instance|e] eqn:Hmade.
    + by rewrite IH.
    + rewrite (Hexc wc e ltac:(by left) Hmade), IH by done.
      by rewrite <- app_assoc.
  - exfalso. apply (Hall e0). by left.
Qed.

(** The loop is cut short by the first class that cannot be made, whatever
    is raised then: the passes before it are completed, none after it is
    run, and nothing is printed for it. *)
Lemma generate_class_refused pre e post : ∀ catalog stderr,
  (∀ e', Raise e' ∉ pre) →
  failures_are_Exceptions construct (created pre) →
  generate construct (pre ++ Raise e :: post) catalog stderr
  = Aborted e (catalog_after pre catalog)
            (stderr ++ failures construct (created pre)).
Proof.
  induction pre as [|[wc|e0] rest IH]; intros catalog stderr Hall Hexc.
  - simpl. by rewrite app_nil_r.
  - assert (Hrest : failures_are_Exceptions construct (created rest)).
    { intros wc' e' Hin. apply Hexc. by right. }
    assert (Hall' : ∀ e', Raise e' ∉ rest).
    { intros e' He. apply (Hall e'). by right. }
    simpl. destruct (made wc) as [instance|e1] eqn:Hmade.
    + by rewrite IH.
    + rewrite (Hexc wc e1 ltac:(by left) Hmade), IH by done.
      by rewrite <- app_assoc.
  - exfalso. apply (Hall e0). by left.
Qed.

Lemma successes_names classes :
  (successes construct classes).*1
  `sublist_of` instance_name <$> classes.
Proof.
  induction classes as [|wc rest IH]; simpl; [done|].
  destruct (made wc); simpl; by constructor.
Qed.

Lemma successes_failures_length classes :
  (length (successes construct classes)
   + length (failures construct classes) = length classes)%nat.
Proof.
  induction classes as [|wc rest IH]; simpl; [done|].
  destruct (made wc); simpl; lia.
Qed.

Lemma elem_of_successes classes name instance :
  (name, instance) ∈ successes construct classes ↔
  ∃ wc, wc ∈ classes ∧ name = instance_name wc ∧ made wc = Ok instance.
Proof.
  unfold successes. rewrite list_elem_of_omap. split.
  - intros (wc & Hin & Hf). exists wc. split; [done|].
    destruct (made wc); [|done]. by injection Hf as <- <-.
  - intros (wc & Hin & -> & Hm). exists wc. split; [done|]. by rewrite Hm.
Qed.

(** The loop, for any list of classes with distinct instance names. *)
Lemma generate_catalog classes :
  NoDup (instance_name <$> created classes) →
  (∀ e, Raise e ∉ classes) →
  failures_are_Exceptions construct (created classes) →
  ∃ catalog stderr,
    generate construct classes ∅ [] = Built catalog stderr ∧
    (∀ name instance,
       catalog !! name = Some instance ↔
       ∃ wc, wc ∈ created classes ∧ name = instance_name wc ∧
             made wc = Ok instance) ∧
    size catalog = length (successes construct (created classes)) ∧
    stderr = failures construct (created classes) ∧
    (∀ wc e, wc ∈ created classes → made wc = Raise e →
             catalog !! instance_name wc = None ∧
             CouldNotInstantiate (wc_name wc) e ∈ stderr) ∧
    (length (successes construct (created classes))
     + length (failures construct (created classes))
     = length classes)%nat.
Proof.
  intros Hnd Hall Hexc.
  assert (Hnd' : NoDup (successes construct (created classes)).*1).
  { eapply sublist_NoDup; [exact Hnd|apply successes_names]. }
  assert (Hlook : ∀ name instance,
    (list_to_map (successes construct (created classes))
       : gmap string value) !! name = Some instance ↔
    ∃ wc, wc ∈ created classes ∧ name = instance_name wc ∧
          made wc = Ok instance).
  { intros name instance. rewrite <- elem_of_list_to_map by done.
    apply elem_of_successes. }
  assert (Hlen : length (created classes) = length classes).
  { clear -Hall. induction classes as [|[wc|e] rest IH]; simpl; [done| |].
    - rewrite IH; [done|]. intros e He. apply (Hall e). by right.
    - exfalso. apply (Hall e). by left. }
  eexists _, _. split; [by apply generate_built|].
  rewrite foldl_insert_list_to_map, (right_id_L ∅ (∪)) by done.
  split; [exact Hlook|]. split; [by apply map_size_list_to_map|].
  split; [done|].
  split; [|by rewrite successes_failures_length].
  intros wc e Hin Hm. split.
  - destruct (list_to_map (successes construct (created classes))
                !! instance_name wc) as [instance|] eqn:E; [|done].
    apply Hlook in E as (wc' & Hin' & Hname & Hm').
    destruct (NoDup_fmap_elem_inj instance_name (created classes) wc wc'
                Hnd Hin Hin' Hname) as (i & Hi & Hi').
    assert (wc = wc') as -> by congruence. congruence.
  - simpl. unfold failures. apply list_elem_of_omap.
    exists wc. split; [done|]. by rewrite Hm.
Qed.

End generation_facts.

(** The classes made are among those of a subject whose classes can all be
    subclassed, in the same order. *)
Lemma created_sublist new_type behaviors :
  created (weird_classes new_type behaviors)
  `sublist_of` created (weird_classes any_base behaviors).
Proof.
  unfold weird_classes.
  induction (combinations behaviors) as [|[[base m] [bn bf]] rest IH];
    [done|].
  cbn [fmap list_fmap created omap list_omap]. unfold create_weird_subclass.
  cbn [any_base].
  destruct (new_type _ base m); by constructor.
Qed.

(** The instance names of the generated classes are pairwise distinct. *)
Lemma instance_names_NoDup new_type getattr_super _HAS_DEPS :
  NoDup (instance_name
           <$> created (weird_classes new_type
                          (malicious_behaviors getattr_super _HAS_DEPS))).
Proof.
  eapply sublist_NoDup; [|apply fmap_sublist, created_sublist].
  destruct _HAS_DEPS; apply (bool_decide_unpack _); vm_compute; exact I.
Qed.

Lemma weird_classes_count new_type getattr_super _HAS_DEPS :
  length (weird_classes new_type
            (malicious_behaviors getattr_super _HAS_DEPS))
  = if _HAS_DEPS then 150%nat else 135%nat.
Proof. unfold weird_classes. rewrite length_fmap. by destruct _HAS_DEPS. Qed.


Lemma construct_no_latch_Exceptions classes :
  failures_are_Exceptions construct_no_latch classes.
Proof.
  intros wc e _. unfold construct_no_latch.
  destruct (wc_base wc); [done| |done]. by intros [= <-].
Qed.



End WeirdCereggiiFacts.

(** ** [scenario_random_ops] *)

Module StatefulScenariosFacts.
Import StatefulScenarios.

Section scenario_facts.
Context `{Mapping D} `{Mapping M}.

(** An operation that succeeds on the subject is applied to the model, with
    the same key and value; when it succeeds there too, nothing is printed. *)
Lemma try_step_both (o : op) (d : D) (model : M) d' model' :
  apply_op o d = (None, d') →
  apply_op o model = (None, model') →
  try_step o d model = StepDone d' model' [].
Proof. intros Hd Hm. unfold try_step. by rewrite Hd, Hm. Qed.

(** When the operation succeeds on the subject, the model has been through
    the same operation: once, or twice when it raised and the handler asked
    again. *)
Lemma try_step_model (o : op) (d : D) (model : M) d' d2 model2 printed :
  apply_op o d = (None, d') →
  try_step o d model = StepDone d2 model2 printed →
  d2 = d' ∧
  (model2 = (apply_op o model).2 ∨
   model2 = (apply_op o (apply_op o model).2).2).
Proof.
  intros Hd. unfold try_step, handler. rewrite Hd.
  destruct (apply_op o model) as [[e|] m1]; simpl;
    [|intros [= <- <- _]; by split; [|left]].
  destruct (caught e); [|done].
  destruct o as [k v|k|k|]; simpl.
  - intros [= <- <- _]. by split; [|left].
  - destruct (m_getitem k m1) as [[me|] m2];
      [destruct (is_Exception me); [|done]|];
      intros [= <- <- _]; by split; [|right].
  - destruct (m_delitem k m1) as [[me|] m2];
      [destruct (is_Exception me); [|done]|];
      intros [= <- <- _]; by split; [|right].
  - intros [= <- <- _]. by split; [|left].
Qed.

(** In every case the subject is left as its own operation left it. *)
Lemma try_step_subject (o : op) (d : D) (model : M) d' model' printed :
  try_step o d model = StepDone d' model' printed →
  d' = (apply_op o d).2.
Proof.
  unfold try_step, handler.
  destruct (apply_op o d) as [[e|] d1]; simpl.
  - destruct (caught e); [|done].
    destruct (match o with getitem _ | delitem _ => _ | _ => _ end)
      as [[me|] m1]; [destruct (is_Exception me)|]; by intros [= <- _ _].
  - destruct (apply_op o model) as [[e|] m1]; [|by intros [= <- _ _]].
    destruct (caught e); [|done].
    destruct (match o with getitem _ | delitem _ => _ | _ => _ end)
      as [[me|] m2]; [destruct (is_Exception me)|]; by intros [= <- _ _].
Qed.

Lemma consistent_run_app (pre post : list op) : ∀ (d : D) (model : M),
  consistent_run (pre ++ post) d model
  = match consistent_run pre d model with
    | Some (d', model') => consistent_run post d' model'
    | None => None
    end.
Proof.
  induction pre as [|o pre IH]; intros d model; simpl; [done|].
  destruct (try_step o d model) as [d' model' printed|e]; [|done].
  by destruct (bool_decide (m_len d' = m_len model')).
Qed.

(** After a consistent run of at least one step the lengths agree. *)
Lemma consistent_run_lengths (ops : list op) : ∀ (d : D) (model : M) d' model',
  ops ≠ [] →
  consistent_run ops d model = Some (d', model') →
  m_len d' = m_len model'.
Proof.
  induction ops as [|o rest IH]; intros d model d' model' Hne Hrun; [done|].
  simpl in Hrun.
  destruct (try_step o d model) as [d1 m1 printed|e]; [|done].
  destruct (bool_decide_reflect (m_len d1 = m_len m1)) as [Hlen|]; [|done].
  destruct rest as [|o' rest].
  - simpl in Hrun. by injection Hrun as <- <-.
  - by eapply IH.
Qed.

(** The three ways the loop can end, each with what led to it. *)
Lemma run_steps_spec (ops : list op) : ∀ step (d : D) (model : M) stderr,
  match run_steps ops step d model stderr with
  | Returns true d' model' _ =>
      consistent_run ops d model = Some (d', model')
  | Returns false d' model' stderr' =>
      ∃ pre o post d1 model1 printed,
        ops = pre ++ o :: post ∧
        consistent_run pre d model = Some (d1, model1) ∧
        try_step o d1 model1 = StepDone d' model' printed ∧
        m_len d' ≠ m_len model' ∧
        last stderr'
        = Some (FatalLengthMismatch (step + length pre) o
                  (m_len d') (m_len model'))
  | Propagates e =>
      ∃ pre o post d1 model1,
        ops = pre ++ o :: post ∧
        consistent_run pre d model = Some (d1, model1) ∧
        try_step o d1 model1 = StepEscapes e
  end.
Proof.
  induction ops as [|o rest IH]; intros step d model stderr; simpl; [done|].
  destruct (try_step o d model) as [d1 m1 printed|e] eqn:Hstep.
  - destruct (bool_decide_reflect (m_len d1 ≠ m_len m1)) as [Hne|Heq].
    + exists [], o, rest, d, model, printed. simpl.
      rewrite Nat.add_0_r, !app_assoc, last_snoc. done.
    + assert (Hlen : m_len d1 = m_len m1).
      { destruct (decide (m_len d1 = m_len m1)); [done|by destruct Heq]. }
      rewrite (bool_decide_eq_true_2 _ Hlen).
      specialize (IH (S step) d1 m1 (stderr ++ printed)).
      destruct (run_steps rest (S step) d1 m1 (stderr ++ printed))
        as [[|] d' model' stderr'|e]; [done| |].
      * destruct IH as (pre & o' & post & d2 & m2 & pr & -> & Hpre & ? & ? & Hl).
        exists (o :: pre), o', post, d2, m2, pr. simpl.
        rewrite Hstep, (bool_decide_eq_true_2 _ Hlen).
        replace (step + S (length pre))%nat with (S step + length pre)%nat
          by lia. done.
      * destruct IH as (pre & o' & post & d2 & m2 & -> & Hpre & ?).
        exists (o :: pre), o', post, d2, m2. simpl.
        by rewrite Hstep, (bool_decide_eq_true_2 _ Hlen).
  - by exists [], o, rest, d, model.
Qed.

Lemma run_steps_consistent (ops : list op) : ∀ step (d : D) (model : M) stderr d' model',
  consistent_run ops d model = Some (d', model') →
  ∃ stderr', run_steps ops step d model stderr
             = Returns true d' model' stderr'.
Proof.
  induction ops as [|o rest IH]; intros step d model stderr d' model' Hrun;
    simpl in *.
  - injection Hrun as <- <-. by eexists.
  - destruct (try_step o d model) as [d1 m1 printed|e]; [|done].
    destruct (bool_decide_reflect (m_len d1 = m_len m1)) as [Hlen|]; [|done].
    rewrite bool_decide_eq_false_2 by (by intros ?). by apply IH.
Qed.

Lemma run_steps_diverges (pre : list op) o post :
  ∀ step (d : D) (model : M) stderr d1 model1 d' model' printed,
  consistent_run pre d model = Some (d1, model1) →
  try_step o d1 model1 = StepDone d' model' printed →
  m_len d' ≠ m_len model' →
  ∃ stderr', run_steps (pre ++ o :: post) step d model stderr
             = Returns false d' model' stderr'.
Proof.
  induction pre as [|o0 pre IH];
    intros step d model stderr d1 m1 d' model' printed Hpre Hstep Hne;
    simpl in *.
  - injection Hpre as <- <-. rewrite Hstep, bool_decide_eq_true_2 by done.
    by eexists.
  - destruct (try_step o0 d model) as [d2 m2 printed0|e]; [|done].
    destruct (bool_decide_reflect (m_len d2 = m_len m2)) as [Hlen|]; [|done].
    rewrite bool_decide_eq_false_2 by (by intros ?). by eapply IH.
Qed.

End scenario_facts.

(** C9. The scenario keeps a standard [dict] as a model next to the subject
    map; an operation of the random sequence that succeeds on the subject is
    applied to the model with the same key and value (twice when the model
    raised and the handler asked again); after every step that
    completes the two lengths are compared; the scenario returns [False] at
    the first step after which they differ, without running the later steps
    (its last line names that step), and it returns [True] exactly when the
    lengths agreed after every step. *)
Theorem C9_random_ops_model_check `{Mapping D} `{Mapping M}
    (new_d : D) (new_model : M) (ops : list op) :
  (∀ o d model d' model',
     apply_op o d = (None, d') → apply_op o model = (None, model') →
     try_step o d model = StepDone d' model' []) ∧
  (∀ o d model d' d2 model2 printed,
     apply_op o d = (None, d') →
     try_step o d model = StepDone d2 model2 printed →
     d2 = d' ∧
     (model2 = (apply_op o model).2 ∨
      model2 = (apply_op o (apply_op o model).2).2)) ∧
  (∀ d' model',
     (∃ stderr, scenario_random_ops new_d new_model ops
                = Returns true d' model' stderr) ↔
     consistent_run ops new_d new_model = Some (d', model')) ∧
  (∀ d' model' stderr,
     scenario_random_ops new_d new_model ops
     = Returns false d' model' stderr →
     ∃ pre o post d1 model1 printed,
       ops = pre ++ o :: post ∧
       consistent_run pre new_d new_model = Some (d1, model1) ∧
       (pre ≠ [] → m_len d1 = m_len model1) ∧
       try_step o d1 model1 = StepDone d' model' printed ∧
       m_len d' ≠ m_len model' ∧
       last stderr
       = Some (FatalLengthMismatch (length pre) o
                 (m_len d') (m_len model'))) ∧
  (∀ pre o post d1 model1 d' model' printed,
     ops = pre ++ o :: post →
     consistent_run pre new_d new_model = Some (d1, model1) →
     try_step o d1 model1 = StepDone d' model' printed →
     m_len d' ≠ m_len model' →
     ∃ stderr, scenario_random_ops new_d new_model ops
               = Returns false d' model' stderr).
Proof.
  unfold scenario_random_ops. split; [|split; [|split; [|split]]].
  - intros o d model d' model'. apply try_step_both.
  - intros o d model d' d2 model2 printed. apply try_step_model.
  - intros d' model'. split.
    + intros [stderr Hrun].
      pose proof (run_steps_spec ops 0 new_d new_model []) as Hspec.
      by rewrite Hrun in Hspec.
    + apply run_steps_consistent.
  - intros d' model' stderr Hrun.
    pose proof (run_steps_spec ops 0 new_d new_model []) as Hspec.
    rewrite Hrun in Hspec.
    destruct Hspec as (pre & o & post & d1 & m1 & pr & ? & Hpre & ? & ? & ?).
    exists pre, o, post, d1, m1, pr. repeat (split; [done|]).
    split; [|done]. intros Hne. by eapply consistent_run_lengths.
  - intros pre o post d1 m1 d' model' printed -> Hpre Hstep Hne.
    by eapply run_steps_diverges.
Qed.

(** Set a key, delete it: the leaky subject keeps it, the lengths differ
    after the second step and the third step is not run. *)
Lemma C9_random_ops_model_check_witness :
  let ops := [setitem (KInt 1) 10; delitem (KInt 1); setitem (KInt 2) 20] in
  let d1 := {| leaky_items := {[1 := 10]} |} in
  let model1 : gmap Z val := {[1 := 10]} in
  consistent_run (D := leaky_dict) (M := gmap Z val)
    [setitem (KInt 1) 10] {| leaky_items := ∅ |} ∅ = Some (d1, model1) ∧
  try_step (delitem (KInt 1)) d1 model1 = StepDone d1 ∅ [] ∧
  m_len d1 ≠ m_len (∅ : gmap Z val) ∧
  ∃ stderr, scenario_random_ops {| leaky_items := ∅ |} (∅ : gmap Z val) ops
            = Returns false d1 ∅ stderr.
Proof.
  intros ops d1 model1.
  assert (Hpre : consistent_run (D := leaky_dict) (M := gmap Z val)
            [setitem (KInt 1) 10] {| leaky_items := ∅ |} ∅
            = Some (d1, model1)) by reflexivity.
  assert (Hstep : try_step (delitem (KInt 1)) d1 model1 = StepDone d1 ∅ [])
    by reflexivity.
  assert (Hne : m_len d1 ≠ m_len (∅ : gmap Z val)) by (by vm_compute).
  split; [exact Hpre|]. split; [exact Hstep|]. split; [exact Hne|].
  pose proof (C9_random_ops_model_check (D := leaky_dict) (M := gmap Z val)
                {| leaky_items := ∅ |} ∅ ops) as (_ & _ & _ & _ & Hfalse).
  exact (Hfalse [setitem (KInt 1) 10] (delitem (KInt 1))
           [setitem (KInt 2) 20] d1 model1 d1 ∅ [] eq_refl Hpre Hstep Hne).
Defined.

Example random_ops_consistent :
  scenario_random_ops (D := gmap Z val) (M := gmap Z val) ∅ ∅
    [setitem (KInt 1) 10; getitem (KInt 5); delitem (KInt 1); len;
     setitem (KUnhashable 0) 3]
  = Returns true ∅ ∅ [ErrorModelDidNotRaise TypeError].
Proof. reflexivity. Qed.

Example random_ops_leaky :
  scenario_random_ops (D := leaky_dict) (M := gmap Z val)
    {| leaky_items := ∅ |} ∅
    [setitem (KInt 1) 10; delitem (KInt 1); setitem (KInt 2) 20]
  = Returns false {| leaky_items := {[1 := 10]} |} ∅
      [FatalLengthMismatch 1 (delitem (KInt 1)) 1 0].
Proof. reflexivity. Qed.

End StatefulScenariosFacts.

(** ** More on [generate_colliding_keys] *)

Module CollidingKeysReportFacts.
Import CollidingKeys CollidingKeysReport CollidingKeysFacts.

Section first_keys_facts.
Variable rehash : Z → Z.
Variables log_size num kpb : Z.

Abbreviation bucket_of := (bucket_of rehash log_size).
Abbreviation record_candidate := (record_candidate num kpb).
Abbreviation search := (search rehash log_size num kpb).
Abbreviation search_inv := (search_inv rehash log_size num kpb).
Abbreviation first_keys := (first_keys rehash log_size num kpb).

Lemma record_candidate_first_keys i bucket s :
  0 <= i → bucket_of i = Some bucket →
  search_inv i s → first_keys i (results s) →
  first_keys (i + 1) (results (record_candidate i bucket s)).
Proof.
  intros Hi Hb [Hall _] Hfirst c b Hc Hcb Hlt.
  unfold CollidingKeys.record_candidate.
  destruct (decide (c = i)) as [->|Hne].
  - assert (b = bucket) as -> by congruence.
    destruct (Z.ltb_spec bucket num) as [_|?]; [|lia].
    set (cur := default [] (results s !! bucket)).
    assert (Hcur : ∀ k, k ∈ cur → k < i).
    { subst cur. destruct (results s !! bucket) as [keys|] eqn:E; simpl.
      - intros k Hk. destruct (Hall bucket keys E) as (_ & _ & _ & _ & Hin).
        destruct (Hin k Hk). lia.
      - intros k Hk. by apply elem_of_nil in Hk. }
    destruct (Z.ltb_spec (Z.of_nat (length cur)) kpb) as [Hroom|Hfull]; simpl.
    + rewrite lookup_insert_eq. eexists. split; [done|]. left.
      apply elem_of_app. right. by apply list_elem_of_singleton.
    + rewrite lookup_insert_eq. eexists. split; [done|]. by right.
  - destruct (Hfirst c b ltac:(lia) Hcb Hlt) as (keys & Hkeys & Hcase).
    destruct (Z.ltb_spec bucket num) as [Hbucket|?]; [|by eauto].
    destruct (decide (b = bucket)) as [->|Hnb].
    + rewrite Hkeys. simpl.
      destruct (Z.ltb_spec (Z.of_nat (length keys)) kpb) as [Hroom|Hfull];
        simpl; rewrite lookup_insert_eq.
      * eexists. split; [done|]. left. destruct Hcase as [Hin|[? _]]; [|lia].
        apply elem_of_app. by left.
      * by eauto.
    + destruct (_ <? kpb); simpl; rewrite lookup_insert_ne by done; by eauto.
Qed.

Lemma search_first_keys n : ∀ i s,
  0 <= i → search_inv i s → first_keys i (results s) →
  match search n i s with
  | Broke j s' => first_keys (j + 1) (results s')
  | Exhausted s' => first_keys (i + Z.of_nat n) (results s')
  | LoopRaise _ => True
  end.
Proof.
  induction n as [|n IH]; intros i s Hi Hinv Hfirst; simpl.
  - by rewrite Z.add_0_r.
  - unfold loop_body. destruct (bucket_of i) as [bucket|] eqn:Hb; [|done].
    pose proof (record_candidate_inv rehash log_size num kpb i bucket s
                  Hi Hb Hinv) as Hinv'.
    pose proof (record_candidate_first_keys i bucket s Hi Hb Hinv Hfirst)
      as Hfirst'.
    destruct (stop_condition num kpb (record_candidate i bucket s)); [done|].
    specialize (IH (i + 1) _ ltac:(lia) Hinv' Hfirst').
    destruct (search n (i + 1) (record_candidate i bucket s)); [done| |done].
    by replace (i + Z.of_nat (S n)) with (i + 1 + Z.of_nat n) by lia.
Qed.

End first_keys_facts.

Lemma first_keys_initial rehash log_size num kpb :
  first_keys rehash log_size num kpb 0 (results initial_state).
Proof. intros c b Hc. lia. Qed.

(** The sum of the lengths, against the number of entries. *)
Lemma total_keys_bounds (k : nat) (m : gmap Z (list Z)) :
  (map_Forall (λ _ keys, (length keys ≤ k)%nat) m →
   (total_keys m ≤ size m * k)%nat) ∧
  (map_Forall (λ _ keys, length keys = k) m →
   total_keys m = (size m * k)%nat).
Proof.
  unfold total_keys. induction m as [|b keys m Hb IH] using map_ind.
  - by rewrite map_fold_empty, map_size_empty.
  - rewrite map_fold_insert_L; [|intros; lia|done].
    rewrite map_size_insert_None by done.
    rewrite !map_Forall_insert by done. destruct IH as [IH1 IH2]. split.
    + intros [Hk Hm]. specialize (IH1 Hm). simpl. lia.
    + intros [Hk Hm]. specialize (IH2 Hm). simpl. lia.
Qed.

(** With no quota nothing is ever recorded as filled, and the lists stay
    empty. *)
Lemma search_no_quota rehash log_size num kpb n : ∀ i s,
  kpb <= 0 → 0 < num → log_size <= 64 →
  filled_buckets s = ∅ →
  map_Forall (λ _ keys, keys = []) (results s) →
  ∃ s', search rehash log_size num kpb n i s = Exhausted s' ∧
        filled_buckets s' = ∅ ∧
        map_Forall (λ _ keys, keys = []) (results s').
Proof.
  induction n as [|n IH]; intros i s Hk Hnum Hlog Hfilled Hempty; simpl.
  - by exists s.
  - unfold loop_body, CollidingKeys.bucket_of.
    rewrite py_rshift_is_Some by lia.
    set (bucket := Z.shiftr (rehash i) (64 - log_size)).
    assert (Hrec : filled_buckets (record_candidate num kpb i bucket s) = ∅ ∧
                   map_Forall (λ _ keys, keys = [])
                     (results (record_candidate num kpb i bucket s))).
    { unfold record_candidate. destruct (bucket <? num); [|done].
      assert (Hcur : default [] (results s !! bucket) = []).
      { destruct (results s !! bucket) as [keys|] eqn:E; [|done].
        exact (Hempty bucket keys E). }
      rewrite Hcur. simpl length.
      destruct (Z.ltb_spec (Z.of_nat 0) kpb) as [?|_]; [lia|]. simpl.
      split; [exact Hfilled|]. by apply map_Forall_insert_2. }
    destruct Hrec as [Hfilled' Hempty'].
    unfold stop_condition at 1. rewrite Hfilled', size_empty.
    destruct (Z.leb_spec num (Z.of_nat 0)) as [?|_]; [lia|]. simpl.
    by apply IH.
Qed.

Section any_ceiling_more.
Variable ceiling : Z.
Hypothesis ceiling_pos : 0 < ceiling.

Lemma generate_first_keys d log_size num kpb :
  match search_upto (_rehash d) log_size num kpb ceiling with
  | Broke j s =>
      0 <= j < ceiling ∧
      first_keys (_rehash d) log_size num kpb (j + 1) (results s) ∧
      generate_with_ceiling ceiling (Some d) log_size num kpb
      = Returned (results s) [Generating log_size] []
  | Exhausted s =>
      first_keys (_rehash d) log_size num kpb ceiling (results s) ∧
      generate_with_ceiling ceiling (Some d) log_size num kpb
      = Returned (results s) [Generating log_size]
                 [WarningExhausted log_size]
  | LoopRaise e => 64 < log_size
  end.
Proof.
  pose proof (search_upto_spec (_rehash d) log_size num kpb ceiling
                ltac:(lia)) as Hspec.
  pose proof (search_first_keys (_rehash d) log_size num kpb
                (Z.to_nat ceiling) 0 initial_state ltac:(lia)
                (search_inv_initial (_rehash d) log_size num kpb)
                (first_keys_initial (_rehash d) log_size num kpb)) as Hfirst.
  unfold generate_with_ceiling. unfold search_upto in *.
  destruct (search _ _ _ _ _ _ _) as [j s|s|e].
  - destruct Hspec as (Hj & _). by split; [|split].
  - rewrite Z.add_0_l, Z2Nat.id in Hfirst by lia. by split.
  - by destruct Hspec.
Qed.

Lemma generate_negative_shift d log_size num kpb :
  64 < log_size →
  generate_with_ceiling ceiling (Some d) log_size num kpb
  = Raised ValueError [Generating log_size].
Proof.
  intros Hlog. unfold generate_with_ceiling, search_upto.
  destruct (Z.to_nat ceiling) as [|n] eqn:E; [lia|]. simpl.
  unfold loop_body, bucket_of. by rewrite py_rshift_None by lia.
Qed.

Lemma generate_never_raises dummy log_size num kpb e out :
  log_size <= 64 →
  generate_with_ceiling ceiling dummy log_size num kpb ≠ Raised e out.
Proof.
  intros Hlog.
  destruct (generate_returns ceiling dummy log_size num kpb Hlog)
    as (m & o & err & ->). done.
Qed.

Lemma generate_no_targets d log_size num kpb :
  num <= 0 → 0 <= _rehash d 0 → log_size <= 64 →
  generate_with_ceiling ceiling (Some d) log_size num kpb
  = Returned ∅ [Generating log_size] [].
Proof.
  intros Hnum Hhash Hlog. unfold generate_with_ceiling, search_upto.
  destruct (Z.to_nat ceiling) as [|n] eqn:E; [lia|]. simpl.
  unfold loop_body, bucket_of. rewrite py_rshift_is_Some by lia.
  unfold record_candidate.
  destruct (Z.ltb_spec (Z.shiftr (_rehash d 0) (64 - log_size)) num)
    as [Hlt|_].
  { pose proof (Z.shiftr_nonneg (_rehash d 0) (64 - log_size)). lia. }
  unfold stop_condition. cbn [filled_buckets results initial_state].
  rewrite size_empty.
  destruct (Z.leb_spec num (Z.of_nat 0)) as [_|?]; [|lia].
  unfold all_full. rewrite bool_decide_eq_true_2; [done|].
  apply map_Forall_empty.
Qed.

Lemma generate_no_quota d log_size num kpb :
  kpb <= 0 → 0 < num → log_size <= 64 →
  ∃ m, generate_with_ceiling ceiling (Some d) log_size num kpb
       = Returned m [Generating log_size] [WarningExhausted log_size] ∧
       ∀ bucket keys, m !! bucket = Some keys → keys = [].
Proof.
  intros Hk Hnum Hlog. unfold generate_with_ceiling, search_upto.
  destruct (search_no_quota (_rehash d) log_size num kpb (Z.to_nat ceiling)
              0 initial_state Hk Hnum Hlog eq_refl)
    as (s' & -> & _ & Hempty); [apply map_Forall_empty|].
  exists (results s'). split; [done|]. exact Hempty.
Qed.

(** Without a quota every targeted bucket that a candidate reaches gets an
    entry, which stays empty: the buckets are at quota, and the search goes
    on to the ceiling. *)
Lemma generate_no_quota_full d log_size num kpb :
  kpb <= 0 → 0 < num → log_size <= 64 →
  (∀ b, 0 <= b < num →
        ∃ c, 0 <= c < ceiling ∧
             CollidingKeys.bucket_of (_rehash d) log_size c = Some b) →
  ∃ m, generate_with_ceiling ceiling (Some d) log_size num kpb
       = Returned m [Generating log_size] [WarningExhausted log_size] ∧
       (∀ bucket keys, m !! bucket = Some keys → keys = []) ∧
       CollidingKeys.targets_full num kpb m.
Proof.
  intros Hk Hnum Hlog Hreach.
  destruct (generate_no_quota d log_size num kpb Hk Hnum Hlog)
    as (m & Hgen & Hempty).
  exists m. split; [exact Hgen|]. split; [exact Hempty|].
  pose proof (generate_first_keys d log_size num kpb) as Hfirst.
  destruct (search_upto _ _ _ _ _) as [j s|s|e].
  - destruct Hfirst as (_ & _ & Hgen'). rewrite Hgen in Hgen'. done.
  - destruct Hfirst as [Hfirst Hgen']. rewrite Hgen in Hgen'.
    injection Hgen' as ->.
    intros b Hb. destruct (Hreach b Hb) as (c & Hc & Hbucket).
    destruct (Hfirst c b Hc Hbucket ltac:(lia)) as (keys & Hlook & _).
    exists keys. split; [exact Hlook|].
    rewrite (Hempty b keys Hlook). simpl. lia.
  - lia.
Qed.

Lemma generate_counts d log_size num kpb :
  0 < kpb → (∀ i, 0 <= _rehash d i) →
  match search_upto (_rehash d) log_size num kpb ceiling with
  | Broke _ s =>
      buckets_found (results s) = Z.to_nat num ∧
      total_keys (results s) = (Z.to_nat num * Z.to_nat kpb)%nat
  | Exhausted s =>
      (buckets_found (results s) ≤ Z.to_nat num)%nat ∧
      (total_keys (results s)
       ≤ buckets_found (results s) * Z.to_nat kpb)%nat
  | LoopRaise _ => True
  end.
Proof.
  intros Hquota Hhash.
  pose proof (search_upto_spec (_rehash d) log_size num kpb ceiling
                ltac:(lia)) as Hspec.
  assert (Hdom : ∀ next s, search_inv (_rehash d) log_size num kpb next s →
    dom (results s) ⊆ (list_to_set (seqZ 0 num) : gset Z) ∧
    map_Forall (λ _ keys, (length keys ≤ Z.to_nat kpb)%nat) (results s)).
  { intros next s [Hall _]. split.
    - intros b [keys E]%elem_of_dom.
      destruct (Hall b keys E) as (? & (c & _ & Hc) & _).
      rewrite elem_of_list_to_set, elem_of_seqZ. split; [|lia].
      eapply py_rshift_nonneg; [apply (Hhash c)|exact Hc].
    - intros b keys E. destruct (Hall b keys E) as (_ & _ & ? & _). lia. }
  assert (Hsize : size (list_to_set (seqZ 0 num) : gset Z) = Z.to_nat num).
  { rewrite size_list_to_set by apply NoDup_seqZ. apply length_seqZ. }
  destruct (search_upto _ _ _ _ _) as [j s|s|e]; [| |done].
  - destruct Hspec as (_ & Hinv & Hstop).
    destruct (Hdom _ _ Hinv) as [Hsub Hle].
    apply (stop_condition_targets_full (_rehash d) log_size num kpb
             (j + 1) s Hquota Hhash Hinv) in Hstop.
    assert (Heq : dom (results s) = list_to_set (seqZ 0 num)).
    { apply (anti_symm (⊆)); [done|]. intros b Hb.
      rewrite elem_of_list_to_set, elem_of_seqZ in Hb.
      destruct (Hstop b ltac:(lia)) as (keys & E & _).
      apply elem_of_dom. by eexists. }
    assert (Hbuckets : buckets_found (results s) = Z.to_nat num).
    { unfold buckets_found. by rewrite <- size_dom, Heq. }
    split; [done|]. rewrite <- Hbuckets.
    apply (proj2 (total_keys_bounds (Z.to_nat kpb) (results s))).
    intros b keys E.
    specialize (Hle b keys E). simpl in Hle.
    destruct (proj1 Hinv b keys E) as (Hb & (c & _ & Hc) & _).
    assert (0 <= b)
      by (eapply py_rshift_nonneg; [apply (Hhash c)|exact Hc]).
    destruct (Hstop b ltac:(lia)) as (keys' & E' & Hfull).
    assert (keys' = keys) as -> by congruence. lia.
  - destruct Hspec as (Hinv & _). destruct (Hdom _ _ Hinv) as [Hsub Hle].
    split.
    + unfold buckets_found. rewrite <- size_dom, <- Hsize.
      by apply subseteq_size.
    + by apply (proj1 (total_keys_bounds (Z.to_nat kpb) (results s))).
Qed.

Lemma generate_disjoint dummy log_size num kpb m out err :
  generate_with_ceiling ceiling dummy log_size num kpb = Returned m out err →
  ∀ b b' keys keys' k,
    m !! b = Some keys → m !! b' = Some keys' →
    k ∈ keys → k ∈ keys' → b = b'.
Proof.
  intros Hgen b b' keys keys' k E E' Hk Hk'.
  destruct (generate_bucket_invariant ceiling ceiling_pos dummy log_size num
              kpb m out err Hgen b keys E k Hk) as (d & Hd & Hb).
  destruct (generate_bucket_invariant ceiling ceiling_pos dummy log_size num
              kpb m out err Hgen b' keys' E' k Hk') as (d' & Hd' & Hb').
  congruence.
Qed.

End any_ceiling_more.

(** X1. Each bucket list holds the first candidates of its bucket: a
    candidate examined by the search (every candidate below the ceiling
    when the warning is given, every candidate up to the one that broke the
    loop otherwise) whose bucket is targeted is in the list of its bucket,
    or that list is full and holds only smaller keys. *)
Theorem X1_lists_hold_first_candidates (d : AtomicDict)
    (log_size num kpb : Z) :
  match search_upto (_rehash d) log_size num kpb SEARCH_CEILING with
  | Broke j s =>
      0 <= j < SEARCH_CEILING ∧
      first_keys (_rehash d) log_size num kpb (j + 1) (results s) ∧
      generate_colliding_keys (Some d) log_size num kpb
      = Returned (results s) [Generating log_size] []
  | Exhausted s =>
      first_keys (_rehash d) log_size num kpb SEARCH_CEILING (results s) ∧
      generate_colliding_keys (Some d) log_size num kpb
      = Returned (results s) [Generating log_size]
                 [WarningExhausted log_size]
  | LoopRaise e => 64 < log_size
  end.
Proof.
  exact (generate_first_keys SEARCH_CEILING SEARCH_CEILING_pos
           d log_size num kpb).
Qed.

(** X2. What the module's report counts: a search that ends without
    warning found exactly [num_buckets_to_fill] buckets and
    [num_buckets_to_fill * keys_per_bucket] keys; a search that ran out
    found at most that many buckets and at most [keys_per_bucket] keys for
    each; and no key is listed under two buckets. For a positive quota and a
    non-negative hash. *)
Theorem X2_report_counts (d : AtomicDict) (log_size num kpb : Z)
    (Hquota : 0 < kpb) (Hhash : ∀ i, 0 <= _rehash d i) :
  match search_upto (_rehash d) log_size num kpb SEARCH_CEILING with
  | Broke _ s =>
      buckets_found (results s) = Z.to_nat num ∧
      total_keys (results s) = (Z.to_nat num * Z.to_nat kpb)%nat
  | Exhausted s =>
      (buckets_found (results s) ≤ Z.to_nat num)%nat ∧
      (total_keys (results s)
       ≤ buckets_found (results s) * Z.to_nat kpb)%nat
  | LoopRaise _ => True
  end ∧
  (∀ m out err,
     generate_colliding_keys (Some d) log_size num kpb = Returned m out err →
     ∀ b b' keys keys' k,
       m !! b = Some keys → m !! b' = Some keys' →
       k ∈ keys → k ∈ keys' → b = b').
Proof.
  split.
  - exact (generate_counts SEARCH_CEILING SEARCH_CEILING_pos
             d log_size num kpb Hquota Hhash).
  - intros m out err.
    exact (generate_disjoint SEARCH_CEILING SEARCH_CEILING_pos
             (Some d) log_size num kpb m out err).
Qed.

Lemma X2_report_counts_witness :
  0 < 32 ∧ (∀ i, 0 <= _rehash demo_dict i) ∧
  ∀ m out err,
    generate_colliding_keys (Some demo_dict) 6 16 32 = Returned m out err →
    ∀ b b' keys keys' k,
      m !! b = Some keys → m !! b' = Some keys' →
      k ∈ keys → k ∈ keys' → b = b'.
Proof.
  assert (Hquota : 0 < 32) by lia.
  split; [exact Hquota|]. split; [exact demo_dict_nonneg|].
  pose proof (X2_report_counts demo_dict 6 16 32 Hquota demo_dict_nonneg)
    as [_ Hdisjoint].
  exact Hdisjoint.
Defined.

(** X3. The generator raises exactly when the shift count is negative: with
    a subject dictionary and [log_size > 64] the first candidate raises
    [ValueError], after the progress line and before anything is recorded;
    with [log_size <= 64] it never raises. *)
Theorem X3_raises_iff_negative_shift (d : AtomicDict) (log_size num kpb : Z) :
  (64 < log_size →
   generate_colliding_keys (Some d) log_size num kpb
   = Raised ValueError [Generating log_size]) ∧
  (log_size <= 64 →
   ∀ e out, generate_colliding_keys (Some d) log_size num kpb
            ≠ Raised e out).
Proof.
  split.
  - exact (generate_negative_shift SEARCH_CEILING SEARCH_CEILING_pos
             d log_size num kpb).
  - intros Hlog e out.
    exact (generate_never_raises SEARCH_CEILING (Some d) log_size num kpb
             e out Hlog).
Qed.

Lemma X3_raises_iff_negative_shift_witness :
  64 < 65 ∧
  generate_colliding_keys (Some demo_dict) 65 16 32
  = Raised ValueError [Generating 65].
Proof.
  assert (Hlog : 64 < 65) by lia.
  split; [exact Hlog|].
  pose proof (X3_raises_iff_negative_shift demo_dict 65 16 32) as [Hraise _].
  exact (Hraise Hlog).
Defined.

(** X4. With no bucket to fill ([num_buckets_to_fill <= 0]) the search
    stops after its first candidate and returns the empty mapping, without
    warning. *)
Theorem X4_no_targets_returns_empty (d : AtomicDict) (log_size num kpb : Z) :
  num <= 0 → 0 <= _rehash d 0 → log_size <= 64 →
  generate_colliding_keys (Some d) log_size num kpb
  = Returned ∅ [Generating log_size] [].
Proof.
  exact (generate_no_targets SEARCH_CEILING SEARCH_CEILING_pos
           d log_size num kpb).
Qed.

Lemma X4_no_targets_returns_empty_witness :
  0 <= 0 ∧ 0 <= _rehash demo_dict 0 ∧ 6 <= 64 ∧
  generate_colliding_keys (Some demo_dict) 6 0 32
  = Returned ∅ [Generating 6] [].
Proof.
  assert (H1 : 0 <= 0) by lia.
  assert (H2 : 0 <= _rehash demo_dict 0) by apply demo_dict_nonneg.
  assert (H3 : 6 <= 64) by lia.
  split; [exact H1|]. split; [exact H2|]. split; [exact H3|].
  exact (X4_no_targets_returns_empty demo_dict 6 0 32 H1 H2 H3).
Defined.

(** X5. With a quota that is not positive the search never stops early: it
    runs to the ceiling, gives the warning, and every list it returns is
    empty. *)
Theorem X5_no_quota_exhausts (d : AtomicDict) (log_size num kpb : Z) :
  kpb <= 0 → 0 < num → log_size <= 64 →
  ∃ m, generate_colliding_keys (Some d) log_size num kpb
       = Returned m [Generating log_size] [WarningExhausted log_size] ∧
       ∀ bucket keys, m !! bucket = Some keys → keys = [].
Proof.
  exact (generate_no_quota SEARCH_CEILING d log_size num kpb).
Qed.

Lemma X5_no_quota_exhausts_witness :
  0 <= 0 ∧ 0 < 16 ∧ 6 <= 64 ∧
  ∃ m, generate_colliding_keys (Some demo_dict) 6 16 0
       = Returned m [Generating 6] [WarningExhausted 6] ∧
       ∀ bucket keys, m !! bucket = Some keys → keys = [].
Proof.
  assert (H1 : 0 <= 0) by lia.
  assert (H2 : 0 < 16) by lia.
  assert (H3 : 6 <= 64) by lia.
  split; [exact H1|]. split; [exact H2|]. split; [exact H3|].
  exact (X5_no_quota_exhausts demo_dict 6 16 0 H1 H2 H3).
Defined.

Lemma demo_dict_bucket c :
  0 <= c < 64 →
  CollidingKeys.bucket_of (_rehash demo_dict) 6 c = Some c.
Proof.
  intros Hc. unfold CollidingKeys.bucket_of. simpl _rehash.
  rewrite py_rshift_is_Some by lia. f_equal.
  rewrite Z.mod_small by lia. change (64 - 6) with 58.
  rewrite Z.shiftr_div_pow2 by lia. apply Z.div_mul. lia.
Qed.

Lemma SEARCH_CEILING_large : 64 <= SEARCH_CEILING.
Proof. unfold SEARCH_CEILING. lia. Qed.

(** C2 as stated fails without a quota. With [keys_per_bucket = 0] every
    one of the 16 targeted buckets has an entry of length 0, which is the
    quota, from the 16th candidate on; no bucket is ever recorded as filled,
    so the search does not stop: it examines every candidate below the
    ceiling and prints the warning. With [keys_per_bucket = -1] it does the
    same, and the lists returned, of length 0, hold more keys than the
    quota. *)
Lemma C2_counterexample :
  (∃ m, generate_colliding_keys (Some demo_dict) 6 16 0
        = Returned m [Generating 6] [WarningExhausted 6] ∧
        CollidingKeys.targets_full 16 0 m ∧
        ∀ b, 0 <= b < 16 → m !! b = Some []) ∧
  (∃ m, generate_colliding_keys (Some demo_dict) 6 16 (-1)
        = Returned m [Generating 6] [WarningExhausted 6] ∧
        ∀ b, 0 <= b < 16 →
             ∃ keys, m !! b = Some keys ∧ -1 < Z.of_nat (length keys)).
Proof.
  assert (Hreach : ∀ b, 0 <= b < 16 →
            ∃ c, 0 <= c < SEARCH_CEILING ∧
                 CollidingKeys.bucket_of (_rehash demo_dict) 6 c = Some b).
  { intros b Hb. exists b. pose proof SEARCH_CEILING_large.
    split; [lia|]. apply demo_dict_bucket. lia. }
  unfold generate_colliding_keys. split.
  - destruct (generate_no_quota_full SEARCH_CEILING SEARCH_CEILING_pos
                demo_dict 6 16 0 ltac:(lia) ltac:(lia) ltac:(lia) Hreach)
      as (m & Hgen & Hempty & Hfull).
    exists m. split; [exact Hgen|]. split; [exact Hfull|].
    intros b Hb. destruct (Hfull b Hb) as (keys & Hlook & _).
    by rewrite Hlook, (Hempty b keys Hlook).
  - destruct (generate_no_quota_full SEARCH_CEILING SEARCH_CEILING_pos
                demo_dict 6 16 (-1) ltac:(lia) ltac:(lia) ltac:(lia) Hreach)
      as (m & Hgen & Hempty & Hfull).
    exists m. split; [exact Hgen|].
    intros b Hb. destruct (Hfull b Hb) as (keys & Hlook & _).
    exists keys. split; [exact Hlook|]. lia.
Qed.

End CollidingKeysReportFacts.

(** ** The shared counter and the key catalog *)

Module AtomicDictCatalogFacts.
Import AtomicDictInputs AtomicDictCatalog.

Lemma run_op_draw o c :
  draw_of (run_op o c).1 = c ∧ (run_op o c).2 = c + 1.
Proof. by destruct o. Qed.

(** The values drawn in a run are at least the starting value, and strictly
    increasing. *)
Lemma run_ops_draws ops : ∀ c,
  Forall (λ v, c <= v) (draw_of <$> (run_ops ops c).1) ∧
  StronglySorted Z.lt (draw_of <$> (run_ops ops c).1).
Proof.
  induction ops as [|o rest IH]; intros c; simpl.
  - split; constructor.
  - destruct (run_op_draw o c) as [Hd Hc].
    destruct (run_op o c) as [d c1]. simpl in *. subst c1.
    destruct (IH (c + 1)) as [Hge Hsort].
    destruct (run_ops rest (c + 1)) as [ds c2]. simpl in *. split.
    + constructor; [lia|]. eapply Forall_impl; [exact Hge|]. simpl. lia.
    + constructor; [done|]. rewrite Hd.
      eapply Forall_impl; [exact Hge|]. simpl. lia.
Qed.

Lemma StronglySorted_lookup_lt (l : list Z) i j x y :
  StronglySorted Z.lt l → l !! i = Some x → l !! j = Some y →
  (i < j)%nat → x < y.
Proof.
  intros Hsort. revert i j. induction Hsort as [|a l Hsort IH Hall];
    intros i j Hi Hj Hlt; [done|].
  destruct j as [|j]; [lia|]. simpl in Hj. destruct i as [|i].
  - injection Hi as <-. rewrite Forall_forall in Hall.
    apply Hall. by eapply list_elem_of_lookup_2.
  - simpl in Hi. eapply IH; [done..|lia].
Qed.

Lemma run_ops_distinct ops c i j di dj :
  (run_ops ops c).1 !! i = Some di → (run_ops ops c).1 !! j = Some dj →
  i ≠ j → draw_of di ≠ draw_of dj.
Proof.
  intros Hi Hj Hne.
  destruct (run_ops_draws ops c) as [_ Hsort].
  assert (Hi' : (draw_of <$> (run_ops ops c).1) !! i = Some (draw_of di))
    by (by rewrite list_lookup_fmap, Hi).
  assert (Hj' : (draw_of <$> (run_ops ops c).1) !! j = Some (draw_of dj))
    by (by rewrite list_lookup_fmap, Hj).
  destruct (decide (i < j)%nat).
  - pose proof (StronglySorted_lookup_lt _ _ _ _ _ Hsort Hi' Hj'). lia.
  - pose proof (StronglySorted_lookup_lt _ _ _ _ _ Hsort Hj' Hi'). lia.
Qed.

Lemma run_ops_length ops : ∀ c, length (run_ops ops c).1 = length ops.
Proof.
  induction ops as [|o rest IH]; intros c; simpl; [done|].
  destruct (run_op o c) as [d c1]. specialize (IH c1).
  destruct (run_ops rest c1) as [ds c2]. simpl in *. by rewrite IH.
Qed.

(** X6. Whatever is done with the module's counter (instances of
    [UnstableHash] and of [ExceptionRaiser] created, [__hash__] called on
    any instance, in any order), each operation draws one value and the
    values drawn are strictly increasing. Hence the values of two different
    operations differ: two [UnstableHash] instances are equal exactly when
    they are the same instance, two [ExceptionRaiser] instances never share
    their [_id], no [__hash__] call returns the same value as another, and
    no [__hash__] call returns the [_initial_hash] or the [_id] of an
    instance of the run, nor is an [_id] the [_initial_hash] of one. *)
Theorem X6_counter_draws_are_unique (ops : list counter_op) (c : counter) :
  let draws := (run_ops ops c).1 in
  length draws = length ops ∧
  Forall (λ v, c <= v) (draw_of <$> draws) ∧
  StronglySorted Z.lt (draw_of <$> draws) ∧
  (∀ i j di dj, draws !! i = Some di → draws !! j = Some dj →
                i ≠ j → draw_of di ≠ draw_of dj) ∧
  (∀ i j a b n,
     draws !! i = Some (Created a) → draws !! j = Some (Created b) →
     (UnstableHash_eq a (VUnstable b) n).1 = bool_decide (i = j)) ∧
  (∀ i j r s,
     draws !! i = Some (CreatedRaiser r) →
     draws !! j = Some (CreatedRaiser s) → i ≠ j → _id r ≠ _id s) ∧
  (∀ i j h k,
     draws !! i = Some (Hashed h) → draws !! j = Some (Hashed k) →
     i ≠ j → h ≠ k) ∧
  (∀ i j h a,
     draws !! i = Some (Hashed h) → draws !! j = Some (Created a) →
     h ≠ _initial_hash a) ∧
  (∀ i j h r,
     draws !! i = Some (Hashed h) → draws !! j = Some (CreatedRaiser r) →
     h ≠ _id r) ∧
  (∀ i j r a,
     draws !! i = Some (CreatedRaiser r) → draws !! j = Some (Created a) →
     _id r ≠ _initial_hash a).
Proof.
  intros draws.
  assert (Hdistinct : ∀ i j di dj,
    draws !! i = Some di → draws !! j = Some dj → i ≠ j →
    draw_of di ≠ draw_of dj).
  { intros i j di dj. apply run_ops_distinct. }
  destruct (run_ops_draws ops c) as [Hge Hsort].
  split; [apply run_ops_length|]. split; [exact Hge|].
  split; [exact Hsort|]. split; [exact Hdistinct|].
  split; [|split; [|split; [|split; [|split]]]].
  - intros i j a b n Hi Hj. simpl.
    destruct (decide (i = j)) as [->|Hne].
    + rewrite bool_decide_eq_true_2 by done.
      assert (a = b) as -> by congruence. apply Z.eqb_refl.
    + rewrite bool_decide_eq_false_2 by done. apply Z.eqb_neq.
      exact (Hdistinct i j _ _ Hi Hj Hne).
  - intros i j r s Hi Hj Hne. exact (Hdistinct i j _ _ Hi Hj Hne).
  - intros i j h k Hi Hj Hne. exact (Hdistinct i j _ _ Hi Hj Hne).
  - intros i j h a Hi Hj. assert (i ≠ j) by congruence.
    exact (Hdistinct i j _ _ Hi Hj ltac:(done)).
  - intros i j h r Hi Hj. assert (i ≠ j) by congruence.
    exact (Hdistinct i j _ _ Hi Hj ltac:(done)).
  - intros i j r a Hi Hj. assert (i ≠ j) by congruence.
    exact (Hdistinct i j _ _ Hi Hj ltac:(done)).
Qed.

Lemma X6_counter_draws_are_unique_witness :
  let ops := [NewUnstableHash; NewExceptionRaiser ValueError "x";
              NewUnstableHash; CallHash {| _initial_hash := 0 |}] in
  let a := {| _initial_hash := 0 |} in
  let b := {| _initial_hash := 2 |} in
  (run_ops ops 0).1 !! 0%nat = Some (Created a) ∧
  (run_ops ops 0).1 !! 2%nat = Some (Created b) ∧
  (run_ops ops 0).1 !! 3%nat = Some (Hashed 3) ∧
  (UnstableHash_eq a (VUnstable b) 4).1 = false ∧
  3 ≠ _initial_hash a.
Proof.
  intros ops a b.
  assert (Ha : (run_ops ops 0).1 !! 0%nat = Some (Created a)) by reflexivity.
  assert (Hb : (run_ops ops 0).1 !! 2%nat = Some (Created b)) by reflexivity.
  assert (Hh : (run_ops ops 0).1 !! 3%nat = Some (Hashed 3)) by reflexivity.
  split; [exact Ha|]. split; [exact Hb|]. split; [exact Hh|].
  pose proof (X6_counter_draws_are_unique ops 0)
    as (_ & _ & _ & _ & Heq & _ & _ & Hhash & _).
  split; [exact (Heq 0%nat 2%nat a b 4 Ha Hb)|].
  exact (Hhash 3%nat 0%nat 3 a Hh Ha).
Defined.

Example counter_run :
  draw_of <$> (run_ops [NewUnstableHash; CallHash {| _initial_hash := 0 |};
                        NewExceptionRaiser TypeError "m"; NewUnstableHash]
                 0).1
  = [0; 1; 2; 3].
Proof. reflexivity. Qed.

(** *** The [eq_returns_...] entries *)

Lemma eq_returns_name_inj v w :
  eq_returns_name v = eq_returns_name w → type_name v = type_name w.
Proof. unfold eq_returns_name. intros H. cbn in H. by simplify_eq. Qed.

Lemma add_eq_returns_snoc ret_vals v keys :
  add_eq_returns (ret_vals ++ [v]) keys
  = <[eq_returns_name v := {| return_value := v |}]>
      (add_eq_returns ret_vals keys).
Proof. unfold add_eq_returns. by rewrite foldl_app. Qed.

(** X7. The loop that adds the [EqReturnsWrongType] instances names each by
    the type of its return value, so it keeps one instance per type name:
    the entry of a type name holds the last listed value of that type, and
    an earlier value of the same type is no longer in the catalog under any
    [eq_returns_] name; names of other types are left as they were. *)
Theorem X7_eq_returns_keeps_last_of_type (ret_vals : list ret_val)
    (keys : gmap string EqReturnsWrongType) (v : ret_val) :
  (∀ last_v,
     last (filter (λ w, type_name w = type_name v) ret_vals) = Some last_v →
     add_eq_returns ret_vals keys !! eq_returns_name v
     = Some {| return_value := last_v |}) ∧
  (filter (λ w, type_name w = type_name v) ret_vals = [] →
   add_eq_returns ret_vals keys !! eq_returns_name v
   = keys !! eq_returns_name v).
Proof.
  induction ret_vals as [|w ret_vals IH] using rev_ind.
  - split; [done|]. done.
  - rewrite add_eq_returns_snoc, filter_app.
    destruct IH as [IHlast IHnone].
    destruct (decide (type_name w = type_name v)) as [Heq|Hne].
    + rewrite (filter_cons_True _ w []), filter_nil by done.
      assert (eq_returns_name w = eq_returns_name v) as ->
        by (unfold eq_returns_name; by rewrite Heq).
      split.
      * intros last_v. rewrite last_snoc. intros [= <-].
        by rewrite lookup_insert_eq.
      * intros Hnil. by destruct (filter _ ret_vals).
    + rewrite (filter_cons_False _ w []), filter_nil by done.
      rewrite app_nil_r, lookup_insert_ne;
        [|by intros ?%eq_returns_name_inj]. by split.
Qed.

Lemma X7_eq_returns_keeps_last_of_type_witness :
  last (filter (λ w, type_name w = type_name (RInt 0)) module_ret_vals)
  = Some (RInt 1) ∧
  add_eq_returns module_ret_vals ∅ !! eq_returns_name (RInt 0)
  = Some {| return_value := RInt 1 |}.
Proof.
  assert (Hlast : last (filter (λ w, type_name w = type_name (RInt 0))
                          module_ret_vals) = Some (RInt 1)) by reflexivity.
  split; [exact Hlast|].
  pose proof (X7_eq_returns_keeps_last_of_type module_ret_vals ∅ (RInt 0))
    as [Hkeep _].
  exact (Hkeep (RInt 1) Hlast).
Defined.

(** Of the six values the module lists, five entries result: the instance
    that returns 0 is replaced by the one that returns 1. *)
Example module_eq_returns_entries :
  size (add_eq_returns module_ret_vals ∅) = 5%nat ∧
  add_eq_returns module_ret_vals ∅ !! "eq_returns_int"
  = Some {| return_value := RInt 1 |}.
Proof. split; by vm_compute. Qed.

End AtomicDictCatalogFacts.

(** ** The scenarios on a shared dictionary *)

Module ConcurrencyHellDictFacts.
Import ConcurrencyHell StatefulScenarios ConcurrencyHellDict.
Import ConcurrencyHellFacts.

Lemma sum_dict_run (schedule : list nat) : ∀ d : gmap string Z,
  foldl (λ st tid, reduce_sum tid THE_KEY 1 st) d schedule !! THE_KEY
  = match schedule with
    | [] => d !! THE_KEY
    | _ :: _ => Some (default 0 (d !! THE_KEY) + Z.of_nat (length schedule))
    end.
Proof.
  induction schedule as [|tid rest IH]; intros d; [done|].
  cbn [foldl]. rewrite IH. simpl.
  destruct (d !! THE_KEY) as [old|] eqn:E; rewrite lookup_insert_eq;
    destruct rest; simpl; f_equal; lia.
Qed.

(** X8. On the single-key dogpile the expected value is [num_threads *
    ops_per_thread] and [True] is returned in every case. With the subject
    as documented and every increment made, the value read is the product
    when at least one increment was made, and no warning is printed; when no
    increment was made the key is absent, [get] gives [None], and the
    warning is printed. *)
Theorem X8_dogpile_key_zero_work_warns (schedule : list nat)
    (num_threads ops_per_thread : Z) :
  0 <= num_threads → 0 <= ops_per_thread →
  complete_schedule num_threads ops_per_thread schedule →
  (0 < num_threads * ops_per_thread →
   dogpile_on_atomicdict_key (D := gmap string Z) schedule num_threads
     ops_per_thread = (true, [])) ∧
  (num_threads * ops_per_thread = 0 →
   dogpile_on_atomicdict_key (D := gmap string Z) schedule num_threads
     ops_per_thread = (true, [WarningWrongKeyCount 0 None])).
Proof.
  intros Hn Hm Hcomplete.
  pose proof (complete_schedule_length _ _ _ Hn Hm Hcomplete) as Hlen.
  unfold dogpile_on_atomicdict_key. simpl dict_get. simpl new_dict.
  rewrite sum_dict_run. split.
  - intros Hpos. destruct schedule as [|t rest]; [simpl in Hlen; lia|].
    rewrite lookup_empty. simpl default. rewrite Z.add_0_l, Hlen.
    by rewrite bool_decide_eq_false_2 by (by intros ?).
  - intros Hzero. destruct schedule as [|t rest]; [|simpl in Hlen; lia].
    rewrite lookup_empty, Hzero. by rewrite bool_decide_eq_true_2.
Qed.

Lemma X8_dogpile_key_zero_work_warns_witness :
  0 <= 0 ∧ 0 <= 5 ∧ complete_schedule 0 5 [] ∧ 0 * 5 = 0 ∧
  dogpile_on_atomicdict_key (D := gmap string Z) [] 0 5
  = (true, [WarningWrongKeyCount 0 None]).
Proof.
  assert (H1 : 0 <= 0) by lia.
  assert (H2 : 0 <= 5) by lia.
  assert (H3 : complete_schedule 0 5 [])
    by (unfold complete_schedule; reflexivity).
  assert (H4 : 0 * 5 = 0) by reflexivity.
  split; [exact H1|]. split; [exact H2|]. split; [exact H3|].
  split; [exact H4|].
  pose proof (X8_dogpile_key_zero_work_warns [] 0 5 H1 H2 H3) as [_ Hzero].
  exact (Hzero H4).
Defined.

Example dogpile_key_two_threads :
  dogpile_on_atomicdict_key (D := gmap string Z) [0; 1; 1; 0]%nat 2 2
  = (true, []).
Proof. reflexivity. Qed.

(** *** [migration_storm] *)

Lemma storm_step_inv all_keys st tid :
  storm_inv all_keys st → storm_inv all_keys (storm_step st tid).
Proof.
  intros Hinv. unfold storm_step.
  destruct (pending st !! tid) as [[|i rest]|] eqn:Hw; [done| |done].
  simpl. intros x. rewrite (Hinv x). simpl. split.
  - intros [Hin|(t & w & Ht & Hx)].
    + left. destruct (decide (x = i)) as [->|?].
      * rewrite lookup_insert_eq. by eexists.
      * by rewrite lookup_insert_ne.
    + destruct (decide (t = tid)) as [->|Hne].
      * assert (w = i :: rest) as -> by congruence.
        apply elem_of_cons in Hx as [->|Hx].
        -- left. rewrite lookup_insert_eq. by eexists.
        -- right. exists tid, rest. split; [|done].
           apply list_lookup_insert_eq. by eapply lookup_lt_Some.
      * right. exists t, w. split; [|done].
        by rewrite list_lookup_insert_ne.
  - intros [Hin|(t & w & Ht & Hx)].
    + destruct (decide (x = i)) as [->|?].
      * right. exists tid, (i :: rest). split; [done|]. by left.
      * left. by rewrite lookup_insert_ne in Hin.
    + right. destruct (decide (t = tid)) as [->|Hne].
      * rewrite list_lookup_insert_eq in Ht by (by eapply lookup_lt_Some).
        injection Ht as <-. exists tid, (i :: rest). split; [done|].
        by right.
      * rewrite list_lookup_insert_ne in Ht by done. by exists t, w.
Qed.

Lemma storm_start_inv num_threads keys_per_thread :
  0 <= num_threads → 0 <= keys_per_thread →
  storm_inv (list_to_set (seqZ 0 (num_threads * keys_per_thread)))
    (storm_start ∅ num_threads keys_per_thread).
Proof.
  intros Hn Hk x. rewrite elem_of_list_to_set, elem_of_seqZ. simpl.
  assert (Hw : ∀ tid w,
    (worker_keys keys_per_thread <$> seq 0 (Z.to_nat num_threads)) !! tid
    = Some w ↔
    (tid < Z.to_nat num_threads)%nat ∧ w = worker_keys keys_per_thread tid).
  { intros tid w. rewrite list_lookup_fmap. split.
    - destruct (seq 0 (Z.to_nat num_threads) !! tid) as [t|] eqn:E; [|done].
      apply lookup_seq in E as [-> ?]. by intros [= <-].
    - intros [Hlt ->]. by rewrite lookup_seq_lt. }
  split.
  - intros Hx. right.
    assert (0 < keys_per_thread) by nia.
    exists (Z.to_nat (x / keys_per_thread)), (worker_keys keys_per_thread
      (Z.to_nat (x / keys_per_thread))).
    pose proof (Z.div_pos x keys_per_thread ltac:(lia) ltac:(lia)).
    pose proof (Z.mul_div_le x keys_per_thread ltac:(lia)).
    pose proof (Z.mul_succ_div_gt x keys_per_thread ltac:(lia)).
    assert (x / keys_per_thread < num_threads)
      by (apply Z.div_lt_upper_bound; lia).
    split.
    + apply Hw. split; [lia|done].
    + unfold worker_keys. rewrite elem_of_seqZ. lia.
  - intros [[v Hv]|(tid & w & Ht & Hx)]; [by rewrite lookup_empty in Hv|].
    apply Hw in Ht as [Hlt ->]. unfold worker_keys in Hx.
    rewrite elem_of_seqZ in Hx. nia.
Qed.

Lemma storm_final_inv all_keys schedule : ∀ st,
  storm_inv all_keys st → storm_inv all_keys (foldl storm_step st schedule).
Proof.
  induction schedule as [|tid rest IH]; intros st Hinv; [done|].
  simpl. by apply IH, storm_step_inv.
Qed.

Lemma storm_joined_length schedule num_threads keys_per_thread :
  0 <= num_threads → 0 <= keys_per_thread →
  all_joined (storm_final (D := gmap Z val) ∅ schedule num_threads
                keys_per_thread) →
  m_len (storm_dict (storm_final (D := gmap Z val) ∅ schedule num_threads
                       keys_per_thread))
  = num_threads * keys_per_thread.
Proof.
  intros Hn Hk Hjoined.
  pose proof (storm_final_inv _ schedule _
                (storm_start_inv num_threads keys_per_thread Hn Hk)) as Hinv.
  unfold storm_final in *.
  set (st := foldl storm_step _ schedule) in *.
  assert (Hdom : dom (storm_dict st)
                 = list_to_set (seqZ 0 (num_threads * keys_per_thread))).
  { apply set_eq. intros x. rewrite (Hinv x), elem_of_dom. split; [by left|].
    intros [Hin|(tid & w & Ht & Hx)]; [done|].
    unfold all_joined in Hjoined. rewrite Forall_forall in Hjoined.
    rewrite (Hjoined w) in Hx by (by eapply list_elem_of_lookup_2).
    by apply elem_of_nil in Hx. }
  simpl. rewrite <- size_dom, Hdom.
  rewrite size_list_to_set by apply NoDup_seqZ. rewrite length_seqZ. lia.
Qed.

(** X9. [migration_storm] expects [num_threads * keys_per_thread] entries
    and returns [True] in every case; the warning is printed exactly when
    the length read differs. With a dictionary that keeps what is stored,
    once all workers are joined the length is the product, whatever the
    interleaving of the workers: the blocks of keys are disjoint and cover
    [0 .. num_threads * keys_per_thread - 1]. *)
Theorem X9_migration_storm_length (schedule : list nat)
    (num_threads keys_per_thread : Z) :
  0 <= num_threads → 0 <= keys_per_thread →
  all_joined (storm_final (D := gmap Z val) ∅ schedule num_threads
                keys_per_thread) →
  dom (storm_dict (storm_final (D := gmap Z val) ∅ schedule num_threads
                     keys_per_thread))
  = list_to_set (seqZ 0 (num_threads * keys_per_thread)) ∧
  migration_storm (D := gmap Z val) ∅ schedule num_threads keys_per_thread
  = (true, []).
Proof.
  intros Hn Hk Hjoined. split.
  - pose proof (storm_final_inv _ schedule _
                  (storm_start_inv num_threads keys_per_thread Hn Hk))
      as Hinv.
    unfold storm_final in *. set (st := foldl storm_step _ schedule) in *.
    apply set_eq. intros x. rewrite (Hinv x), elem_of_dom.
    split; [by left|].
    intros [Hin|(tid & w & Ht & Hx)]; [done|].
    unfold all_joined in Hjoined. rewrite Forall_forall in Hjoined.
    rewrite (Hjoined w) in Hx by (by eapply list_elem_of_lookup_2).
    by apply elem_of_nil in Hx.
  - pose proof (storm_joined_length schedule num_threads keys_per_thread
                  Hn Hk Hjoined) as Hlen.
    unfold migration_storm. unfold storm_final in Hlen. rewrite Hlen.
    by rewrite bool_decide_eq_false_2 by (by intros ?).
Qed.

Lemma X9_migration_storm_length_witness :
  0 <= 2 ∧ 0 <= 2 ∧
  all_joined (storm_final (D := gmap Z val) ∅ [1; 0; 0; 1]%nat 2 2) ∧
  migration_storm (D := gmap Z val) ∅ [1; 0; 0; 1]%nat 2 2 = (true, []).
Proof.
  assert (H1 : 0 <= 2) by lia.
  assert (H3 : all_joined (storm_final (D := gmap Z val) ∅
                             [1; 0; 0; 1]%nat 2 2)).
  { vm_compute. repeat constructor. }
  split; [exact H1|]. split; [exact H1|]. split; [exact H3|].
  exact (proj2 (X9_migration_storm_length [1; 0; 0; 1]%nat 2 2 H1 H1 H3)).
Defined.

End ConcurrencyHellDictFacts.

(** ** Join plans: who is waited for, and for how long *)

Module JoinPlansTimingFacts.
Import JoinPlans JoinPlansFacts.

Section any_scheduling.
Variable finish : behaviour.
Variable delay : scheduling.
Hypothesis Hsched : scheduled delay.

(** The sleep and the setting of the stop flag. *)
Lemma run_delayed_sleep_set d e rest clock expired :
  0 <= d →
  ∃ clock',
    clock + d <= clock' ∧
    run_delayed finish delay ([Sleep d; SetEvent e] ++ rest) clock expired
    = run_delayed finish delay rest clock' expired.
Proof.
  intros Hd. cbn [app run_delayed length].
  destruct (Z.ltb_spec d 0) as [?|_]; [lia|].
  destruct (Hsched (S (length rest))) as (l1 & -> & ?).
  destruct (Hsched (length rest)) as (l2 & -> & ?).
  cbn [resume]. exists (clock + d + l1 + l2). split; [lia|done].
Qed.

(** Joins without timeout on workers that all terminate: the main thread
    leaves the last join when the last worker has terminated. *)
Lemma run_delayed_joins_unbounded ts : ∀ clock expired,
  (∀ t, t ∈ ts → is_Some (finish t)) →
  ∃ clock',
    run_delayed finish delay ((λ t, Join t None) <$> ts) clock expired
    = Finished clock' expired ∧
    clock <= clock' ∧
    (∀ t f, t ∈ ts → finish t = Some f → f <= clock').
Proof.
  induction ts as [|t ts IH]; intros clock expired Hall.
  - exists clock. split; [done|]. split; [lia|].
    intros t f Ht. by apply elem_of_nil in Ht.
  - cbn [fmap list_fmap run_delayed].
    destruct (Hall t) as [f Hf]; [by left|]. rewrite Hf.
    match goal with
    | |- context [delay ?k] =>
        destruct (Hsched k) as (late & Hdelay & Hlate); rewrite Hdelay
    end. cbn [resume].
    destruct (IH (Z.max clock f + late) expired) as (c' & -> & Hle & Hfin).
    { intros t' Ht'. apply Hall. by right. }
    exists c'. split; [done|]. split; [lia|].
    intros t' f' Ht' Hf'. apply elem_of_cons in Ht' as [->|Ht'].
    + assert (f' = f) as -> by congruence. lia.
    + by eapply Hfin.
Qed.

(** Joins with the one-second timeout: the joins that give up are joins
    of workers that had not terminated one second after the main thread
    started to wait for the first of them; every worker that never
    terminates makes its join give up, no worker that has terminated by
    then does. *)
Lemma run_delayed_joins_timeout ts : ∀ clock expired,
  ∃ clock' gave_up,
    run_delayed finish delay ((λ t, Join t (Some 1000)) <$> ts)
      clock expired
    = Finished clock' (expired ++ gave_up) ∧
    clock <= clock' ∧
    (∀ t, t ∈ gave_up →
          t ∈ ts ∧ ∀ f, finish t = Some f → clock + 1000 < f) ∧
    (∀ t, t ∈ ts → finish t = None → t ∈ gave_up) ∧
    (∀ t f, t ∈ ts → finish t = Some f → f <= clock + 1000 →
            t ∉ gave_up).
Proof.
  induction ts as [|t ts IH]; intros clock expired.
  - exists clock, []. simpl. rewrite app_nil_r. split; [done|].
    split; [lia|]. split; [|split].
    + intros t Ht. by apply elem_of_nil in Ht.
    + intros t Ht. by apply elem_of_nil in Ht.
    + intros t f Ht. by apply elem_of_nil in Ht.
  - cbn [fmap list_fmap run_delayed].
    match goal with
    | |- context [delay ?k] =>
        destruct (Hsched k) as (late & Hdelay & Hlate); rewrite Hdelay
    end. cbn [resume].
    change (Z.max 0 1000) with 1000.
    destruct (finish t) as [f|] eqn:Hf.
    + destruct (Z.leb_spec f (clock + 1000)) as [Hle|Hgt].
      * destruct (IH (Z.max clock f + late) expired)
          as (c' & l & -> & Hc & Hin & Hstuck & Hdone).
        exists c', l. split; [done|]. split; [lia|]. split; [|split].
        -- intros t' Ht'. destruct (Hin t' Ht') as [Hts Hlate'].
           split; [by right|]. intros f' Hf'.
           specialize (Hlate' f' Hf'). lia.
        -- intros t' Ht' Hnone. apply elem_of_cons in Ht' as [->|Ht'];
             [congruence|]. by apply Hstuck.
        -- intros t' f' Ht' Hf' Hle' Hl.
           destruct (Hin t' Hl) as [_ Hlate']. specialize (Hlate' f' Hf').
           lia.
      * destruct (IH (clock + 1000 + late) (expired ++ [t]))
          as (c' & l & -> & Hc & Hin & Hstuck & Hdone).
        exists c', (t :: l). split; [by rewrite <- app_assoc|].
        split; [lia|]. split; [|split].
        -- intros t' Ht'. apply elem_of_cons in Ht' as [->|Ht'].
           ++ split; [by left|]. intros f' Hf'.
              assert (f' = f) as -> by congruence. lia.
           ++ destruct (Hin t' Ht') as [Hts Hlate'].
              split; [by right|]. intros f' Hf'.
              specialize (Hlate' f' Hf'). lia.
        -- intros t' Ht' Hnone. apply elem_of_cons in Ht' as [->|Ht'];
             [congruence|]. right. by apply Hstuck.
        -- intros t' f' Ht' Hf' Hle' Hl.
           apply elem_of_cons in Hl as [->|Hl].
           ++ assert (f' = f) as -> by congruence. lia.
           ++ destruct (Hin t' Hl) as [_ Hlate'].
              specialize (Hlate' f' Hf'). lia.
    + destruct (IH (clock + 1000 + late) (expired ++ [t]))
        as (c' & l & -> & Hc & Hin & Hstuck & Hdone).
      exists c', (t :: l). split; [by rewrite <- app_assoc|].
      split; [lia|]. split; [|split].
      * intros t' Ht'. apply elem_of_cons in Ht' as [->|Ht'].
        -- split; [by left|]. intros f' Hf'. congruence.
        -- destruct (Hin t' Ht') as [Hts Hlate'].
           split; [by right|]. intros f' Hf'.
           specialize (Hlate' f' Hf'). lia.
      * intros t' Ht' Hnone. apply elem_of_cons in Ht' as [->|Ht'];
          [by left|]. right. by apply Hstuck.
      * intros t' f' Ht' Hf' Hle' Hl.
        apply elem_of_cons in Hl as [->|Hl]; [congruence|].
        destruct (Hin t' Hl) as [_ Hlate']. specialize (Hlate' f' Hf').
        lia.
Qed.

(** The stop-flag plan, for a duration that [time.sleep] accepts. *)
Lemma stop_flag_plan_spec num_threads duration :
  0 <= duration →
  ∃ clock gave_up,
    run_delayed finish delay (stop_flag_plan num_threads duration) 0 []
    = Finished clock gave_up ∧
    duration <= clock ∧
    (∀ t, t ∈ gave_up →
          (t < Z.to_nat num_threads)%nat ∧
          ∀ f, finish t = Some f → duration + 1000 < f) ∧
    (∀ t, (t < Z.to_nat num_threads)%nat → finish t = None →
          t ∈ gave_up) ∧
    (∀ t f, (t < Z.to_nat num_threads)%nat → finish t = Some f →
            f <= duration + 1000 → t ∉ gave_up).
Proof.
  intros Hd. unfold stop_flag_plan.
  destruct (run_delayed_starts finish delay (seq 0 (Z.to_nat num_threads))
              ([Sleep duration; SetEvent stop_event]
               ++ ((λ t, Join t (Some 1000))
                     <$> seq 0 (Z.to_nat num_threads)))
              0 [] Hsched) as (c0 & Hc0 & ->).
  destruct (run_delayed_sleep_set duration stop_event
              ((λ t, Join t (Some 1000)) <$> seq 0 (Z.to_nat num_threads))
              c0 [] Hd) as (c1 & Hc1 & ->).
  destruct (run_delayed_joins_timeout (seq 0 (Z.to_nat num_threads)) c1 [])
    as (c' & l & Hrun & Hc & Hin & Hstuck & Hdone).
  simpl in Hrun. exists c', l. split; [exact Hrun|]. split; [lia|].
  split; [|split].
  - intros t Ht. destruct (Hin t Ht) as [Hts Hlate].
    apply elem_of_seq in Hts. split; [lia|].
    intros f Hf. specialize (Hlate f Hf). lia.
  - intros t Ht. apply Hstuck, elem_of_seq. lia.
  - intros t f Ht Hf Hle.
    apply (Hdone t f); [apply elem_of_seq; lia|done|lia].
Qed.

(** The plan of the iterator-vs-mutation race, when every worker
    terminates. *)
Lemma fast_iter_plan_spec num_iter_threads num_chaos_threads duration :
  0 <= duration →
  let workers :=
    (Z.to_nat num_iter_threads + Z.to_nat num_chaos_threads)%nat in
  (∀ t, (t < workers)%nat → is_Some (finish t)) →
  ∃ clock,
    run_delayed finish delay
      (fast_iter_plan num_iter_threads num_chaos_threads duration) 0 []
    = Finished clock [] ∧
    duration <= clock ∧
    ∀ t f, (t < workers)%nat → finish t = Some f → f <= clock.
Proof.
  intros Hd workers Hall. unfold fast_iter_plan.
  set (ts := seq 0 (Z.to_nat num_iter_threads)
             ++ seq (Z.to_nat num_iter_threads)
                  (Z.to_nat num_chaos_threads)).
  assert (Hts : ∀ t, t ∈ ts ↔ (t < workers)%nat).
  { intros t. unfold ts, workers. rewrite elem_of_app, !elem_of_seq. lia. }
  destruct (run_delayed_starts finish delay ts
              ([Sleep duration; SetEvent stop_event]
               ++ ((λ t, Join t None) <$> ts)) 0 [] Hsched)
    as (c0 & Hc0 & ->).
  destruct (run_delayed_sleep_set duration stop_event
              ((λ t, Join t None) <$> ts) c0 [] Hd) as (c1 & Hc1 & ->).
  destruct (run_delayed_joins_unbounded ts c1 [])
    as (c' & Hrun & Hle & Hfin).
  { intros t Ht. by apply Hall, Hts. }
  exists c'. split; [exact Hrun|]. split; [lia|].
  intros t f Ht. apply Hfin. by apply Hts.
Qed.
End any_scheduling.

(** X10. Once its threads are started, [fast_iter_vs_mutation_race]
    returns [True] exactly when every one of its iterating and chaos
    threads terminates; it then returns no earlier than the sleep ends and
    no earlier than the last of them terminates, and no join has expired. A
    single thread that does not terminate blocks the caller for ever. *)
Theorem X10_fast_iter_returns_iff_workers_stop (finish : behaviour)
    (num_iter_threads num_chaos_threads : Z) (duration : millis) :
  0 <= duration →
  let workers :=
    (Z.to_nat num_iter_threads + Z.to_nat num_chaos_threads)%nat in
  (fast_iter_vs_mutation_race finish num_iter_threads num_chaos_threads
     duration = Survived
   ↔ ∀ t, (t < workers)%nat → is_Some (finish t)) ∧
  (fast_iter_vs_mutation_race finish num_iter_threads num_chaos_threads
     duration = Hangs
   ↔ ∃ t, (t < workers)%nat ∧ finish t = None) ∧
  (∀ clock expired,
     run_plan finish
       (fast_iter_plan num_iter_threads num_chaos_threads duration) 0 []
     = Finished clock expired →
     expired = [] ∧ duration <= clock ∧
     ∀ t f, (t < workers)%nat → finish t = Some f → f <= clock).
Proof.
  intros Hd workers.
  assert (Hgood : (∀ t, (t < workers)%nat → is_Some (finish t)) →
    ∃ clock, run_plan finish
      (fast_iter_plan num_iter_threads num_chaos_threads duration) 0 []
      = Finished clock [] ∧ duration <= clock ∧
      ∀ t f, (t < workers)%nat → finish t = Some f → f <= clock).
  { intros Hall. unfold run_plan.
    by apply (fast_iter_plan_spec finish on_time on_time_scheduled). }
  assert (Hbad : ∀ t, (t < workers)%nat → finish t = None →
    fast_iter_vs_mutation_race finish num_iter_threads num_chaos_threads
      duration = Hangs).
  { intros t Ht Hnone. by eapply fast_iter_blocks. }
  assert (Hdec : (∀ t, (t < workers)%nat → is_Some (finish t)) ∨
                 (∃ t, (t < workers)%nat ∧ finish t = None)).
  { clear. induction workers as [|n IH]; [left; lia|].
    destruct IH as [IH|(t & Ht & Hnone)].
    - destruct (finish n) as [f|] eqn:Hf.
      + left. intros t Ht. destruct (decide (t = n)) as [->|?];
          [by rewrite Hf|apply IH; lia].
      + right. exists n. split; [lia|done].
    - right. exists t. split; [lia|done]. }
  split; [|split].
  - split.
    + intros Hs. destruct Hdec as [Hall|(t & Ht & Hnone)]; [done|].
      rewrite (Hbad t Ht Hnone) in Hs. discriminate.
    + intros Hall. destruct (Hgood Hall) as (c & Hrun & _).
      unfold fast_iter_vs_mutation_race. by rewrite Hrun.
  - split.
    + intros Hh. destruct Hdec as [Hall|Hex]; [|done].
      destruct (Hgood Hall) as (c & Hrun & _).
      unfold fast_iter_vs_mutation_race in Hh. rewrite Hrun in Hh.
      discriminate.
    + intros (t & Ht & Hnone). by eapply Hbad.
  - intros clock expired Hrun.
    destruct Hdec as [Hall|(t & Ht & Hnone)].
    + destruct (Hgood Hall) as (c & Hrun' & Hle & Hfin).
      rewrite Hrun in Hrun'. injection Hrun' as -> ->. done.
    + pose proof (Hbad t Ht Hnone) as Hh.
      unfold fast_iter_vs_mutation_race in Hh. rewrite Hrun in Hh.
      discriminate.
Qed.

Lemma X10_fast_iter_returns_iff_workers_stop_witness :
  0 <= 200 ∧
  (fast_iter_vs_mutation_race (λ t, Some (200 + Z.of_nat t)) 4 2 200
   = Survived
   ↔ ∀ t, (t < 6)%nat → is_Some (Some (200 + Z.of_nat t))).
Proof.
  assert (Hd : 0 <= 200) by lia.
  split; [exact Hd|].
  exact (proj1 (X10_fast_iter_returns_iff_workers_stop
                  (λ t, Some (200 + Z.of_nat t)) 4 2 200 Hd)).
Defined.

(** X11. The stop-flag races ([high_frequency_cas_race],
    [mutable_vs_container_race], [handle_vs_direct_ref_swap_race]), for a
    main thread that is given the processor back after every step. A
    negative duration makes [time.sleep] raise [ValueError] once the workers
    are started; the stop flag is then never set. Otherwise the verdict is
    reached no earlier than [duration] after the start, whatever the
    workers do; the joins that gave up are joins of workers that had not
    terminated one second after the sleep: every worker that never
    terminates makes its join give up, and no worker that terminates within
    a second of the sleep does. The verdict is [True] when no worker
    collected an error and a [RuntimeError] otherwise, given up joins or
    not. *)
Theorem X11_stop_flag_race_timing (finish : behaviour)
    (delay : scheduling) (errors : list exc_class) (num_threads : Z)
    (duration : millis) :
  scheduled delay →
  (duration < 0 →
   stop_flag_race finish delay errors num_threads duration
   = Reraised ValueError) ∧
  (0 <= duration →
   ∃ clock gave_up,
     run_delayed finish delay (stop_flag_plan num_threads duration) 0 []
     = Finished clock gave_up ∧
     duration <= clock ∧
     (∀ t, t ∈ gave_up →
           (t < Z.to_nat num_threads)%nat ∧
           ∀ f, finish t = Some f → duration + 1000 < f) ∧
     (∀ t, (t < Z.to_nat num_threads)%nat → finish t = None →
           t ∈ gave_up) ∧
     (∀ t f, (t < Z.to_nat num_threads)%nat → finish t = Some f →
             f <= duration + 1000 → t ∉ gave_up) ∧
     stop_flag_race finish delay errors num_threads duration
     = match errors with
       | [] => Survived
       | _ :: _ => Reraised RuntimeError
       end).
Proof.
  intros Hsched. split.
  - intros Hneg. unfold stop_flag_race.
    pose proof (stop_flag_plan_runs finish delay num_threads duration
                  Hsched) as Hruns.
    destruct (Z.ltb_spec duration 0) as [_|?]; [|lia]. by rewrite Hruns.
  - intros Hd.
    destruct (stop_flag_plan_spec finish delay Hsched num_threads duration
                Hd) as (clock & l & Hrun & Hc & Hin & Hstuck & Hdone).
    exists clock, l. split; [exact Hrun|]. split; [exact Hc|].
    split; [exact Hin|]. split; [exact Hstuck|]. split; [exact Hdone|].
    unfold stop_flag_race. rewrite Hrun. by destruct errors.
Qed.

Lemma X11_stop_flag_race_timing_witness :
  scheduled a_little_late ∧ 0 <= 100 ∧
  ∃ clock gave_up,
    run_delayed (λ t, if decide (t = 1%nat) then None else Some 100)
      a_little_late (stop_flag_plan 4 100) 0 []
    = Finished clock gave_up ∧
    100 <= clock ∧ 1%nat ∈ gave_up.
Proof.
  pose proof a_little_late_scheduled as Hsched.
  assert (Hd : 0 <= 100) by lia.
  split; [exact Hsched|]. split; [exact Hd|].
  destruct (X11_stop_flag_race_timing
              (λ t, if decide (t = 1%nat) then None else Some 100)
              a_little_late [] 4 100 Hsched) as [_ Hrun].
  destruct (Hrun Hd) as (clock & l & Hfin & Hc & _ & Hstuck & _).
  exists clock, l. split; [exact Hfin|]. split; [exact Hc|].
  apply Hstuck; [simpl; lia|reflexivity].
Defined.

Example stop_flag_one_stuck_worker :
  run_delayed (λ t, if decide (t = 1%nat) then None else Some 100)
    a_little_late (stop_flag_plan 4 100) 0 []
  = Finished 1110 [1%nat].
Proof. reflexivity. Qed.

Example stop_flag_negative_duration :
  stop_flag_race stuck a_little_late [] 4 (-1) = Reraised ValueError.
Proof. reflexivity. Qed.

End JoinPlansTimingFacts.

(** ** The scripted scenarios on a [dict] *)

Module StatefulScriptedFacts.
Import StatefulScenarios StatefulScripted.

(** The dictionary after [d[f i] = i] for the [i] of [l], and after
    [del d[i]]. *)
Lemma for_each_set (body : Z → gmap Z val → option exc_class * gmap Z val)
    (f : Z → Z) (l : list Z) : ∀ d,
  (∀ i d, body i d = (None, <[f i := i]> d)) →
  for_each body l d = (None, foldl (λ d i, <[f i := i]> d) d l).
Proof.
  induction l as [|a l IH]; intros d Hbody; simpl; [done|].
  rewrite Hbody. by apply IH.
Qed.

Lemma for_each_del (l : list Z) : ∀ d : gmap Z val,
  NoDup l → (∀ i, i ∈ l → is_Some (d !! i)) →
  for_each (λ i, m_delitem (KInt i)) l d
  = (None, foldl (λ d i, delete i d) d l).
Proof.
  induction l as [|a l IH]; intros d Hnd Hin; simpl; [done|].
  apply NoDup_cons in Hnd as [Ha Hnd].
  rewrite bool_decide_eq_true_2 by (apply Hin; by left).
  apply IH; [done|]. intros i Hi.
  rewrite lookup_delete_ne by (intros ->; done). apply Hin. by right.
Qed.

Lemma lookup_set_all_in (f : Z → Z) `{!Inj (=) (=) f} (l : list Z)
    (d : gmap Z val) (i : Z) :
  i ∈ l → foldl (λ d i, <[f i := i]> d) d l !! f i = Some i.
Proof.
  induction l as [|a l IH] using rev_ind; intros Hi.
  - by apply elem_of_nil in Hi.
  - rewrite foldl_snoc. destruct (decide (f a = f i)) as [Heq|Hne].
    + rewrite Heq, lookup_insert_eq. by rewrite (inj f _ _ Heq).
    + rewrite lookup_insert_ne by done. apply IH.
      apply elem_of_app in Hi as [Hi|Hi]; [done|].
      apply list_elem_of_singleton in Hi as ->. done.
Qed.

Lemma lookup_set_all_out (f : Z → Z) (l : list Z) (d : gmap Z val) (k : Z) :
  (∀ i, i ∈ l → f i ≠ k) →
  foldl (λ d i, <[f i := i]> d) d l !! k = d !! k.
Proof.
  revert d. induction l as [|a l IH]; intros d Hout; simpl; [done|].
  rewrite IH by (intros i Hi; apply Hout; by right).
  apply lookup_insert_ne, Hout. by left.
Qed.

Lemma lookup_del_all (l : list Z) (d : gmap Z val) (k : Z) :
  foldl (λ d i, delete i d) d l !! k
  = if bool_decide (k ∈ l) then None else d !! k.
Proof.
  revert d. induction l as [|a l IH]; intros d; simpl; [done|].
  rewrite IH. destruct (decide (k = a)) as [->|Hne].
  - rewrite lookup_delete_eq.
    rewrite (bool_decide_eq_true_2 (a ∈ a :: l)) by (by left).
    by destruct (bool_decide (a ∈ l)).
  - rewrite lookup_delete_ne by done.
    destruct (decide (k ∈ l)) as [Hin|Hnin].
    + rewrite !bool_decide_eq_true_2; [done|by right|done].
    + rewrite !bool_decide_eq_false_2; [done| |done].
      intros [->|?]%elem_of_cons; done.
Qed.

Lemma dom_set_all (f : Z → Z) (l : list Z) : ∀ d : gmap Z val,
  dom (foldl (λ d i, <[f i := i]> d) d l) = list_to_set (f <$> l) ∪ dom d.
Proof.
  induction l as [|a l IH]; intros d; simpl.
  - set_solver.
  - rewrite IH, dom_insert_L. set_solver.
Qed.

(** X12. On a dictionary that behaves like [dict],
    [scenario_grow_shrink_and_reuse] raises nothing and returns [True]; the
    dictionary it leaves holds exactly the keys [num_items .. 2 * num_items
    - 1], key [i + num_items] with value [i]. No warning is printed for
    [num_items >= 0]; for a negative [num_items] no operation is run, the
    length read is [0], and the warning is printed. *)
Theorem X12_grow_shrink_and_reuse_on_dict (num_items : Z) :
  ∃ d : gmap Z val,
    scenario_grow_shrink_and_reuse (∅ : gmap Z val) num_items
    = Returns true (Some d)
        (if bool_decide (num_items < 0)
         then [WarningFinalLength num_items 0] else []) ∧
    m_len d = Z.max 0 num_items ∧
    ∀ k, d !! k = if bool_decide (num_items <= k < 2 * num_items)
                  then Some (k - num_items) else None.
Proof.
  unfold scenario_grow_shrink_and_reuse.
  set (range := seqZ 0 num_items).
  rewrite (for_each_set _ (λ i, i) range) by done.
  set (grown := foldl (λ d i, <[i := i]> d) (∅ : gmap Z val) range).
  rewrite for_each_del; [|apply NoDup_seqZ|].
  2:{ intros i Hi. unfold grown.
      rewrite (lookup_set_all_in (λ i, i) range ∅ i Hi). by eexists. }
  set (shrunk := foldl (λ d i, delete i d) grown range).
  assert (Hempty : shrunk = ∅).
  { apply map_eq. intros k. unfold shrunk. rewrite lookup_del_all.
    rewrite lookup_empty. destruct (decide (k ∈ range)) as [Hin|Hnin].
    - by rewrite bool_decide_eq_true_2.
    - rewrite bool_decide_eq_false_2 by done. unfold grown.
      rewrite lookup_set_all_out; [done|]. by intros i Hi ->. }
  rewrite (for_each_set _ (λ i, i + num_items) range) by done.
  rewrite Hempty.
  set (d := foldl (λ d i, <[i + num_items := i]> d) (∅ : gmap Z val) range).
  assert (Hinj : Inj (=) (=) (λ i, i + num_items)) by (intros x y ?; lia).
  assert (Hlen : m_len d = Z.max 0 num_items).
  { simpl. rewrite <- size_dom. unfold d. rewrite dom_set_all, dom_empty_L.
    rewrite (right_id_L ∅ (∪)), size_list_to_set.
    - rewrite length_fmap. unfold range. rewrite length_seqZ. lia.
    - apply NoDup_fmap; [done|]. apply NoDup_seqZ. }
  exists d. split; [|split; [exact Hlen|]].
  - rewrite Hlen. f_equal.
    destruct (Z.ltb_spec num_items 0).
    + rewrite !bool_decide_eq_true_2 by lia. do 2 f_equal. lia.
    + by rewrite !bool_decide_eq_false_2 by lia.
  - intros k. destruct (decide (num_items <= k < 2 * num_items)) as [Hk|Hk].
    + rewrite bool_decide_eq_true_2 by done.
      replace k with ((k - num_items) + num_items) at 1 by lia.
      unfold d.
      apply (lookup_set_all_in (λ i, i + num_items) range ∅ (k - num_items)).
      unfold range. apply elem_of_seqZ. lia.
    + rewrite bool_decide_eq_false_2 by done. unfold d.
      rewrite lookup_set_all_out; [done|].
      intros i Hi%elem_of_seqZ. lia.
Qed.

(** The state of a [dict] after the insertions and deletions of the hammer
    scenario answers the verification loop without an [ERROR] line. *)
Lemma verify_clean (keys : list Z) (deleted_set : gset Z) (d : gmap Z val) :
  ∀ stderr,
  (∀ k, k ∈ keys →
        d !! k = if bool_decide (k ∈ deleted_set) then None else Some k) →
  verify keys deleted_set d stderr = Returns true (Some d) stderr.
Proof.
  induction keys as [|key rest IH]; intros stderr Hst; [done|].
  cbn [verify].
  change (m_lookup (KInt key) d)
    with (match d !! key with
          | Some v => (inr v, d)
          | None => (inl KeyError, d)
          end : (exc_class + val) * gmap Z val).
  unfold val in *. rewrite (Hst key) by (by left).
  assert (Hrest : ∀ k, k ∈ rest →
            d !! k = if bool_decide (k ∈ deleted_set) then None else Some k).
  { intros k Hk. apply Hst. by right. }
  destruct (decide (key ∈ deleted_set)) as [Hdel|Hkept].
  - rewrite (bool_decide_eq_true_2 (key ∈ deleted_set)) by done.
    cbv beta iota.
    rewrite (bool_decide_eq_true_2 (KeyError = KeyError)) by done.
    rewrite (bool_decide_eq_false_2 (key ∉ deleted_set)) by (by intros ?).
    rewrite app_nil_r. by apply IH.
  - rewrite (bool_decide_eq_false_2 (key ∈ deleted_set)) by done.
    cbv beta iota.
    rewrite (bool_decide_eq_false_2 (key ≠ key)) by (by intros ?).
    rewrite app_nil_r. by apply IH.
Qed.

Lemma sorted_NoDup (l : list Z) : StronglySorted Z.lt l → NoDup l.
Proof.
  induction 1 as [|x l Hs IH Hall]; constructor; [|done].
  intros Hin. rewrite Forall_forall in Hall. specialize (Hall x Hin). lia.
Qed.

Lemma submseteq_NoDup_l (l k : list Z) : l ⊆+ k → NoDup k → NoDup l.
Proof.
  intros [k' Hperm]%submseteq_Permutation Hnd.
  rewrite Hperm in Hnd. by apply NoDup_app in Hnd as [? _].
Qed.

(** The hammering on a [dict], for keys without duplicates. *)
Lemma hammer_clean_on_dict (keys_to_hammer : list Z)
    (random_sample : list Z → nat → list Z) :
  NoDup keys_to_hammer →
  random_sample keys_to_hammer (length keys_to_hammer `div` 2)%nat
    ⊆+ keys_to_hammer →
  let keys_to_delete :=
    random_sample keys_to_hammer (length keys_to_hammer `div` 2)%nat in
  ∃ d : gmap Z val,
    hammer (∅ : gmap Z val) keys_to_hammer random_sample
    = Returns true (Some d) [] ∧
    ∀ k, d !! k = if bool_decide (k ∈ keys_to_hammer ∧ k ∉ keys_to_delete)
                  then Some k else None.
Proof.
  intros Hnd Hsample keys_to_delete.
  assert (Hnd' : NoDup keys_to_delete) by by eapply submseteq_NoDup_l.
  unfold hammer.
  rewrite (for_each_set _ (λ i, i) keys_to_hammer) by done.
  set (d := foldl (λ d i, <[i := i]> d) (∅ : gmap Z val) keys_to_hammer).
  fold keys_to_delete.
  rewrite for_each_del; [|done|].
  2:{ intros i Hi. unfold d.
      rewrite (lookup_set_all_in (λ i, i) keys_to_hammer ∅ i); [by eexists|].
      by eapply elem_of_submseteq. }
  set (d' := foldl (λ d i, delete i d) d keys_to_delete).
  assert (Hd' : ∀ k, d' !! k
            = if bool_decide (k ∈ keys_to_hammer ∧ k ∉ keys_to_delete)
              then Some k else None).
  { intros k. unfold d'. rewrite lookup_del_all.
    destruct (decide (k ∈ keys_to_delete)) as [Hdel|Hkept].
    - rewrite bool_decide_eq_true_2 by done.
      by rewrite bool_decide_eq_false_2 by (by intros [_ ?]).
    - rewrite bool_decide_eq_false_2 by done. unfold d.
      destruct (decide (k ∈ keys_to_hammer)) as [Hin|Hnin].
      + rewrite bool_decide_eq_true_2 by done.
        apply (lookup_set_all_in (λ i, i) keys_to_hammer ∅ k Hin).
      + rewrite bool_decide_eq_false_2 by (by intros [? _]).
        rewrite lookup_set_all_out; [done|]. by intros i Hi ->. }
  exists d'. split; [|exact Hd'].
  apply verify_clean. intros k Hk. rewrite Hd'.
  destruct (decide (k ∈ keys_to_delete)) as [Hdel|Hkept].
  - rewrite bool_decide_eq_false_2 by (by intros [_ ?]).
    by rewrite bool_decide_eq_true_2 by (by apply elem_of_list_to_set).
  - rewrite bool_decide_eq_true_2 by done.
    rewrite bool_decide_eq_false_2; [done|].
    by rewrite elem_of_list_to_set.
Qed.

(** X13. [scenario_hammer_colliding_bucket] as the repository wires it.
    [populate_modules] stores what [__import__] of the dotted module name
    returns, which is the top-level package, and the package binds no
    [colliding_key_sets]: whatever the subject and the keys generated, the
    scenario prints that the module was not found and returns [False] when
    the import failed, and raises [AttributeError] when it succeeded; it
    never makes a dictionary. The same holds of any module object that does
    not bind the name. *)
Theorem X13_hammer_as_wired `{Mapping D} `{Lookup D} (new_d : D)
    (random_sample : list Z → nat → list Z) :
  (∀ imported,
     scenario_hammer_colliding_bucket new_d
       (populate_modules_entry imported) random_sample
     = if imported then Propagates AttributeError
       else Returns false None [SkippingModuleNotFound]) ∧
  (∀ module : module_object,
     module !! "colliding_key_sets" = None →
     scenario_hammer_colliding_bucket new_d (Some module) random_sample
     = Propagates AttributeError) ∧
  (∀ module sets,
     module !! "colliding_key_sets" = Some (KeySets sets) →
     scenario_hammer_colliding_bucket new_d (Some module) random_sample
     = match sets !! "log_size_6" ≫= (.!! 0) with
       | None | Some [] => Returns false None [SkippingNoKeys]
       | Some keys_to_hammer => hammer new_d keys_to_hammer random_sample
       end).
Proof.
  split; [|split].
  - intros [|]; reflexivity.
  - intros module Hmod. unfold scenario_hammer_colliding_bucket.
    by rewrite Hmod.
  - intros module sets Hmod. unfold scenario_hammer_colliding_bucket.
    rewrite Hmod. destruct (sets !! "log_size_6") as [key_set|]; [|done].
    simpl. by destruct (key_set !! 0) as [[|k keys]|].
Qed.

(** X16. The hammering itself (the scenario from [d =
    cereggii.AtomicDict()] on), on a dictionary that behaves like [dict]:
    for keys in strictly increasing order, as the generator lists them,
    and whatever half of them [random.sample] draws, it raises nothing,
    prints no [ERROR] line and returns [True]; the dictionary is left with
    exactly the keys that were not drawn, each under its own value. *)
Theorem X16_hammering_on_dict (keys_to_hammer : list Z)
    (random_sample : list Z → nat → list Z) :
  StronglySorted Z.lt keys_to_hammer →
  random_sample keys_to_hammer (length keys_to_hammer `div` 2)%nat
    ⊆+ keys_to_hammer →
  let keys_to_delete :=
    random_sample keys_to_hammer (length keys_to_hammer `div` 2)%nat in
  ∃ d : gmap Z val,
    hammer (∅ : gmap Z val) keys_to_hammer random_sample
    = Returns true (Some d) [] ∧
    ∀ k, d !! k = if bool_decide (k ∈ keys_to_hammer ∧ k ∉ keys_to_delete)
                  then Some k else None.
Proof.
  intros Hsorted. apply hammer_clean_on_dict. by apply sorted_NoDup.
Qed.

Lemma X16_hammering_on_dict_witness :
  let random_sample : list Z → nat → list Z := λ l k, take k (reverse l) in
  StronglySorted Z.lt [0; 64; 128; 192] ∧
  random_sample [0; 64; 128; 192] 2%nat ⊆+ [0; 64; 128; 192] ∧
  ∃ d : gmap Z val,
    hammer (∅ : gmap Z val) [0; 64; 128; 192] random_sample
    = Returns true (Some d) [] ∧
    d !! 0 = Some 0 ∧ d !! 192 = None.
Proof.
  intros random_sample.
  assert (H4 : StronglySorted Z.lt [0; 64; 128; 192]).
  { repeat constructor; lia. }
  assert (H5 : random_sample [0; 64; 128; 192]
                 (length [0; 64; 128; 192] `div` 2)%nat
               ⊆+ [0; 64; 128; 192]).
  { apply NoDup_submseteq.
    - vm_compute. repeat constructor; set_solver.
    - vm_compute. set_solver. }
  split; [exact H4|]. split; [exact H5|].
  destruct (X16_hammering_on_dict [0; 64; 128; 192] random_sample H4 H5)
    as (d & Hrun & Hd).
  exists d. split; [exact Hrun|]. split.
  - rewrite Hd. reflexivity.
  - rewrite Hd. reflexivity.
Defined.

(** A subject that ignores deletions is reported, one line for each key
    drawn. *)
Example hammer_leaky :
  hammer {| leaky_items := ∅ |} [0; 64; 128; 192]
    (λ l k, take k (reverse l))
  = Returns true
      (Some {| leaky_items :=
                 {[ 0 := 0; 64 := 64; 128 := 128; 192 := 192 ]} |})
      [ErrorFoundDeleted 128; ErrorFoundDeleted 192].
Proof. vm_compute. reflexivity. Qed.

End StatefulScriptedFacts.

(** ** [scenario_random_ops] checked against itself *)

Module StatefulReplayFacts.
Import StatefulScenarios StatefulReplay.

Lemma try_step_dict (o : op) (m : gmap Z val) :
  try_step o m m
  = StepDone (apply_op o m).2 (apply_op o m).2 (unhashable_assignments [o]).
Proof.
  destruct o as [[n|n] v|[n|n]|[n|n]|]; try done.
  - unfold try_step. simpl.
    destruct (bool_decide (is_Some (m !! n))) eqn:E; [done|].
    simpl. unfold handler. simpl. by rewrite E.
  - unfold try_step. simpl.
    destruct (bool_decide (is_Some (m !! n))) eqn:E; [done|].
    simpl. unfold handler. simpl. by rewrite E.
Qed.

Lemma run_steps_dict (ops : list op) : ∀ step (m : gmap Z val) stderr,
  run_steps ops step m m stderr
  = Returns true (replay ops m) (replay ops m)
      (stderr ++ unhashable_assignments ops).
Proof.
  induction ops as [|o ops IH]; intros step m stderr.
  - simpl. by rewrite app_nil_r.
  - cbn [run_steps]. rewrite try_step_dict.
    rewrite bool_decide_eq_false_2 by (by intros ?).
    rewrite IH. unfold replay. cbn [foldl].
    rewrite <- app_assoc. do 2 f_equal.
    unfold unhashable_assignments. simpl.
    by destruct o as [[n|n] v|[n|n]|[n|n]|].
Qed.

(** X14. When the subject of [scenario_random_ops] behaves exactly like the
    [dict] it is compared with, the scenario returns [True] for every
    sequence of draws, and leaves the two dictionaries equal; but it prints
    an [ERROR] line, that the subject raised and the model did not, for
    every assignment under an unhashable key, and nothing else: the handler
    asks the model again for ["getitem"] and ["delitem"] only. *)
Theorem X14_random_ops_on_dict (ops : list op) :
  scenario_random_ops (D := gmap Z val) (M := gmap Z val) ∅ ∅ ops
  = Returns true (replay ops ∅) (replay ops ∅) (unhashable_assignments ops).
Proof. unfold scenario_random_ops. by rewrite run_steps_dict. Qed.

End StatefulReplayFacts.

(** ** The module-level collection *)

Module CollidingKeysModuleFacts.
Import CollidingKeys CollidingKeysFacts CollidingKeysModule.

Lemma collect_spec (generate : Z → call_result) (sizes : list Z) :
  ∀ acc,
  NoDup (size_label <$> sizes) →
  (∀ log_size, log_size ∈ sizes →
     ∃ m out err, generate log_size = Returned m out err) →
  ∃ sets,
    collect generate sizes acc = inr sets ∧
    dom sets = list_to_set (size_label <$> sizes) ∪ dom acc ∧
    (∀ log_size, log_size ∈ sizes →
       ∃ m out err, generate log_size = Returned m out err ∧
                    sets !! size_label log_size = Some m) ∧
    (∀ label, label ∉ size_label <$> sizes → sets !! label = acc !! label).
Proof.
  induction sizes as [|a sizes IH]; intros acc Hnd Hret.
  - exists acc. split; [done|]. split; [set_solver|].
    split; [|done]. intros log_size Hin. by apply elem_of_nil in Hin.
  - cbn [fmap list_fmap] in Hnd. apply NoDup_cons in Hnd as [Ha Hnd].
    destruct (Hret a) as (m & out & err & Hm); [by left|].
    cbn [collect]. rewrite Hm.
    destruct (IH (<[size_label a := m]> acc) Hnd) as
      (sets & -> & Hdom & Hin & Hout).
    { intros log_size Hl. apply Hret. by right. }
    exists sets. split; [done|]. split; [|split].
    + rewrite Hdom, dom_insert_L. set_solver.
    + intros log_size [->|Hl]%elem_of_cons.
      * exists m, out, err. split; [done|].
        by rewrite (Hout _ Ha), lookup_insert_eq.
      * by apply Hin.
    + intros label Hlabel. cbn [fmap list_fmap] in Hlabel.
      apply not_elem_of_cons in Hlabel as [Hne Hlabel].
      by rewrite (Hout _ Hlabel), lookup_insert_ne.
Qed.

Lemma size_labels_NoDup : NoDup (size_label <$> LOG_SIZES_TO_GENERATE).
Proof. apply (bool_decide_unpack _). vm_compute. exact I. Qed.

Section any_ceiling_module.
Variable ceiling : Z.

Lemma module_sets_spec dummy :
  ∃ sets,
    colliding_key_sets_with_ceiling ceiling dummy = inr sets ∧
    dom sets = list_to_set (size_label <$> LOG_SIZES_TO_GENERATE) ∧
    ∀ log_size, log_size ∈ LOG_SIZES_TO_GENERATE →
      ∃ m out err,
        generate_with_ceiling ceiling dummy log_size 16 32
        = Returned m out err ∧
        sets !! size_label log_size = Some m.
Proof.
  destruct (collect_spec
              (λ log_size, generate_with_ceiling ceiling dummy log_size 16 32)
              LOG_SIZES_TO_GENERATE ∅ size_labels_NoDup)
    as (sets & Hsets & Hdom & Hin & _).
  - intros log_size Hl. apply generate_returns.
    unfold LOG_SIZES_TO_GENERATE in Hl.
    repeat (apply elem_of_cons in Hl as [->|Hl]; [lia|]).
    by apply elem_of_nil in Hl.
  - exists sets. split; [done|]. split; [|done].
    rewrite Hdom, dom_empty_L. set_solver.
Qed.

End any_ceiling_module.

(** X15. The module-level loop of [tricky_colliding_keys] never raises,
    whether the subject could be instantiated or not: [colliding_key_sets]
    has exactly the four labels ["log_size_6"], ["log_size_7"],
    ["log_size_8"] and ["log_size_10"], each with what
    [generate_colliding_keys] returned for that size with the default
    targets. Without a subject the four entries are empty. *)
Theorem X15_module_collection (dummy : option AtomicDict) :
  ∃ sets,
    CollidingKeysModule.colliding_key_sets dummy = inr sets ∧
    dom sets = {["log_size_6"; "log_size_7"; "log_size_8"; "log_size_10"]} ∧
    (∀ log_size, log_size ∈ LOG_SIZES_TO_GENERATE →
       ∃ m out err,
         generate_colliding_keys dummy log_size 16 32 = Returned m out err ∧
         sets !! size_label log_size = Some m ∧
         (dummy = None → m = ∅)).
Proof.
  destruct (module_sets_spec SEARCH_CEILING dummy)
    as (sets & Hsets & Hdom & Hin).
  exists sets. split; [exact Hsets|]. split.
  - rewrite Hdom. apply set_eq. intros x.
    change (size_label <$> LOG_SIZES_TO_GENERATE)
      with ["log_size_6"; "log_size_7"; "log_size_8"; "log_size_10"].
    set_solver.
  - intros log_size Hl. destruct (Hin log_size Hl) as (m & out & err & Hm & E).
    exists m, out, err. split; [exact Hm|]. split; [exact E|].
    intros ->. simpl in Hm. by injection Hm as <- _ _.
Qed.

End CollidingKeysModuleFacts.

(** ** The attack on [cereggii.Constant] *)

Module WeirdConstantFacts.
Import WeirdCereggii WeirdConstant.

Lemma try_suite_prefix (stmts : list statement) : ∀ catalog,
  ∃ stored,
    stored `prefix_of` assigned stmts ∧
    dom (try_suite stmts catalog).2 = dom catalog ∪ list_to_set stored ∧
    (∀ name, name ∉ stored →
             (try_suite stmts catalog).2 !! name = catalog !! name) ∧
    ((try_suite stmts catalog).1 = None → stored = assigned stmts).
Proof.
  induction stmts as [|[[u|e]|name [instance|e]] rest IH]; intros catalog.
  - exists []. split; [done|]. split; [set_solver|]. done.
  - cbn [try_suite assigned omap list_omap]. apply IH.
  - exists []. split; [apply prefix_nil|]. split; [set_solver|]. done.
  - destruct (IH (<[name := instance]> catalog))
      as (stored & Hpre & Hdom & Hout & Hall).
    exists (name :: stored). cbn [try_suite].
    split; [by apply prefix_cons|]. split; [|split].
    + rewrite Hdom, dom_insert_L. set_solver.
    + intros name' [Hne Hnin]%not_elem_of_cons.
      by rewrite (Hout _ Hnin), lookup_insert_ne.
    + intros Hnone. cbn [assigned omap list_omap].
      f_equal. by apply Hall.
  - exists []. split; [apply prefix_nil|]. split; [set_solver|]. done.
Qed.

Lemma instance_name_not_constant (wc : weird_class) :
  instance_name wc ∉ assigned (constant_attack_suite singleton_world).
Proof.
  unfold instance_name. cbn.
  rewrite !not_elem_of_cons. repeat split; try discriminate.
  apply not_elem_of_nil.
Qed.

(** X17. The attack on the constant type stores its four objects in order
    until a statement of the suite raises: the names stored are a prefix of
    the four, all four when nothing raises. Whatever the subject does, the
    entries the catalog held before are kept unless they bear one of those
    names; the instances of the generation loop never do. One line at most
    is printed, for an [Exception]; anything else goes on up, the entries
    stored so far staying in the catalog. *)
Theorem X17_constant_attack_keeps_catalog (w : constant_world)
    (catalog : gmap string value) :
  let names := ["weird_constant_subclass_instance";
                "weird_constant_eq_subclass_instance";
                "rogue_constant_1"; "rogue_constant_2"] in
  let catalog' := attack_catalog (constant_attack w catalog) in
  ∃ stored,
    stored `prefix_of` names ∧
    dom catalog' = dom catalog ∪ list_to_set stored ∧
    (∀ name, name ∉ stored → catalog' !! name = catalog !! name) ∧
    (∀ wc, catalog' !! instance_name wc = catalog !! instance_name wc) ∧
    (constant_attack w catalog = AttackDone catalog' None → stored = names) ∧
    (∀ e, constant_attack w catalog = AttackAborted e catalog' →
          is_Exception (exc_cls e) = false) ∧
    (∀ e, constant_attack w catalog = AttackDone catalog' (Some e) →
          is_Exception (exc_cls e) = true).
Proof.
  intros names catalog'.
  destruct (try_suite_prefix (constant_attack_suite w) catalog)
    as (stored & Hpre & Hdom & Hout & Hall).
  change (assigned (constant_attack_suite w)) with names in Hpre, Hall.
  assert (Hcat : catalog' = (try_suite (constant_attack_suite w) catalog).2).
  { unfold catalog', constant_attack.
    destruct (try_suite _ _) as [[e|] c]; [|done].
    by destruct (is_Exception _). }
  exists stored. rewrite Hcat. split; [exact Hpre|]. split; [exact Hdom|].
  split; [exact Hout|]. split; [|split; [|split]].
  - intros wc. apply Hout. intros Hin.
    apply (instance_name_not_constant wc).
    change (assigned (constant_attack_suite singleton_world)) with names.
    eapply elem_of_prefix; [exact Hin|exact Hpre].
  - intros Hdone. apply Hall. unfold constant_attack in Hdone.
    destruct (try_suite _ _) as [[e|] c]; [|done].
    by destruct (is_Exception _).
  - intros e. unfold constant_attack.
    destruct (try_suite _ _) as [[e'|] c]; [|done].
    destruct (is_Exception (exc_cls e')) eqn:E; [done|].
    intros Heq. congruence.
  - intros e. unfold constant_attack.
    destruct (try_suite _ _) as [[e'|] c]; [|done].
    destruct (is_Exception (exc_cls e')) eqn:E; [|done].
    intros Heq. congruence.
Qed.

(** The subclass instances are stored, the first rogue instance is
    refused: a line is printed, and the catalog keeps two of the four. *)
Example constant_attack_singleton :
  constant_attack singleton_world {[ "instance_of_X" := VNone ]}
  = AttackDone
      {[ "instance_of_X" := VNone;
         "weird_constant_subclass_instance" := VRef 5%positive;
         "weird_constant_eq_subclass_instance" := VRef 5%positive ]}
      (Some type_error).
Proof. by vm_compute. Qed.

End WeirdConstantFacts.
